(** * Adaptive-bitrate streaming pipeline: dispatcher and transcode worker

    A shallow embedding of the two programs of the repository:

    - [container/index.js], the transcode worker (module [Transcoder]);
    - [consumer/src/index.ts], the queue consumer (module [Consumer]).

    JavaScript strings are [string]s, integral numbers are [Z], the number
    [NaN] is [None] in an [option Z], and the probed duration (a possibly
    fractional number of seconds) is a rational [Q].  Calls to the outside
    world (queue, object store, compute dispatch, ffmpeg, the file system)
    are answered by oracles that see the whole history of calls so far, and
    every call is appended to a trace. *)

From Stdlib Require Import Ascii String ZArith QArith Qround.
From stdpp Require Import base tactics option list sorting strings pretty gmap.

Local Open Scope string_scope.
Local Open Scope list_scope.

(** ** JavaScript built-ins used by the two programs *)

Module JS.

(** [s.startsWith(p)] *)
Fixpoint startsWith (s p : string) {struct p} : bool :=
  match p, s with
  | EmptyString, _ => true
  | String _ _, EmptyString => false
  | String a p', String b s' => if Ascii.eqb a b then startsWith s' p' else false
  end.

(** [s.slice(n)] for [0 <= n] *)
Fixpoint drop (n : nat) (s : string) : string :=
  match n, s with
  | O, _ => s
  | S _, EmptyString => EmptyString
  | S n', String _ s' => drop n' s'
  end.

(** [s.endsWith(p)] *)
Definition endsWith (s p : string) : bool :=
  String.eqb (drop (String.length s - String.length p) s) p
  && (String.length p <=? String.length s)%nat.

(** [s.includes(p)] *)
Fixpoint includes (s p : string) : bool :=
  startsWith s p ||
  match s with
  | EmptyString => false
  | String _ s' => includes s' p
  end.

(** [s.replace(pat, rep)] with a string pattern: only the first
    occurrence of [pat] is replaced.  ([rep] is used literally; the
    replacement strings of the programs contain no [$].) *)
Fixpoint replace (s pat rep : string) : string :=
  if startsWith s pat then rep +:+ drop (String.length pat) s
  else match s with
       | EmptyString => EmptyString
       | String c s' => String c (replace s' pat rep)
       end.

(** [s.split(sep)] for a one-character separator [sep].  The result is
    never empty, so [s.split(sep)[0]] is always a string. *)
Fixpoint split (s : string) (sep : Ascii.ascii) : list string :=
  match s with
  | EmptyString => [EmptyString]
  | String c s' =>
      if Ascii.eqb c sep then EmptyString :: split s' sep
      else match split s' sep with
           | [] => [String c EmptyString]
           | w :: ws => String c w :: ws
           end
  end.

(** [a[0]] on an array of strings; [None] is [undefined]. *)
Definition first (a : list string) : option string := head a.

(** [a.join(sep)] *)
Fixpoint join (a : list string) (sep : string) : string :=
  match a with
  | [] => EmptyString
  | [x] => x
  | x :: rest => x +:+ sep +:+ join rest sep
  end.

(** Decimal rendering of an integral number, as [Number.prototype.toString]
    and template literals produce it for integers of magnitude below
    [10^21]. *)
Definition Number_toString (n : Z) : string := pretty n.

(** A number that may be [NaN] ([None]), rendered in a template literal. *)
Definition NaN_toString (n : option Z) : string :=
  match n with
  | Some z => Number_toString z
  | None => "NaN"
  end.

(** White space skipped by [parseInt] (the ASCII part of it). *)
Definition is_space (c : Ascii.ascii) : bool :=
  match Ascii.nat_of_ascii c with
  | 9%nat | 10%nat | 11%nat | 12%nat | 13%nat | 32%nat => true
  | _ => false
  end.

Definition digit_value (c : Ascii.ascii) : option Z :=
  let n := Z.of_nat (Ascii.nat_of_ascii c) in
  if (48 <=? n)%Z && (n <=? 57)%Z then Some (n - 48)%Z
  else if (97 <=? n)%Z && (n <=? 122)%Z then Some (n - 87)%Z
  else if (65 <=? n)%Z && (n <=? 90)%Z then Some (n - 55)%Z
  else None.

Fixpoint skip_spaces (s : string) : string :=
  match s with
  | String c s' => if is_space c then skip_spaces s' else s
  | EmptyString => s
  end.

(** The longest prefix of digits of radix [radix], accumulated left to
    right; [None] when there is no digit at all. *)
Fixpoint parse_digits (radix : Z) (acc : option Z) (s : string) : option Z :=
  match s with
  | EmptyString => acc
  | String c s' =>
      match digit_value c with
      | Some d =>
          if (d <? radix)%Z
          then parse_digits radix (Some (default 0%Z acc * radix + d)%Z) s'
          else acc
      | None => acc
      end
  end.

(** [parseInt(s)] without a radix argument: leading white space, an
    optional sign, an optional [0x] prefix selecting radix 16, then the
    longest run of digits.  [None] is [NaN]. *)
Definition parseInt (s : string) : option Z :=
  let s := skip_spaces s in
  let '(sign, s) :=
    match s with
    | String "-" s' => ((-1)%Z, s')
    | String "+" s' => (1%Z, s')
    | _ => (1%Z, s)
    end in
  let '(radix, s) :=
    if startsWith s "0x" || startsWith s "0X" then (16%Z, drop 2 s)
    else (10%Z, s) in
  (λ n, sign * n)%Z <$> parse_digits radix None s.

(** [a * b] on numbers that may be [NaN]. *)
Definition mul (a b : option Z) : option Z :=
  a' ← a; b' ← b; Some (a' * b')%Z.

End JS.


(** ** Control flow: normal completion, exceptions and [process.exit] *)

Module Exec.

(** How a piece of code ends: with a value, with an exception that
    propagates (a rejected promise), or by terminating the process. *)
Inductive outcome (A : Type) : Type :=
| Val (a : A)
| Throw
| Exit (code : Z).
Global Arguments Val {A} a.
Global Arguments Throw {A}.
Global Arguments Exit {A} code.

(** Code that runs on a world [W]. *)
Definition M (W A : Type) : Type := W → outcome A * W.

Section Monad.
Context {W : Type}.

Definition ret {A} (a : A) : M W A := λ w, (Val a, w).

Definition bind {A B} (m : M W A) (k : A → M W B) : M W B := λ w,
  match m w with
  | (Val a, w') => k a w'
  | (Throw, w') => (Throw, w')
  | (Exit c, w') => (Exit c, w')
  end.

(** [throw] *)
Definition throw {A} : M W A := λ w, (Throw, w).

(** [process.exit(code)] *)
Definition exit {A} (code : Z) : M W A := λ w, (Exit code, w).

(** [try { m } catch (error) { handler }] *)
Definition try_catch {A} (m handler : M W A) : M W A := λ w,
  match m w with
  | (Throw, w') => handler w'
  | r => r
  end.

(** [await Promise.all(ms)] where every promise of [ms] has already
    been started: all of them run (in the order in which they were
    started), and the result is rejected when one of them is. *)
Fixpoint Promise_all (ms : list (M W unit)) : M W unit :=
  match ms with
  | [] => ret tt
  | m :: rest => λ w,
      let '(o, w1) := m w in
      let '(o', w2) := Promise_all rest w1 in
      (match o with Val _ => o' | _ => o end, w2)
  end.
End Monad.

Global Instance M_ret {W} : MRet (M W) := @ret W.
Global Instance M_bind {W} : MBind (M W) := λ A B k m, bind m k.

End Exec.
Import Exec.

Ltac unfold_M :=
  unfold mbind, mret, M_bind, M_ret, bind, ret, try_catch, throw, exit in *.

(** ** The transcode worker: [container/index.js] *)

Module Transcoder.

Record Resolution := {
  name : string;
  width : Z;
  height : Z;
  bitrate : string;
}.

Definition RESOLUTIONS : list Resolution := [
  {| name := "144p"; width := 256; height := 144; bitrate := "100k" |};
  {| name := "240p"; width := 426; height := 240; bitrate := "300k" |};
  {| name := "360p"; width := 640; height := 360; bitrate := "800k" |};
  {| name := "480p"; width := 854; height := 480; bitrate := "1400k" |};
  {| name := "720p"; width := 1280; height := 720; bitrate := "2800k" |};
  {| name := "1080p"; width := 1920; height := 1080; bitrate := "4500k" |};
  {| name := "1440p"; width := 2560; height := 1440; bitrate := "9000k" |};
  {| name := "2160p"; width := 3840; height := 2160; bitrate := "12000k" |};
  {| name := "4320p"; width := 7680; height := 4320; bitrate := "50000k" |}
].

(** The line feed of the string literals of the source. *)
Definition LF : string := String "010"%char EmptyString.

(** [key.split(".")[0].replace("videos/", "").replace("//", "/")].
    [split] never returns an empty array, so the [default] is never
    taken. *)
Definition getFormattedKey (key : string) : string :=
  JS.replace
    (JS.replace (default EmptyString (JS.first (JS.split key "."))) "videos/" "")
    "//" "/".

Definition getValidResolutions (width0 height0 : Z) : list Resolution :=
  filter (λ resolution, (width resolution ≤ width0)%Z ∧ (height resolution ≤ height0)%Z)
         RESOLUTIONS.

(** [Math.ceil(duration / 10)] *)
Definition estimatedSegments (duration : Q) : Z := Qceiling (duration / 10).

(** [estimatedSegments.toString().length] *)
Definition padding (duration : Q) : nat :=
  String.length (JS.Number_toString (estimatedSegments duration)).

(** The options handed to ffmpeg for one resolution. *)
Definition ffmpegOptions (outputDir : string) (resolution : Resolution)
    (padding : nat) : list string := [
  "-c:v libx264";
  "-c:a aac";
  "-b:v " +:+ bitrate resolution;
  "-b:a 128k";
  "-vf scale=" +:+ JS.Number_toString (width resolution) +:+ ":"
    +:+ JS.Number_toString (height resolution);
  "-f hls";
  "-hls_time 10";
  "-hls_list_size 0";
  "-hls_segment_filename " +:+ outputDir +:+ "/" +:+ name resolution +:+ "_%0"
    +:+ JS.Number_toString (Z.of_nat padding) +:+ "d.ts"
].

(** What ffmpeg makes of [%0Nd] in the segment file name, as C's [printf]
    does: the decimal digits of the index, with zeros to their left up to
    [N] characters.  (ffmpeg is not part of the repository.) *)
Fixpoint zeros (n : nat) : string :=
  match n with
  | O => EmptyString
  | S n' => String "0" (zeros n')
  end.

Definition zeroPadded (width0 : nat) (index : N) : string :=
  let digits := pretty index in
  zeros (width0 - String.length digits) +:+ digits.

(** The master playlist, as [main] assembles it from the probed width
    and height. *)
Definition playlistEntry (resolution : Resolution) : string :=
  let bandwidth := JS.mul (JS.parseInt (bitrate resolution)) (Some 1000%Z) in
  let resolutionString :=
    JS.Number_toString (width resolution) +:+ "x"
      +:+ JS.Number_toString (height resolution) in
  let playlistPath := name resolution +:+ "/" +:+ name resolution +:+ ".m3u8" in
  "#EXT-X-STREAM-INF:BANDWIDTH=" +:+ JS.NaN_toString bandwidth
    +:+ ",RESOLUTION=" +:+ resolutionString +:+ LF +:+ playlistPath.

Definition masterPlaylistContent (width0 height0 : Z) : string :=
  let masterPlaylist := "#EXTM3U" +:+ LF +:+ "#EXT-X-VERSION:3" +:+ LF in
  let playlistEntries :=
    playlistEntry <$>
      filter (λ resolution,
                (width resolution ≤ width0)%Z ∧ (height resolution ≤ height0)%Z)
             RESOLUTIONS in
  masterPlaylist +:+ JS.join playlistEntries LF.

(** What ffprobe reports about the source file. *)
Record Metadata := {
  duration : Q;
  md_width : Z;
  md_height : Z;
}.

(** The calls the worker makes to the outside, each with its result. *)
Inductive Event :=
| GetObject (bucket key : string) (ok : bool)
| WriteFile (path : string) (ok : bool)
| Ffprobe (path : string) (result : option Metadata)
| Mkdir (path : string) (ok : bool)
| Ffmpeg (input output : string) (options : list string) (ok : bool)
| Readdir (dir : string) (result : option (list string))
| PutObject (bucket key path : string) (ok : bool).

(** The body of a published object: a text the worker wrote itself, or
    the content of a local media file. *)
Inductive Body :=
| Text (content : string)
| Media (path : string).

(** The world of one worker process: the calls made so far, the text
    files the worker has written, and the objects of the production
    bucket. *)
Record World := {
  trace : list Event;
  written : gmap string string;
  published : gmap string Body;
}.

Definition emit (e : Event) (w : World) : World :=
  {| trace := trace w ++ [e]; written := written w; published := published w |}.

Definition store_text (path content : string) (w : World) : World :=
  {| trace := trace w; written := <[path := content]> (written w);
     published := published w |}.

Definition publish (key path : string) (w : World) : World :=
  {| trace := trace w; written := written w;
     published :=
       <[key := match written w !! path with
                | Some content => Text content
                | None => Media path
                end]> (published w) |}.

(** The environment variables of the process. *)
Record Env := {
  KEY : string;
  BUCKET : string;
  PROD_BUCKET : string;
}.

(** The libraries and services the worker calls.  Every answer may
    depend on all the calls made before. *)
Class Collaborators := {
  path_extname : string → string;
  path_resolve : string → string;
  s3_get : list Event → string → string → bool;
  fs_writeFile : list Event → string → bool;
  ffprobe : list Event → string → option Metadata;
  fs_mkdir : list Event → string → bool;
  ffmpeg_run : list Event → string → string → list string → bool;
  fs_readdir : list Event → string → option (list string);
  s3_put : list Event → string → string → string → bool;
}.

(** [path.join(dir, file)] for a directory name and a file name. *)
Definition path_join (dir file : string) : string := dir +:+ "/" +:+ file.

Section Worker.
Context `{!Collaborators} (env : Env).

Definition getFileExtension (fileName : string) : string :=
  path_extname fileName.

Definition uploadToS3 (filePath key : string) : M World unit := λ w,
  let ok := s3_put (trace w) (PROD_BUCKET env) key filePath in
  let w' := emit (PutObject (PROD_BUCKET env) key filePath ok) w in
  if ok then (Val tt, publish key filePath w') else (Throw, w').

Definition getObject (bucket key : string) : M World unit := λ w,
  let ok := s3_get (trace w) bucket key in
  (if ok then Val tt else Throw, emit (GetObject bucket key ok) w).

(** [fsPromises.writeFile(path, stream)] *)
Definition writeStream (path : string) : M World unit := λ w,
  let ok := fs_writeFile (trace w) path in
  (if ok then Val tt else Throw, emit (WriteFile path ok) w).

(** [fsPromises.writeFile(path, content)] *)
Definition writeFile (path content : string) : M World unit := λ w,
  let ok := fs_writeFile (trace w) path in
  let w' := emit (WriteFile path ok) w in
  if ok then (Val tt, store_text path content w') else (Throw, w').

Definition getVideoMetadata (filePath : string) : M World Metadata := λ w,
  let result := ffprobe (trace w) filePath in
  (match result with Some metadata => Val metadata | None => Throw end,
   emit (Ffprobe filePath result) w).

Definition mkdir (path : string) : M World unit := λ w,
  let ok := fs_mkdir (trace w) path in
  (if ok then Val tt else Throw, emit (Mkdir path ok) w).

Definition readdir (dir : string) : M World (list string) := λ w,
  let result := fs_readdir (trace w) dir in
  (match result with Some files => Val files | None => Throw end,
   emit (Readdir dir result) w).

Definition uploadHLSFiles (outputDir : string) (resolution : Resolution)
    : M World unit :=
  let formattedKey := getFormattedKey (KEY env) in
  files ← readdir outputDir;
  let hlsFiles :=
    List.filter
      (λ file, JS.startsWith file (name resolution)
               && (JS.endsWith file ".m3u8" || JS.endsWith file ".ts"))
      files in
  let uploadPromises :=
    (λ file, uploadToS3 (path_join outputDir file)
               ("hls/" +:+ formattedKey +:+ "/" +:+ name resolution
                  +:+ "/" +:+ file)) <$> hlsFiles in
  Promise_all uploadPromises.

(** The promise built in the loop of [main]: ffmpeg runs; its ["end"]
    handler uploads, its ["error"] handler rejects. *)
Definition transcode (originalVideoPath outputDir : string)
    (resolution : Resolution) (padding : nat) : M World unit := λ w,
  let output := outputDir +:+ "/" +:+ name resolution +:+ ".m3u8" in
  let options := ffmpegOptions outputDir resolution padding in
  let ok := ffmpeg_run (trace w) originalVideoPath output options in
  let w' := emit (Ffmpeg originalVideoPath output options ok) w in
  if ok then uploadHLSFiles outputDir resolution w' else (Throw, w').

(** [for (let resolution of validResolutions) { try {...} catch {...} }] *)
Fixpoint forResolutions (originalVideoPath outputDir : string) (padding : nat)
    (validResolutions : list Resolution) : M World unit :=
  match validResolutions with
  | [] => mret tt
  | resolution :: rest =>
      try_catch (transcode originalVideoPath outputDir resolution padding)
                (exit 1);;
      forResolutions originalVideoPath outputDir padding rest
  end.

(** The [try] block of [main]. *)
Definition main_body : M World unit :=
  let fileExtension := getFileExtension (KEY env) in
  let formattedKey := getFormattedKey (KEY env) in
  let originalFilePath := "original-video" +:+ fileExtension in
  getObject (BUCKET env) (KEY env);;
  writeStream originalFilePath;;
  let originalVideoPath := path_resolve originalFilePath in
  metadata ← getVideoMetadata originalVideoPath;
  let validResolutions :=
    getValidResolutions (md_width metadata) (md_height metadata) in
  let padding := padding (duration metadata) in
  let outputDir := "hls_output" in
  mkdir outputDir;;
  forResolutions originalVideoPath outputDir padding validResolutions;;
  let masterPlaylistContent :=
    masterPlaylistContent (md_width metadata) (md_height metadata) in
  let masterPlaylistPath := path_join outputDir "master.m3u8" in
  writeFile masterPlaylistPath masterPlaylistContent;;
  uploadToS3 masterPlaylistPath ("hls/" +:+ formattedKey +:+ "/master.m3u8").

Definition main : M World unit := try_catch main_body (exit 1).

(** The whole process, [main().catch(... process.exit(1))], from a
    fresh world: the exit status and the final world.  A process whose
    [main] returns ends with status 0. *)
Definition initial : World :=
  {| trace := []; written := ∅; published := ∅ |}.

Definition run : Z * World :=
  match main initial with
  | (Val _, w) => (0%Z, w)
  | (Throw, w) => (1%Z, w)
  | (Exit code, w) => (code, w)
  end.
End Worker.

End Transcoder.

(** ** The queue consumer: [consumer/src/index.ts] *)

Module Consumer.

(** The values [JSON.parse] returns, and [undefined], which reading a
    missing property gives. *)
#[warnings="-register-all"] Inductive JSValue :=
| JUndefined
| JNull
| JBool (b : bool)
| JNumber (q : Q)
| JString (s : string)
| JArray (elements : list JSValue)
| JObject (properties : gmap string JSValue).

(** [!!v] *)
Definition truthy (v : JSValue) : bool :=
  match v with
  | JUndefined | JNull => false
  | JBool b => b
  | JNumber q => negb (Qeq_bool q 0)
  | JString s => negb (String.eqb s "")
  | JArray _ | JObject _ => true
  end.

(** [v.k] (and the destructuring [const { k } = v]) for the property
    names the program reads, none of which is built in: a [TypeError]
    ([None]) on [undefined] and [null], the own property of an object,
    [undefined] on anything else. *)
Definition prop (v : JSValue) (k : string) : option JSValue :=
  match v with
  | JUndefined | JNull => None
  | JObject properties => Some (default JUndefined (properties !! k))
  | _ => Some JUndefined
  end.

(** [k in v], again for the names the program uses: a [TypeError]
    ([None]) unless [v] is an object or an array. *)
Definition has_property (k : string) (v : JSValue) : option bool :=
  match v with
  | JObject properties => Some (bool_decide (is_Some (properties !! k)))
  | JArray _ => Some false
  | _ => None
  end.

Fixpoint characters (s : string) : list JSValue :=
  match s with
  | EmptyString => []
  | String c s' => JString (String c EmptyString) :: characters s'
  end.

(** The values [for (const x of v)] goes through: the elements of an
    array, the characters of a string, a [TypeError] ([None]) otherwise. *)
Definition iterate (v : JSValue) : option (list JSValue) :=
  match v with
  | JArray elements => Some elements
  | JString s => Some (characters s)
  | _ => None
  end.

Definition ACCEPTABLE_FORMATS : list string :=
  [".MP4"; ".MOV"; ".AVI"; ".WMV"; ".FLV"; ".WEBM"].

(** The environment variables of the process; [None] is an unset one. *)
Record Env := {
  AWS_SECRET_ACCESS_KEY : option string;
  AWS_ACCESS_KEY_ID : option string;
  AWS_DEFAULT_REGION : option string;
  QUEUE_URL : option string;
  PROD_BUCKET : option string;
  TASK_DEFINITION_ARN : option string;
  CLUSTER_ARN : option string;
  SUBNETS : option string;
  SECURITY_GROUP : option string;
}.

Record Message := {
  Body : option string;
  MessageId : option string;
  ReceiptHandle : option string;
}.

Record RunTaskCommand := {
  taskDefinition : option string;
  cluster : option string;
  launchType : string;
  assignPublicIp : string;
  securityGroups : list string;
  subnets : list string;
  containerName : string;
  environment : list (string * JSValue);
}.

(** What a receive call gives: an error, no [Messages] field, or
    messages. *)
Inductive Received :=
| ReceiveFailed
| NoMessages
| Messages (messages : list Message).

(** The calls the consumer makes to the queue and to the compute
    service, each with its result. *)
Inductive Event :=
| Receive (result : Received)
| DeleteMessage (receiptHandle : option string) (ok : bool)
| RunTask (command : RunTaskCommand) (ok : bool).

(** The libraries and services the consumer calls.  [JSON_parse] gives
    [None] where [JSON.parse] throws. *)
Class Collaborators := {
  JSON_parse : string → option JSValue;
  path_extname : string → string;
  toUpperCase : string → string;
  sqs_receive : list Event → Received;
  sqs_delete : list Event → option string → bool;
  ecs_send : list Event → RunTaskCommand → bool;
}.

Definition env_value (v : option string) : JSValue :=
  from_option JString JUndefined v.

(** A [TypeError] where the pure step has none to give. *)
Definition lift {W A} (o : option A) : M W A :=
  match o with
  | Some a => mret a
  | None => throw
  end.

Section Dispatcher.
Context `{!Collaborators} (env : Env).

(** The call is made, and its failure is caught and logged. *)
Definition deleteMessageFromQueue (receiptHandle : option string)
    : M (list Event) unit := λ tr : list Event,
  (Val tt, (tr ++ [DeleteMessage receiptHandle (sqs_delete tr receiptHandle)])%list).

Definition ecsClient_send (command : RunTaskCommand) : M (list Event) unit :=
  λ tr : list Event,
  let ok := ecs_send tr command in
  (if ok then Val tt else Throw, (tr ++ [RunTask command ok])%list).

Definition runTaskCommand (key : string) (bucketName : JSValue)
    : RunTaskCommand := {|
  taskDefinition := TASK_DEFINITION_ARN env;
  cluster := CLUSTER_ARN env;
  launchType := "FARGATE";
  assignPublicIp := "ENABLED";
  securityGroups :=
    match SECURITY_GROUP env with
    | Some g => if String.eqb g "" then [] else [g]
    | None => []
    end;
  subnets :=
    match SUBNETS env with
    | Some s => if String.eqb s "" then [] else JS.split s ","
    | None => []
    end;
  containerName := "video-transcoder";
  environment := [
    ("KEY", JString key);
    ("BUCKET", bucketName);
    ("PROD_BUCKET", env_value (PROD_BUCKET env));
    ("AWS_DEFAULT_REGION", env_value (AWS_DEFAULT_REGION env));
    ("AWS_ACCESS_KEY_ID", env_value (AWS_ACCESS_KEY_ID env));
    ("AWS_SECRET_ACCESS_KEY", env_value (AWS_SECRET_ACCESS_KEY env))
  ];
|}.

(** The body of the loop over the records; [continue] is an early
    [mret tt]. *)
Definition forRecord (message : Message) (record : JSValue)
    : M (list Event) unit :=
  s3 ← lift (prop record "s3");
  bucket ← lift (prop s3 "bucket");
  object ← lift (prop s3 "object");
  key ← lift (prop object "key");
  let bucketName :=
    match bucket with
    | JUndefined | JNull => JUndefined
    | _ => default JUndefined (prop bucket "name")
    end in
  if negb (truthy bucketName) then mret tt
  else if negb (truthy key) then mret tt
  else
    match key with
    | JString key =>
        let fileExtension := toUpperCase (path_extname key) in
        if negb (bool_decide (fileExtension ∈ ACCEPTABLE_FORMATS)) then mret tt
        else
          try_catch
            (ecsClient_send (runTaskCommand key bucketName);;
             deleteMessageFromQueue (ReceiptHandle message))
            (mret tt)
    | _ => throw
    end.

Fixpoint forRecords (message : Message) (records : list JSValue)
    : M (list Event) unit :=
  match records with
  | [] => mret tt
  | record :: rest => forRecord message record;; forRecords message rest
  end.

(** ["Service" in event && "Event" in event && event.Event === "s3:TestEvent"],
    with the [TypeError] ([None]) of [in]. *)
Definition isTestEvent (event : JSValue) : option bool :=
  inService ← has_property "Service" event;
  if negb inService then Some false
  else
    inEvent ← has_property "Event" event;
    if negb inEvent then Some false
    else
      Some match prop event "Event" with
           | Some (JString s) => String.eqb s "s3:TestEvent"
           | _ => false
           end.

Definition processMessage (message : Message) : M (list Event) unit :=
  match Body message with
  | None => mret tt
  | Some body =>
      if String.eqb body "" then mret tt
      else
        match JSON_parse body with
        | None => mret tt
        | Some event =>
            test ← lift (isTestEvent event);
            if (test : bool) then deleteMessageFromQueue (ReceiptHandle message)
            else
              Records ← lift (prop event "Records");
              records ← lift (iterate Records);
              forRecords message records
        end
  end.

Fixpoint forMessages (messages : list Message) : M (list Event) unit :=
  match messages with
  | [] => mret tt
  | message :: rest => processMessage message;; forMessages rest
  end.

(** One turn of the [while (true)] loop of [main]. *)
Definition iteration : M (list Event) unit :=
  try_catch
    (λ tr : list Event,
       let result := sqs_receive tr in
       let tr' := (tr ++ [Receive result])%list in
       match result with
       | ReceiveFailed => (Throw, tr')
       | NoMessages => (Val tt, tr')
       | Messages messages => forMessages messages tr'
       end)
    (mret tt).

(** The first [n] turns of the loop. *)
Fixpoint main (n : nat) : M (list Event) unit :=
  match n with
  | O => mret tt
  | S n' => iteration;; main n'
  end.
End Dispatcher.

Definition is_delete (e : Event) : bool :=
  match e with DeleteMessage _ _ => true | _ => false end.
Definition is_launch (e : Event) : bool :=
  match e with RunTask _ _ => true | _ => false end.
Definition is_receive (e : Event) : bool :=
  match e with Receive _ => true | _ => false end.

(** The number of delete, launch and receive calls in a trace. *)
Definition deletes (tr : list Event) : nat := length (List.filter is_delete tr).
Definition launches (tr : list Event) : nat := length (List.filter is_launch tr).
Definition receives (tr : list Event) : nat := length (List.filter is_receive tr).

(** The number of launch calls that succeeded. *)
Definition is_launched (e : Event) : bool :=
  match e with RunTask _ ok => ok | _ => false end.
Definition launched (tr : list Event) : nat := length (List.filter is_launched tr).

End Consumer.

(** ** Vocabulary of the specification *)

Module Spec.

(** [pat] occurs in [s]. *)
Definition occurs (pat s : string) : Prop := ∃ a b, s = a +:+ pat +:+ b.

(** [t] is [s] with its first occurrence of [pat], if there is one,
    replaced by [rep]. *)
Definition first_replaced (pat rep s t : string) : Prop :=
  (¬ occurs pat s ∧ t = s)
  ∨ ∃ a b, s = a +:+ pat +:+ b
           ∧ t = a +:+ rep +:+ b
           ∧ ∀ a' b', s = a' +:+ pat +:+ b' → (String.length a ≤ String.length a')%nat.

(** [stem] is [key] without its extension: what comes before the first
    dot of [key]. *)
Definition stem_of (key stem : string) : Prop :=
  ¬ occurs "." stem ∧ (key = stem ∨ ∃ rest, key = stem +:+ "." +:+ rest).

(** [n] has [k] decimal digits. *)
Definition decimal_digits (n : Z) (k : nat) : Prop :=
  (n = 0%Z ∧ k = 1%nat)
  ∨ (1 ≤ k)%nat ∧ (10 ^ (Z.of_nat k - 1) ≤ n < 10 ^ Z.of_nat k)%Z.

(** The stream-info entry of a variant: its bandwidth in bits per second,
    its resolution, and on the next line the path of its playlist. *)
Definition stream_inf (name : string) (width height bandwidthBps : Z) : string :=
  "#EXT-X-STREAM-INF:BANDWIDTH=" +:+ pretty bandwidthBps
    +:+ ",RESOLUTION=" +:+ pretty width +:+ "x" +:+ pretty height
    +:+ Transcoder.LF +:+ name +:+ "/" +:+ name +:+ ".m3u8".

(** [entry] is the entry of the rendition [r], whose video bitrate is some
    number of kilobits per second. *)
Definition entry_of (r : Transcoder.Resolution) (entry : string) : Prop :=
  ∃ videoBitrateKbps : Z,
    Transcoder.bitrate r = pretty videoBitrateKbps +:+ "k"
    ∧ entry = stream_inf (Transcoder.name r) (Transcoder.width r)
                (Transcoder.height r) (videoBitrateKbps * 1000).

(** Where the worker writes the playlist of a rendition, and the key under
    which one of its files is published. *)
Definition output_of (r : Transcoder.Resolution) : string :=
  "hls_output/" +:+ Transcoder.name r +:+ ".m3u8".

Definition object_key (env : Transcoder.Env) (r : Transcoder.Resolution)
    (file : string) : string :=
  "hls/" +:+ Transcoder.getFormattedKey (Transcoder.KEY env) +:+ "/"
    +:+ Transcoder.name r +:+ "/" +:+ file.

Definition manifest_key (env : Transcoder.Env) : string :=
  "hls/" +:+ Transcoder.getFormattedKey (Transcoder.KEY env) +:+ "/master.m3u8".

(** The calls made for the rendition [r]. *)
Inductive of_rendition (env : Transcoder.Env) (r : Transcoder.Resolution)
    : Transcoder.Event → Prop :=
| of_ffmpeg input options ok :
    of_rendition env r (Transcoder.Ffmpeg input (output_of r) options ok)
| of_readdir dir result :
    of_rendition env r (Transcoder.Readdir dir result)
| of_put file path ok :
    of_rendition env r
      (Transcoder.PutObject (Transcoder.PROD_BUCKET env) (object_key env r file) path ok).

(** The calls made for one of the renditions [rs]. *)
Definition of_renditions (env : Transcoder.Env) (rs : list Transcoder.Resolution)
    (e : Transcoder.Event) : Prop :=
  ∃ r, r ∈ rs ∧ of_rendition env r e.

(** A call that did not fail. *)
Definition succeeded (e : Transcoder.Event) : Prop :=
  match e with
  | Transcoder.GetObject _ _ ok | Transcoder.WriteFile _ ok
  | Transcoder.Mkdir _ ok | Transcoder.Ffmpeg _ _ _ ok
  | Transcoder.PutObject _ _ _ ok => ok = true
  | Transcoder.Ffprobe _ result => is_Some result
  | Transcoder.Readdir _ result => is_Some result
  end.

(** The worker started to encode [r]; the encoding of [r] failed; an
    upload of a file of [r] failed. *)
Definition attempted (r : Transcoder.Resolution) (tr : list Transcoder.Event) : Prop :=
  ∃ input options ok, Transcoder.Ffmpeg input (output_of r) options ok ∈ tr.

Definition encode_failed (r : Transcoder.Resolution) (tr : list Transcoder.Event) : Prop :=
  ∃ input options, Transcoder.Ffmpeg input (output_of r) options false ∈ tr.

Definition upload_failed (env : Transcoder.Env) (r : Transcoder.Resolution)
    (tr : list Transcoder.Event) : Prop :=
  ∃ file path,
    Transcoder.PutObject (Transcoder.PROD_BUCKET env) (object_key env r file) path false ∈ tr.

(** The master manifest was written to disk; an upload of it was started. *)
Definition manifest_written (tr : list Transcoder.Event) : Prop :=
  ∃ ok, Transcoder.WriteFile "hls_output/master.m3u8" ok ∈ tr.

Definition manifest_uploaded (env : Transcoder.Env) (tr : list Transcoder.Event) : Prop :=
  ∃ bucket path ok, Transcoder.PutObject bucket (manifest_key env) path ok ∈ tr.

(** Every object whose upload succeeded is in the bucket. *)
Definition uploads_remain (w : Transcoder.World) : Prop :=
  ∀ bucket key path,
    Transcoder.PutObject bucket key path true ∈ Transcoder.trace w →
    is_Some (Transcoder.published w !! key).

(** Resolutions in ascending order: both dimensions grow. *)
Definition ascending (a b : Transcoder.Resolution) : Prop :=
  (Transcoder.width a < Transcoder.width b)%Z
  ∧ (Transcoder.height a < Transcoder.height b)%Z.

(** A test event: a payload with a [Service] field and an [Event] field
    that is ["s3:TestEvent"]. *)
Definition TestEvent (event : Consumer.JSValue) : Prop :=
  ∃ fields, event = Consumer.JObject fields
            ∧ is_Some (fields !! "Service")
            ∧ fields !! "Event" = Some (Consumer.JString "s3:TestEvent").

(** An accepted record: it names a bucket, and a key whose extension, in
    upper case, is one of the accepted formats. *)
Definition accepted `{!Consumer.Collaborators} (record : Consumer.JSValue)
    (key : string) (bucketName : Consumer.JSValue) : Prop :=
  ∃ fields s3 bucket object,
    record = Consumer.JObject fields
    ∧ fields !! "s3" = Some (Consumer.JObject s3)
    ∧ s3 !! "bucket" = Some (Consumer.JObject bucket)
    ∧ bucket !! "name" = Some bucketName
    ∧ Consumer.truthy bucketName = true
    ∧ s3 !! "object" = Some (Consumer.JObject object)
    ∧ object !! "key" = Some (Consumer.JString key)
    ∧ key ≠ EmptyString
    ∧ Consumer.toUpperCase (Consumer.path_extname key) ∈ Consumer.ACCEPTABLE_FORMATS.

(** A skipped record: it has a bucket and an object, but the name of the
    bucket is missing or empty, or the key is missing or empty, or the
    extension of the key is not one of the accepted formats. *)
Definition skipped `{!Consumer.Collaborators} (record : Consumer.JSValue) : Prop :=
  ∃ fields s3 bucket object,
    record = Consumer.JObject fields
    ∧ fields !! "s3" = Some (Consumer.JObject s3)
    ∧ s3 !! "bucket" = Some (Consumer.JObject bucket)
    ∧ s3 !! "object" = Some (Consumer.JObject object)
    ∧ (Consumer.truthy (default Consumer.JUndefined (bucket !! "name")) = false
       ∨ Consumer.truthy (default Consumer.JUndefined (object !! "key")) = false
       ∨ ∃ key, object !! "key" = Some (Consumer.JString key)
                ∧ Consumer.toUpperCase (Consumer.path_extname key)
                  ∉ Consumer.ACCEPTABLE_FORMATS).

(** The calls made for a list of records, [n] of which are accepted and
    the others skipped: for each accepted record in turn one launch,
    followed at once by one delete of the message when the launch
    succeeded, and by nothing when it failed; for a skipped record
    nothing. *)
Inductive dispatched `{!Consumer.Collaborators} (env : Consumer.Env)
    (receiptHandle : option string)
    : list Consumer.JSValue → nat → list Consumer.Event → Prop :=
| dispatched_nil : dispatched env receiptHandle [] 0 []
| dispatched_launched record key bucketName ok records n evs :
    accepted record key bucketName →
    dispatched env receiptHandle records n evs →
    dispatched env receiptHandle (record :: records) (S n)
      (Consumer.RunTask (Consumer.runTaskCommand env key bucketName) true
         :: Consumer.DeleteMessage receiptHandle ok :: evs)
| dispatched_failed record key bucketName records n evs :
    accepted record key bucketName →
    dispatched env receiptHandle records n evs →
    dispatched env receiptHandle (record :: records) (S n)
      (Consumer.RunTask (Consumer.runTaskCommand env key bucketName) false :: evs)
| dispatched_skipped record records n evs :
    skipped record →
    dispatched env receiptHandle records n evs →
    dispatched env receiptHandle (record :: records) n evs.

End Spec.

(** ** Scenarios *)

(** Concrete collaborators, on which the programs can be run. *)
Module Scenario.
Import Transcoder.

(** A file extension: what starts at the last dot. *)
Fixpoint extension (s : string) : string :=
  match s with
  | EmptyString => EmptyString
  | String c s' =>
      match extension s' with
      | EmptyString => if Ascii.eqb c "." then s else EmptyString
      | e => e
      end
  end.

(** The files in the output directory: for every playlist that ffmpeg has
    written, the playlist and two segments. *)
Definition encoded (tr : list Event) : list string :=
  flat_map
    (λ e, match e with
          | Ffmpeg _ output _ true =>
              let playlist := JS.drop 11 output in
              let stem := default EmptyString (JS.first (JS.split playlist ".")) in
              [playlist; stem +:+ "_00.ts"; stem +:+ "_01.ts"]
          | _ => []
          end)
    tr.

(** Everything works, except ffmpeg on the outputs [broken]; the source
    probes as [metadata]. *)
Definition collaborators (metadata : Metadata) (broken : list string) : Collaborators := {|
  path_extname := extension;
  path_resolve := λ p, "/app/" +:+ p;
  s3_get := λ _ _ _, true;
  fs_writeFile := λ _ _, true;
  ffprobe := λ _ _, Some metadata;
  fs_mkdir := λ _ _, true;
  ffmpeg_run := λ _ _ output _, negb (bool_decide (output ∈ broken));
  fs_readdir := λ tr _, Some (encoded tr);
  s3_put := λ _ _ _ _, true;
|}.

Definition env : Env :=
  {| KEY := "videos/clips/demo.mp4"; BUCKET := "uploads"; PROD_BUCKET := "production" |}.

Definition r144p : Resolution :=
  {| name := "144p"; width := 256; height := 144; bitrate := "100k" |}.
Definition r240p : Resolution :=
  {| name := "240p"; width := 426; height := 240; bitrate := "300k" |}.
Definition r360p : Resolution :=
  {| name := "360p"; width := 640; height := 360; bitrate := "800k" |}.

(** A source of 640 by 360 pixels and 95 seconds, and one too small for
    the catalog. *)
Definition sd : Metadata := {| duration := 95; md_width := 640; md_height := 360 |}.
Definition tiny : Metadata := {| duration := 95; md_width := 200; md_height := 100 |}.

End Scenario.

(** Concrete collaborators for the consumer. *)
Module QueueScenario.
Import Consumer.

(** A parser for the JSON documents of the scenarios: objects, arrays,
    strings without escape sequences, integers, [true], [false] and
    [null].  [fuel] bounds the number of nested calls. *)
Fixpoint skip_ws (s : string) : string :=
  match s with
  | String c s' => if JS.is_space c then skip_ws s' else s
  | EmptyString => s
  end.

Fixpoint parse_string (s : string) : option (string * string) :=
  match s with
  | EmptyString => None
  | String c s' =>
      if Ascii.eqb c (Ascii.ascii_of_nat 34) then Some (EmptyString, s')
      else if Ascii.eqb c (Ascii.ascii_of_nat 92) then None
      else '(t, rest) ← parse_string s'; Some (String c t, rest)
  end.

Fixpoint parse_number (acc : Z) (s : string) : Z * string :=
  match s with
  | String c s' =>
      let n := Z.of_nat (Ascii.nat_of_ascii c) in
      if (48 <=? n)%Z && (n <=? 57)%Z then parse_number (acc * 10 + (n - 48))%Z s'
      else (acc, s)
  | EmptyString => (acc, s)
  end.

Definition is_digit (c : Ascii.ascii) : bool :=
  let n := Z.of_nat (Ascii.nat_of_ascii c) in (48 <=? n)%Z && (n <=? 57)%Z.

Fixpoint parse_value (fuel : nat) (s : string) : option (JSValue * string) :=
  match fuel with
  | O => None
  | S fuel' =>
      let s := skip_ws s in
      if JS.startsWith s "null" then Some (JNull, JS.drop 4 s)
      else if JS.startsWith s "true" then Some (JBool true, JS.drop 4 s)
      else if JS.startsWith s "false" then Some (JBool false, JS.drop 5 s)
      else
        match s with
        | String c s' =>
            if Ascii.eqb c (Ascii.ascii_of_nat 34) then
              '(t, rest) ← parse_string s'; Some (JString t, rest)
            else if Ascii.eqb c "[" then
              match skip_ws s' with
              | String "]" rest => Some (JArray [], rest)
              | _ => '(l, rest) ← parse_elements fuel' s'; Some (JArray l, rest)
              end
            else if Ascii.eqb c "{" then
              match skip_ws s' with
              | String "}" rest => Some (JObject ∅, rest)
              | _ => '(m, rest) ← parse_members fuel' ∅ s'; Some (JObject m, rest)
              end
            else if Ascii.eqb c "-" then
              match s' with
              | String d _ =>
                  if is_digit d then
                    let '(n, rest) := parse_number 0 s' in
                    Some (JNumber (inject_Z (- n)), rest)
                  else None
              | EmptyString => None
              end
            else if is_digit c then
              let '(n, rest) := parse_number 0 s in Some (JNumber (inject_Z n), rest)
            else None
        | EmptyString => None
        end
  end
with parse_elements (fuel : nat) (s : string) : option (list JSValue * string) :=
  match fuel with
  | O => None
  | S fuel' =>
      '(v, rest) ← parse_value fuel' s;
      match skip_ws rest with
      | String "," rest' => '(l, rest'') ← parse_elements fuel' rest'; Some (v :: l, rest'')
      | String "]" rest' => Some ([v], rest')
      | _ => None
      end
  end
with parse_members (fuel : nat) (acc : gmap string JSValue) (s : string)
    : option (gmap string JSValue * string) :=
  match fuel with
  | O => None
  | S fuel' =>
      match skip_ws s with
      | String c s' =>
          if Ascii.eqb c (Ascii.ascii_of_nat 34) then
            '(k, rest) ← parse_string s';
            match skip_ws rest with
            | String ":" rest' =>
                '(v, rest'') ← parse_value fuel' rest';
                match skip_ws rest'' with
                | String "," rest3 => parse_members fuel' (<[k := v]> acc) rest3
                | String "}" rest3 => Some (<[k := v]> acc, rest3)
                | _ => None
                end
            | _ => None
            end
          else None
      | EmptyString => None
      end
  end.

Definition parse (s : string) : option JSValue :=
  '(v, rest) ← parse_value (S (String.length s)) s;
  match skip_ws rest with
  | EmptyString => Some v
  | _ => None
  end.

(** Upper case, for ASCII letters. *)
Fixpoint upper (s : string) : string :=
  match s with
  | EmptyString => EmptyString
  | String c s' =>
      let n := Ascii.nat_of_ascii c in
      String (if (97 <=? n)%nat && (n <=? 122)%nat then Ascii.ascii_of_nat (n - 32) else c)
             (upper s')
  end.

(** The text [s] between double quotes. *)
Definition quoted (s : string) : string :=
  String (Ascii.ascii_of_nat 34) s +:+ String (Ascii.ascii_of_nat 34) EmptyString.

(** The notification S3 sends when a queue is connected, and an upload
    notification with one record per key. *)
Definition test_body : string :=
  "{" +:+ quoted "Service" +:+ ":" +:+ quoted "Amazon S3" +:+ ","
    +:+ quoted "Event" +:+ ":" +:+ quoted "s3:TestEvent" +:+ "}".

Definition record_text (key : string) : string :=
  "{" +:+ quoted "s3" +:+ ":{" +:+ quoted "bucket" +:+ ":{" +:+ quoted "name" +:+ ":"
    +:+ quoted "uploads" +:+ "}," +:+ quoted "object" +:+ ":{" +:+ quoted "key" +:+ ":"
    +:+ quoted key +:+ "}}}".

Definition upload_body (keys : list string) : string :=
  "{" +:+ quoted "Records" +:+ ":[" +:+ JS.join (record_text <$> keys) "," +:+ "]}".

Definition message (body : option string) : Message :=
  {| Body := body; MessageId := Some "id-1"; ReceiptHandle := Some "handle-1" |}.

(** The queue delivers the messages of [script], one per receive call;
    launching a task fails for the keys in [broken]; deleting works. *)
Definition collaborators (script : list Message) (broken : list string) : Collaborators := {|
  JSON_parse := parse;
  path_extname := Scenario.extension;
  toUpperCase := upper;
  sqs_receive := λ tr,
    match script !! receives tr with
    | Some m => Messages [m]
    | None => NoMessages
    end;
  sqs_delete := λ _ _, true;
  ecs_send := λ _ command,
    match environment command with
    | (_, JString key) :: _ => negb (bool_decide (key ∈ broken))
    | _ => false
    end;
|}.

Definition env : Env := {|
  AWS_SECRET_ACCESS_KEY := Some "secret";
  AWS_ACCESS_KEY_ID := Some "id";
  AWS_DEFAULT_REGION := Some "eu-west-1";
  QUEUE_URL := Some "https://sqs.example/queue";
  PROD_BUCKET := Some "production";
  TASK_DEFINITION_ARN := Some "arn:task";
  CLUSTER_ARN := Some "arn:cluster";
  SUBNETS := Some "subnet-a,subnet-b";
  SECURITY_GROUP := Some "sg-1";
|}.

(** The fields of a parsed object, and the records of a parsed upload
    notification. *)
Definition fields_of (body : string) : gmap string JSValue :=
  match parse body with
  | Some (JObject fields) => fields
  | _ => ∅
  end.

Definition records_of (body : string) : list JSValue :=
  match fields_of body !! "Records" with
  | Some (JArray records) => records
  | _ => []
  end.

Definition uploads : string :=
  upload_body ["videos/a.mp4"; "videos/bad.mov"; "notes.txt"; "videos/c.webm"].

End QueueScenario.

(** ** Further vocabulary: what a run may do *)

Module Behaviour.

(** The calls the worker is entitled to make to the object store: a read
    of the source object, and writes to the production bucket under the
    prefix of the job. *)
Definition allowed (env : Transcoder.Env) (e : Transcoder.Event) : Prop :=
  match e with
  | Transcoder.GetObject bucket key _ =>
      bucket = Transcoder.BUCKET env ∧ key = Transcoder.KEY env
  | Transcoder.PutObject bucket key _ _ =>
      bucket = Transcoder.PROD_BUCKET env
      ∧ ∃ rest, key = "hls/" +:+ Transcoder.getFormattedKey (Transcoder.KEY env)
                        +:+ "/" +:+ rest
  | _ => True
  end.

(** The bucket holds an object under a key exactly when an upload to that
    key has succeeded. *)
Definition bucket_exact (w : Transcoder.World) : Prop :=
  ∀ key, is_Some (Transcoder.published w !! key)
         ↔ ∃ bucket path, Transcoder.PutObject bucket key path true ∈ Transcoder.trace w.

(** A step before the loop failed: the download, the write of the
    download, the probe, or the creation of the output directory. *)
Definition setup_failed (tr : list Transcoder.Event) : Prop :=
  (∃ bucket key, Transcoder.GetObject bucket key false ∈ tr)
  ∨ (∃ extension, Transcoder.WriteFile ("original-video" +:+ extension) false ∈ tr)
  ∨ (∃ path, Transcoder.Ffprobe path None ∈ tr)
  ∨ (∃ path, Transcoder.Mkdir path false ∈ tr).

(** The calls of ffmpeg, in order: input, output and options. *)
Definition ffmpeg_calls (tr : list Transcoder.Event)
    : list (string * string * list string) :=
  omap (λ e, match e with
             | Transcoder.Ffmpeg input output options _ => Some (input, output, options)
             | _ => None
             end) tr.

(** The call of ffmpeg that [main] makes for the rendition [r]. *)
Definition ffmpeg_call (input : string) (pad : nat) (r : Transcoder.Resolution)
    : string * string * list string :=
  (input, Spec.output_of r, Transcoder.ffmpegOptions "hls_output" r pad).

(** The master manifest was uploaded. *)
Definition manifest_put (env : Transcoder.Env) (tr : list Transcoder.Event) : Prop :=
  ∃ bucket path, Transcoder.PutObject bucket (Spec.manifest_key env) path true ∈ tr.

(** A file of the rendition [r]: its name starts with the name of [r] and
    ends in [.m3u8] or [.ts]. *)
Definition hls_file (r : Transcoder.Resolution) (file : string) : Prop :=
  (∃ rest, file = Transcoder.name r +:+ rest)
  ∧ ((∃ stem, file = stem +:+ ".m3u8") ∨ (∃ stem, file = stem +:+ ".ts")).

(** The upload of [file] for the rendition [r]. *)
Definition upload_of (env : Transcoder.Env) (r : Transcoder.Resolution)
    (file : string) (e : Transcoder.Event) : Prop :=
  ∃ ok, e = Transcoder.PutObject (Transcoder.PROD_BUCKET env) (Spec.object_key env r file)
              (Transcoder.path_join "hls_output" file) ok.

End Behaviour.

(** More collaborators for the worker. *)
Module Failures.
Import Transcoder.

(** The source cannot be probed. *)
Definition unreadable : Collaborators := {|
  path_extname := Scenario.extension;
  path_resolve := λ p, "/app/" +:+ p;
  s3_get := λ _ _ _, true;
  fs_writeFile := λ _ _, true;
  ffprobe := λ _ _, None;
  fs_mkdir := λ _ _, true;
  ffmpeg_run := λ _ _ _ _, true;
  fs_readdir := λ tr _, Some (Scenario.encoded tr);
  s3_put := λ _ _ _ _, true;
|}.

(** Everything works but the upload of the master manifest. *)
Definition manifest_refused : Collaborators := {|
  path_extname := Scenario.extension;
  path_resolve := λ p, "/app/" +:+ p;
  s3_get := λ _ _ _, true;
  fs_writeFile := λ _ _, true;
  ffprobe := λ _ _, Some Scenario.sd;
  fs_mkdir := λ _ _, true;
  ffmpeg_run := λ _ _ _ _, true;
  fs_readdir := λ tr _, Some (Scenario.encoded tr);
  s3_put := λ _ _ key _, negb (JS.endsWith key "/master.m3u8");
|}.

End Failures.

(** * The earlier consumer

    The second program of [src/consumer/src/index.ts]: the loop with the
    receive call outside the [try], no check of the records, and calls
    whose failures are not caught where they are made. *)
Module Legacy.
Import Consumer.

Record Env := {
  ACCESS_KEY_ID : option string;
  SECRET_ACCESS_KEY : option string;
  REGION : option string;
  QUEUE_URL : option string;
  PROD_BUCKET : option string;
  TASK_DEFINITION_ARN : option string;
  CLUSTER_ARN : option string;
  SUBNETS : option string;
  SECURITY_GROUP : option string;
}.

Section Dispatcher.
Context `{!Collaborators} (env : Env).

(** [client.send(new DeleteMessageCommand(...))]: a failure is thrown. *)
Definition client_send_delete (receiptHandle : option string) : M (list Event) unit :=
  λ tr : list Event,
  let ok := sqs_delete tr receiptHandle in
  (if ok then Val tt else Throw, (tr ++ [DeleteMessage receiptHandle ok])%list).

Definition runTaskCommand (key bucketName : JSValue) : RunTaskCommand := {|
  taskDefinition := TASK_DEFINITION_ARN env;
  cluster := CLUSTER_ARN env;
  launchType := "FARGATE";
  assignPublicIp := "ENABLED";
  securityGroups :=
    match SECURITY_GROUP env with
    | Some g => if String.eqb g "" then [] else [g]
    | None => []
    end;
  subnets :=
    match SUBNETS env with
    | Some s => if String.eqb s "" then [] else JS.split s ","
    | None => []
    end;
  containerName := "video-transcoder";
  environment := [
    ("KEY", key);
    ("REGION", env_value (REGION env));
    ("BUCKET", bucketName);
    ("PROD_BUCKET", env_value (PROD_BUCKET env));
    ("ACCESS_KEY_ID", env_value (ACCESS_KEY_ID env));
    ("SECRET_ACCESS_KEY", env_value (SECRET_ACCESS_KEY env))
  ];
|}.

(** The body of the loop over the records. *)
Definition forRecord (message : Message) (record : JSValue) : M (list Event) unit :=
  s3 ← lift (prop record "s3");
  bucket ← lift (prop s3 "bucket");
  object ← lift (prop s3 "object");
  key ← lift (prop object "key");
  bucketName ← lift (prop bucket "name");
  ecsClient_send (runTaskCommand key bucketName);;
  client_send_delete (ReceiptHandle message).

Fixpoint forRecords (message : Message) (records : list JSValue)
    : M (list Event) unit :=
  match records with
  | [] => mret tt
  | record :: rest => forRecord message record;; forRecords message rest
  end.

(** The body of the loop over the messages; [continue] is an early
    return. *)
Definition forMessage (message : Message) : M (list Event) unit :=
  match Body message with
  | None => mret tt
  | Some body =>
      if String.eqb body "" then mret tt
      else
        event ← lift (JSON_parse body);
        test ← lift (isTestEvent event);
        if (test : bool) then client_send_delete (ReceiptHandle message)
        else
          Records ← lift (prop event "Records");
          records ← lift (iterate Records);
          forRecords message records
  end.

Fixpoint forMessages (messages : list Message) : M (list Event) unit :=
  match messages with
  | [] => mret tt
  | message :: rest => forMessage message;; forMessages rest
  end.

(** One turn of the [while (true)] loop: the receive call is outside the
    [try]. *)
Definition iteration : M (list Event) unit := λ tr : list Event,
  let result := sqs_receive tr in
  let tr' := (tr ++ [Receive result])%list in
  match result with
  | ReceiveFailed => (Throw, tr')
  | NoMessages => (Val tt, tr')
  | Messages messages => try_catch (forMessages messages) (mret tt) tr'
  end.

(** The first [n] turns of the loop; an exception that leaves a turn
    leaves the loop. *)
Fixpoint main (n : nat) : M (list Event) unit :=
  match n with
  | O => mret tt
  | S n' => iteration;; main n'
  end.
End Dispatcher.

End Legacy.

(** * The player

    [src/player/components/video-player.tsx]: the text of a position in
    the video.  Times are taken as exact rationals. *)
Module Player.



End Player.

(** What the text of a time is made of. *)
Module Display.


End Display.

(** What the dispatcher of the consumer does and does not do. *)
Module Dispatching.
Import Consumer.

(** What a record must give for a worker to be launched: a key that is
    not empty and whose extension, in upper case, is an accepted format,
    and a bucket name that is not empty. *)
Definition launchable `{!Collaborators} (key : string) (bucketName : JSValue) : Prop :=
  key ≠ EmptyString
  ∧ truthy bucketName = true
  ∧ toUpperCase (path_extname key) ∈ ACCEPTABLE_FORMATS.

(** Launches of launchable keys, each successful one followed at once by
    a delete of the message of handle [receiptHandle], and nothing else. *)
Inductive launch_delete `{!Collaborators} (env : Env) (receiptHandle : option string)
    : list Event → Prop :=
| launch_delete_nil : launch_delete env receiptHandle []
| launch_delete_launched key bucketName ok evs :
    launchable key bucketName →
    launch_delete env receiptHandle evs →
    launch_delete env receiptHandle
      (RunTask (runTaskCommand env key bucketName) true
         :: DeleteMessage receiptHandle ok :: evs)
| launch_delete_failed key bucketName evs :
    launchable key bucketName →
    launch_delete env receiptHandle evs →
    launch_delete env receiptHandle
      (RunTask (runTaskCommand env key bucketName) false :: evs).

(** The message of handle [receiptHandle] was given by a receive call
    of [tr]. *)
Definition delivered (tr : list Event) (receiptHandle : option string) : Prop :=
  ∃ messages message,
    Receive (Messages messages) ∈ tr
    ∧ message ∈ messages
    ∧ ReceiptHandle message = receiptHandle.

(** A launch is of a launchable key, and a delete is of a message
    delivered before. *)
Definition justified `{!Collaborators} (env : Env) (before : list Event) (e : Event)
    : Prop :=
  match e with
  | RunTask command _ =>
      ∃ key bucketName,
        launchable key bucketName ∧ command = runTaskCommand env key bucketName
  | DeleteMessage receiptHandle _ => delivered before receiptHandle
  | Receive _ => True
  end.

(** Each of the calls [evs], made after [before], is justified by the
    calls before it. *)
Fixpoint all_justified `{!Collaborators} (env : Env) (before evs : list Event) : Prop :=
  match evs with
  | [] => True
  | e :: evs' => justified env before e ∧ all_justified env (before ++ [e]) evs'
  end.

Definition missing (v : JSValue) : Prop := v = JUndefined ∨ v = JNull.

(** A record without the [s3] part or without its [object] part. *)
Definition malformed (record : JSValue) : Prop :=
  missing record
  ∨ ∃ s3, prop record "s3" = Some s3
          ∧ (missing s3 ∨ ∃ object, prop s3 "object" = Some object ∧ missing object).

(** A record with the parts the earlier consumer reads: the key and the
    bucket name are what it finds there, be it nothing. *)
Definition notified (record key bucketName : JSValue) : Prop :=
  ∃ fields s3 bucket object,
    record = JObject fields
    ∧ fields !! "s3" = Some (JObject s3)
    ∧ s3 !! "bucket" = Some (JObject bucket)
    ∧ s3 !! "object" = Some (JObject object)
    ∧ key = default JUndefined (object !! "key")
    ∧ bucketName = default JUndefined (bucket !! "name").

(** A JSON value that is neither a test event nor a notification with a
    list of records: a primitive value, an array, or an object that is no
    test event and whose [Records] cannot be iterated. *)
Definition not_an_event (event : JSValue) : Prop :=
  match event with
  | JObject fields =>
      ¬ Spec.TestEvent event
      ∧ iterate (default JUndefined (fields !! "Records")) = None
  | _ => True
  end.

End Dispatching.

(** More messages for the consumer. *)
Module QueueFailures.
Import Consumer QueueScenario.

(** A notification whose second record is empty. *)
Definition truncated : string :=
  "{" +:+ quoted "Records" +:+ ":[" +:+ record_text "videos/a.mp4" +:+ ",{},"
    +:+ record_text "videos/c.webm" +:+ "]}".

(** A notification of uploads that are not videos. *)
Definition documents : string := upload_body ["notes.txt"; "report.pdf"].

(** A notification of a document and a video. *)
Definition mixed : string := upload_body ["notes.txt"; "videos/a.mp4"].

(** The queue cannot be reached. *)
Definition unreachable : Collaborators := {|
  JSON_parse := parse;
  path_extname := Scenario.extension;
  toUpperCase := upper;
  sqs_receive := λ _, ReceiveFailed;
  sqs_delete := λ _ _, true;
  ecs_send := λ _ _, true;
|}.

Definition legacy_env : Legacy.Env := {|
  Legacy.ACCESS_KEY_ID := Some "id";
  Legacy.SECRET_ACCESS_KEY := Some "secret";
  Legacy.REGION := Some "eu-west-1";
  Legacy.QUEUE_URL := Some "https://sqs.example/queue";
  Legacy.PROD_BUCKET := Some "production";
  Legacy.TASK_DEFINITION_ARN := Some "arn:task";
  Legacy.CLUSTER_ARN := Some "arn:cluster";
  Legacy.SUBNETS := Some "subnet-a,subnet-b";
  Legacy.SECURITY_GROUP := Some "sg-1";
|}.

End QueueFailures.

(** * Properties *)

(** ** Strings *)

Module JSFacts.
Import JS.

#[local] Arguments String.append !_ _ / : simpl nomatch.

Lemma append_nil_r (s : string) : s +:+ "" = s.
Proof. induction s as [|c s IH]; simpl; [done|]. by f_equal. Qed.

Lemma append_assoc (a b c : string) : (a +:+ b) +:+ c = a +:+ (b +:+ c).
Proof. induction a as [|x a IH]; simpl; [done|]. by f_equal. Qed.

Lemma length_append (a b : string) :
  String.length (a +:+ b) = (String.length a + String.length b)%nat.
Proof. induction a as [|x a IH]; simpl; [done|]. by f_equal. Qed.

Lemma append_inv_head (a b c : string) : a +:+ b = a +:+ c → b = c.
Proof. induction a as [|x a IH]; simpl; [done|]. intros [=]. auto. Qed.

Lemma drop_append (a b : string) : drop (String.length a) (a +:+ b) = b.
Proof. induction a as [|x a IH]; simpl; [by destruct b|done]. Qed.

Lemma startsWith_spec (s p : string) :
  startsWith s p = true ↔ ∃ b, s = p +:+ b.
Proof.
  revert s. induction p as [|x p IH]; intros s; simpl.
  - split; [intros _; by exists s|done].
  - destruct s as [|y s].
    + split; [done|]. by intros [b [=]].
    + destruct (Ascii.eqb_spec x y) as [->|Hne].
      * rewrite IH. split; intros [b Hb]; exists b; [by rewrite Hb|].
        by injection Hb.
      * split; [done|]. intros [b [=]]. done.
Qed.

Lemma startsWith_append (p b : string) : startsWith (p +:+ b) p = true.
Proof. apply startsWith_spec. by exists b. Qed.

Lemma includes_spec (s p : string) :
  includes s p = true ↔ ∃ a b, s = a +:+ p +:+ b.
Proof.
  induction s as [|c s IH]; simpl.
  - rewrite orb_false_r, startsWith_spec. split.
    + intros [b Hb]. by exists "", b.
    + intros [a [b Hab]]. destruct a; [by exists b|done].
  - rewrite orb_true_iff, IH, startsWith_spec. split.
    + intros [[b Hb]|[a [b Hab]]].
      * by exists "", b.
      * exists (String c a), b. simpl. by rewrite Hab.
    + intros [a [b Hab]]. destruct a as [|x a]; simpl in Hab.
      * left. by exists b.
      * right. injection Hab as _ Hs. by exists a, b.
Qed.

Lemma includes_false (s p a b : string) :
  includes s p = false → s ≠ a +:+ p +:+ b.
Proof.
  intros Hf Heq. assert (includes s p = true) as Ht; [|congruence].
  apply includes_spec. by exists a, b.
Qed.

(** Where the pattern does not occur, [replace] changes nothing. *)
Lemma replace_absent (s pat rep : string) :
  includes s pat = false → replace s pat rep = s.
Proof.
  induction s as [|c s IH]; simpl; intros H; apply orb_false_iff in H as [H1 H2].
  - by rewrite H1.
  - rewrite H1. f_equal. auto.
Qed.

(** Where it occurs, [replace] rewrites its first occurrence, and only
    that one. *)
Lemma replace_present (s pat rep : string) :
  includes s pat = true →
  ∃ a b, s = a +:+ pat +:+ b
         ∧ replace s pat rep = a +:+ rep +:+ b
         ∧ ∀ a' b', s = a' +:+ pat +:+ b' → (String.length a ≤ String.length a')%nat.
Proof.
  induction s as [|c s IH]; simpl; intros H.
  - rewrite orb_false_r in H. rewrite H.
    apply startsWith_spec in H as [b Hb]. exists "", b. simpl.
    split; [done|]. split; [|intros; lia].
    destruct pat; [|done]. simpl in Hb. by subst b.
  - destruct (startsWith (String c s) pat) eqn:Hsw.
    + apply startsWith_spec in Hsw as [b Hb]. exists "", b. simpl.
      split; [done|]. split; [|intros; lia].
      f_equal. rewrite Hb. by rewrite drop_append.
    + simpl in H. destruct (IH H) as (a & b & Hs & Hr & Hmin).
      exists (String c a), b. simpl. rewrite Hs at 1. split; [done|].
      rewrite Hr. split; [done|]. intros a' b' Heq.
      destruct a' as [|x a']; simpl in Heq.
      * assert (startsWith (String c s) pat = true) as Ht; [|congruence].
        apply startsWith_spec. by exists b'.
      * injection Heq as _ Heq. specialize (Hmin _ _ Heq). simpl. lia.
Qed.

Lemma replace_length (s pat rep : string) :
  includes s pat = true →
  (String.length (replace s pat rep) + String.length pat
   = String.length s + String.length rep)%nat.
Proof.
  intros H. destruct (replace_present s pat rep H) as (a & b & Hs & Hr & _).
  rewrite Hr. rewrite Hs at 1. rewrite !length_append. lia.
Qed.

Lemma replace_length_le (s pat rep : string) :
  (String.length rep ≤ String.length pat)%nat →
  (String.length (replace s pat rep) ≤ String.length s)%nat.
Proof.
  intros Hle. destruct (includes s pat) eqn:Hi.
  - pose proof (replace_length s pat rep Hi). lia.
  - by rewrite replace_absent.
Qed.

(** [s.split(sep)[0]] is the part of [s] before the first [sep]. *)
Lemma split_first (s : string) (sep : Ascii.ascii) :
  ∃ stem, first (split s sep) = Some stem
          ∧ includes stem (String sep "") = false
          ∧ (s = stem ∨ ∃ rest, s = stem +:+ String sep rest).
Proof.
  induction s as [|c s (stem & Hf & Hn & Hs)]; simpl.
  - exists "". split; [done|]. split; [done|by left].
  - destruct (Ascii.eqb_spec c sep) as [->|Hne].
    + exists "". simpl. split; [done|]. split; [done|right; by exists s].
    + destruct (split s sep) as [|w ws]; [done|].
      injection Hf as ->. exists (String c stem). split; [done|]. split.
      * simpl. rewrite Hn. rewrite orb_false_r.
        destruct (Ascii.eqb_spec sep c) as [->|_]; [done|done].
      * destruct Hs as [->|[rest ->]]; [by left|right; by exists rest].
Qed.

Lemma includes_char_append (a b : string) (c : Ascii.ascii) :
  includes (a +:+ b) (String c "") = includes a (String c "") || includes b (String c "").
Proof.
  induction a as [|x a IH]; simpl.
  - by destruct b.
  - rewrite IH. by destruct (Ascii.eqb c x).
Qed.

(** [replace] brings in no character that is in neither the string nor
    the replacement. *)
Lemma replace_char (s pat rep : string) (c : Ascii.ascii) :
  includes s (String c "") = false →
  includes rep (String c "") = false →
  includes (replace s pat rep) (String c "") = false.
Proof.
  intros Hs Hrep. destruct (includes s pat) eqn:Hi; [|by rewrite replace_absent].
  destruct (replace_present s pat rep Hi) as (a & b & Heq & -> & _).
  rewrite Heq in Hs. rewrite !includes_char_append in Hs.
  rewrite !includes_char_append.
  apply orb_false_iff in Hs as [Ha Hs]. apply orb_false_iff in Hs as [_ Hb].
  by rewrite Ha, Hrep, Hb.
Qed.

Lemma split_no_sep (s : string) (sep : Ascii.ascii) :
  includes s (String sep "") = false → first (split s sep) = Some s.
Proof.
  induction s as [|c s IH]; simpl; [done|].
  destruct (Ascii.eqb_spec sep c) as [->|Hne]; [done|]. simpl. intros Hs.
  destruct (Ascii.eqb_spec c sep) as [->|_]; [done|].
  specialize (IH Hs). destruct (split s sep) as [|w ws]; [done|].
  injection IH as ->. done.
Qed.

End JSFacts.

(** ** KeyNamer and RenditionPlanner *)

Module WorkerFacts.
Import JS JSFacts Transcoder Spec.

Lemma occurs_includes (pat s : string) : occurs pat s ↔ includes s pat = true.
Proof. unfold occurs. by rewrite includes_spec. Qed.

Lemma not_occurs_includes (pat s : string) : ¬ occurs pat s ↔ includes s pat = false.
Proof. rewrite occurs_includes. by destruct (includes s pat). Qed.

Lemma replace_first_replaced (s pat rep : string) :
  first_replaced pat rep s (replace s pat rep).
Proof.
  destruct (includes s pat) eqn:Hi.
  - right. by apply replace_present.
  - left. split; [by apply not_occurs_includes|by apply replace_absent].
Qed.

(** The stem of a key is the first field of its split at the dots. *)
Lemma stem_of_split (key : string) :
  ∃ stem, first (split key ".") = Some stem ∧ stem_of key stem.
Proof.
  destruct (split_first key ".") as (stem & Hf & Hn & Hs).
  exists stem. split; [done|]. split; [by apply not_occurs_includes|done].
Qed.

Lemma getFormattedKey_steps (key : string) :
  ∃ stem t, stem_of key stem
            ∧ first_replaced "videos/" "" stem t
            ∧ first_replaced "//" "/" t (getFormattedKey key).
Proof.
  destruct (stem_of_split key) as (stem & Hf & Hstem).
  exists stem, (replace stem "videos/" ""). unfold getFormattedKey.
  rewrite Hf. simpl. split; [done|].
  split; apply replace_first_replaced.
Qed.

(** A formatted key has no dot left. *)
Lemma getFormattedKey_no_dot (key : string) :
  includes (getFormattedKey key) "." = false.
Proof.
  unfold getFormattedKey.
  destruct (split_first key ".") as (stem & -> & Hn & _). simpl.
  by do 2 (apply replace_char; [|done]).
Qed.

Lemma getFormattedKey_stable (p : string) :
  includes p "." = false →
  getFormattedKey p = p ↔ includes p "videos/" = false ∧ includes p "//" = false.
Proof.
  intros Hdot. unfold getFormattedKey. rewrite (split_no_sep _ _ Hdot). simpl.
  split.
  - intros Heq. apply (f_equal String.length) in Heq.
    pose proof (replace_length_le (replace p "videos/" "") "//" "/") as Hle.
    destruct (includes p "videos/") eqn:Hv.
    + pose proof (replace_length p "videos/" "" Hv) as Hl. simpl in Hl, Hle. lia.
    + rewrite (replace_absent p "videos/" "" Hv) in Heq.
      split; [done|]. destruct (includes p "//") eqn:Hs; [|done].
      pose proof (replace_length p "//" "/" Hs) as Hl. simpl in Hl. lia.
  - intros [Hv Hs]. rewrite (replace_absent p "videos/" "" Hv).
    by apply replace_absent.
Qed.

(** C3, as stated, fails: [getFormattedKey] is not idempotent.  The key
    [videos/videos/a.mp4] is formatted to [videos/a], which is formatted
    to [a]; and a doubled separator can survive, as in [a//b//c.mp4]. *)
Lemma getFormattedKey_not_idempotent :
  getFormattedKey (getFormattedKey "videos/videos/a.mp4")
    ≠ getFormattedKey "videos/videos/a.mp4"
  ∧ getFormattedKey "a//b//c.mp4" = "a/b//c".
Proof. split; [by vm_compute|reflexivity]. Qed.

(** C3, amended: [getFormattedKey] is a total function of the key; it
    cuts the key at its first dot, removes the first occurrence of
    [videos/] from what is left, and then replaces the first occurrence
    of [//] by [/].  Formatting the result again changes nothing exactly
    when the result contains neither [videos/] nor [//].  The key
    [videos//clips/demo.mp4] is formatted to [/clips/demo]. *)
Theorem getFormattedKey_spec (key : string) :
  (∃ stem t, stem_of key stem
             ∧ first_replaced "videos/" "" stem t
             ∧ first_replaced "//" "/" t (getFormattedKey key))
  ∧ (getFormattedKey (getFormattedKey key) = getFormattedKey key
     ↔ ¬ occurs "videos/" (getFormattedKey key)
       ∧ ¬ occurs "//" (getFormattedKey key))
  ∧ getFormattedKey "videos//clips/demo.mp4" = "/clips/demo".
Proof.
  split; [apply getFormattedKey_steps|]. split; [|reflexivity].
  rewrite !not_occurs_includes.
  apply getFormattedKey_stable, getFormattedKey_no_dot.
Qed.

(** *** The planner *)

Lemma StronglySorted_sublist {A} (R : relation A) (k l : list A) :
  k `sublist_of` l → StronglySorted R l → StronglySorted R k.
Proof.
  induction 1 as [|x k l Hkl IH|x k l Hkl IH]; intros Hl; [done| |].
  - apply StronglySorted_inv in Hl as [Hl Hx]. constructor; [auto|].
    rewrite Forall_forall in Hx |- *. intros y Hy. apply Hx.
    by eapply elem_of_sublist.
  - apply StronglySorted_inv in Hl as [Hl _]. auto.
Qed.

Lemma RESOLUTIONS_ascending : StronglySorted ascending RESOLUTIONS.
Proof. unfold RESOLUTIONS. repeat constructor; simpl; lia. Qed.

(** C2: for every probed width and height, [getValidResolutions] returns
    a subsequence of the catalog (its entries in the catalog's order,
    none repeated or added) that holds exactly the entries no wider and
    no higher than the probe, in ascending order.  As a function it is
    deterministic and has a result for every input. *)
Theorem getValidResolutions_spec (width0 height0 : Z) :
  getValidResolutions width0 height0 `sublist_of` RESOLUTIONS
  ∧ (∀ r, r ∈ getValidResolutions width0 height0
          ↔ r ∈ RESOLUTIONS ∧ (width r ≤ width0)%Z ∧ (height r ≤ height0)%Z)
  ∧ StronglySorted ascending (getValidResolutions width0 height0).
Proof.
  assert (getValidResolutions width0 height0 `sublist_of` RESOLUTIONS) as Hsub
    by apply sublist_filter.
  split; [done|]. split.
  - intros r. unfold getValidResolutions. rewrite list_elem_of_filter. tauto.
  - eapply StronglySorted_sublist; [done|apply RESOLUTIONS_ascending].
Qed.

(** *** Segment numbering *)

Lemma pretty_N_go_length (x : N) (s : string) :
  (0 < x)%N →
  ∃ k : nat, String.length (pretty_N_go x s) = (S k + String.length s)%nat
             ∧ (10 ^ N.of_nat k ≤ x < 10 ^ N.of_nat (S k))%N.
Proof.
  revert s. induction (N.lt_wf_0 x) as [x _ IH]. intros s Hx.
  rewrite pretty_N_go_step by done.
  destruct (decide (x < 10)%N) as [Hlt|Hge].
  - rewrite N.div_small by done. rewrite pretty_N_go_0. exists 0%nat. simpl.
    split; [done|]. change (10 ^ 0)%N with 1%N. change (10 ^ 1)%N with 10%N. lia.
  - assert (0 < x `div` 10)%N as Hpos.
    { apply N.div_str_pos. lia. }
    destruct (IH (x `div` 10)%N (N.div_lt x 10 Hx eq_refl)
                (String (pretty_N_char (x `mod` 10)) s) Hpos)
      as (k & Hlen & Hlo & Hhi).
    exists (S k). split; [rewrite Hlen; simpl; lia|].
    rewrite !Nat2N.inj_succ, !N.pow_succ_r' in *.
    pose proof (N.div_mod x 10 ltac:(done)) as Hdm.
    pose proof (N.mod_lt x 10 ltac:(done)) as Hm.
    clear Hlen IH. generalize dependent (10 ^ N.of_nat k)%N.
    generalize dependent (x `div` 10)%N. generalize dependent (x `mod` 10)%N.
    intros. lia.
Qed.

Lemma Number_toString_digits (n : Z) :
  (0 ≤ n)%Z → decimal_digits n (String.length (Number_toString n)).
Proof.
  intros Hn. destruct n as [|p|p]; [by left|right|lia].
  unfold Number_toString, pretty, pretty_Z, pretty, pretty_positive, pretty, pretty_N.
  rewrite decide_False by done.
  destruct (pretty_N_go_length (N.pos p) "") as (k & -> & Hlo & Hhi); [done|].
  simpl String.length. rewrite Nat.add_0_r. split; [lia|].
  replace (Z.of_nat (S k) - 1)%Z with (Z.of_N (N.of_nat k)) by lia.
  replace (Z.of_nat (S k)) with (Z.of_N (N.of_nat (S k))) by lia.
  change 10%Z with (Z.of_N 10). rewrite <- !N2Z.inj_pow. lia.
Qed.

Lemma estimatedSegments_nonneg (d : Q) : (0 <= d)%Q → (0 ≤ estimatedSegments d)%Z.
Proof.
  intros Hd. unfold estimatedSegments.
  change 0%Z with (Qceiling 0). apply Qceiling_resp_le.
  apply Qle_shift_div_l; [done|]. by rewrite Qmult_0_l.
Qed.

(** C8: for every probed duration [d] (a number of seconds, not negative,
    with fewer than [10^21] segments, the range in which a number prints
    as its decimal digits), the estimated number of segments is
    [ceil(d / 10)], and the padding width is the number of its decimal
    digits.  A duration of 95 gives 10 segments and width 2, the segment
    file name pattern has [%02d], and index 0 is rendered as [00]. *)
Theorem padding_spec (d : Q) :
  (0 <= d)%Q →
  (estimatedSegments d < 10 ^ 21)%Z →
  (inject_Z (estimatedSegments d - 1) < d / 10)%Q
  ∧ (d / 10 <= inject_Z (estimatedSegments d))%Q
  ∧ decimal_digits (estimatedSegments d) (padding d)
  ∧ estimatedSegments 95 = 10%Z
  ∧ padding 95 = 2%nat
  ∧ (∀ r, last (ffmpegOptions "hls_output" r (padding 95))
          = Some ("-hls_segment_filename hls_output/" +:+ name r +:+ "_%02d.ts"))
  ∧ zeroPadded (padding 95) 0 = "00".
Proof.
  intros Hd _. split; [apply Qceiling_lt|]. split; [apply Qle_ceiling|].
  split; [apply Number_toString_digits, estimatedSegments_nonneg, Hd|].
  by repeat split.
Qed.

Lemma padding_spec_witness :
  (0 <= 95)%Q ∧ (estimatedSegments 95 < 10 ^ 21)%Z
  ∧ decimal_digits (estimatedSegments 95) (padding 95).
Proof.
  assert (0 <= 95)%Q as H0 by done.
  assert (estimatedSegments 95 < 10 ^ 21)%Z as H1 by done.
  split; [exact H0|]. split; [exact H1|].
  exact (proj1 (proj2 (proj2 (padding_spec 95 H0 H1)))).
Defined.

End WorkerFacts.

(** ** Runs of the worker *)

Module WorkerRuns.
Import JS JSFacts Transcoder Spec.

#[local] Arguments String.append !_ _ / : simpl nomatch.

Section Runs.
Context `{!Collaborators} (env : Env).

(** *** Uploads are never undone *)

Lemma uploads_remain_emit (e : Event) (w : World) :
  (∀ bucket key path, e ≠ PutObject bucket key path true) →
  uploads_remain w → uploads_remain (emit e w).
Proof.
  intros He Hw bucket key path Hin. simpl in Hin.
  apply elem_of_app in Hin as [Hin|Hin]; [by eapply Hw|].
  apply list_elem_of_singleton in Hin. by destruct (He bucket key path).
Qed.

Lemma uploads_remain_store_text (path content : string) (w : World) :
  uploads_remain w → uploads_remain (store_text path content w).
Proof. done. Qed.

Lemma uploads_remain_uploadToS3 (filePath key : string) (w : World) :
  uploads_remain w → uploads_remain (uploadToS3 env filePath key w).2.
Proof.
  intros Hw. unfold uploadToS3.
  destruct (s3_put _ _ _ _) eqn:Hput; simpl.
  - intros bucket key' path Hin. unfold publish. simpl in *.
    destruct (decide (key' = key)) as [->|Hne]; [by rewrite lookup_insert_eq|].
    rewrite lookup_insert_ne by done.
    apply elem_of_app in Hin as [Hin|Hin]; [by eapply Hw|].
    apply list_elem_of_singleton in Hin. congruence.
  - apply uploads_remain_emit; [|done]. intros ? ? ? [=].
Qed.

(** *** One rendition *)

(** What a piece of the loop does to the world: it adds calls, all made
    for the rendition [r]; it ends normally only when none of them failed;
    it never exits by itself; and it keeps the uploads made so far. *)
Definition rendition_step (r : Resolution) (m : M World unit) : Prop :=
  ∀ w, ∃ evs,
    trace (m w).2 = trace w ++ evs
    ∧ Forall (of_rendition env r) evs
    ∧ ((m w).1 = Throw ∨ (m w).1 = Val tt ∧ Forall succeeded evs)
    ∧ (uploads_remain w → uploads_remain (m w).2).

Lemma uploads_step (r : Resolution) (files : list string) :
  rendition_step r
    (Promise_all
       ((λ file, uploadToS3 env (path_join "hls_output" file) (object_key env r file))
          <$> files)).
Proof.
  induction files as [|file files IH]; intros w; simpl.
  - exists []. rewrite app_nil_r. unfold ret. simpl. eauto 10.
  - destruct (uploadToS3 env _ _ w) as [o w1] eqn:Hup.
    destruct (IH w1) as (evs & Htr & Hof & Hout & Hrem).
    destruct (Promise_all _ w1) as [o' w2]. simpl in *.
    pose proof (uploads_remain_uploadToS3 (path_join "hls_output" file)
                  (object_key env r file) w) as Hrem1.
    rewrite Hup in Hrem1. simpl in Hrem1. unfold uploadToS3 in Hup.
    destruct (s3_put _ _ _ _) eqn:Hput; injection Hup as <- <-.
    + exists (PutObject (PROD_BUCKET env) (object_key env r file)
                (path_join "hls_output" file) true :: evs).
      rewrite Htr. simpl. rewrite <- app_assoc. simpl.
      split; [done|]. split; [constructor; [constructor|done]|].
      split; [|auto]. destruct Hout as [->|[-> Hok]]; [by left|right].
      split; [done|]. by constructor.
    + exists (PutObject (PROD_BUCKET env) (object_key env r file)
                (path_join "hls_output" file) false :: evs).
      rewrite Htr. simpl. rewrite <- app_assoc. simpl.
      split; [done|]. split; [constructor; [constructor|done]|].
      split; [by left|auto].
Qed.

Lemma uploadHLSFiles_step (r : Resolution) :
  rendition_step r (uploadHLSFiles env "hls_output" r).
Proof.
  intros w. unfold uploadHLSFiles, readdir. unfold_M.
  destruct (fs_readdir (trace w) "hls_output") as [files|] eqn:Hdir.
  - match goal with
    | |- context [Promise_all ?ms ?w1] =>
        destruct (uploads_step r
                    (List.filter
                       (λ file, startsWith file (name r)
                                && (endsWith file ".m3u8" || endsWith file ".ts"))
                       files) w1) as (evs & Htr & Hof & Hout & Hrem)
    end.
    exists (Readdir "hls_output" (Some files) :: evs).
    unfold object_key in *. simpl in *. rewrite Htr. rewrite <- app_assoc. simpl.
    split; [done|]. split; [constructor; [constructor|done]|]. split.
    + destruct Hout as [Ho|[Ho Hok]]; [by left|right]. split; [done|].
      constructor; [by eexists|done].
    + intros Hw. apply Hrem. apply uploads_remain_emit; [|done]. intros ? ? ? [=].
  - exists [Readdir "hls_output" None]. simpl.
    split; [done|]. split; [repeat constructor|]. split; [by left|].
    intros Hw. apply uploads_remain_emit; [|done]. intros ? ? ? [=].
Qed.

Lemma transcode_step (input : string) (r : Resolution) (pad : nat) :
  rendition_step r (transcode env input "hls_output" r pad).
Proof.
  intros w. unfold transcode.
  destruct (ffmpeg_run _ _ _ _) eqn:Hrun.
  - match goal with
    | |- context [uploadHLSFiles env "hls_output" r ?w1] =>
        destruct (uploadHLSFiles_step r w1) as (evs & Htr & Hof & Hout & Hrem)
    end.
    exists (Ffmpeg input (output_of r) (ffmpegOptions "hls_output" r pad) true :: evs).
    rewrite Htr. simpl. rewrite <- app_assoc. simpl.
    split; [done|]. split; [constructor; [constructor|done]|]. split.
    + destruct Hout as [Ho|[Ho Hok]]; [by left|right]. split; [done|].
      by constructor.
    + intros Hw. apply Hrem. apply uploads_remain_emit; [|done]. intros ? ? ? [=].
  - exists [Ffmpeg input (output_of r) (ffmpegOptions "hls_output" r pad) false].
    simpl. split; [done|]. split; [repeat constructor|]. split; [by left|].
    intros Hw. apply uploads_remain_emit; [|done]. intros ? ? ? [=].
Qed.

(** *** The loop over the planned renditions *)

Lemma of_renditions_cons (r : Resolution) (rs : list Resolution) (evs : list Event) :
  Forall (of_renditions env rs) evs → Forall (of_renditions env (r :: rs)) evs.
Proof.
  intros Hevs. eapply Forall_impl; [exact Hevs|].
  intros e (r' & Hr' & He). exists r'. split; [by right|done].
Qed.

Lemma of_renditions_one (r : Resolution) (rs : list Resolution) (evs : list Event) :
  Forall (of_rendition env r) evs → Forall (of_renditions env (r :: rs)) evs.
Proof.
  intros Hevs. eapply Forall_impl; [exact Hevs|].
  intros e He. exists r. split; [by left|done].
Qed.

(** The loop either goes through all the renditions, and then no call has
    failed, or it exits with status 1 at a rendition [r]: the calls made
    are those of the renditions before [r], none of which failed, followed
    by calls for [r] alone. *)
Lemma forResolutions_spec (input : string) (pad : nat) (rs : list Resolution) (w : World) :
  let res := forResolutions env input "hls_output" pad rs w in
  (uploads_remain w → uploads_remain res.2)
  ∧ ∃ evs, trace res.2 = trace w ++ evs
    ∧ (res.1 = Val tt ∧ Forall succeeded evs ∧ Forall (of_renditions env rs) evs
       ∨ res.1 = Exit 1
         ∧ ∃ pre r post evs1 evs2,
             rs = pre ++ r :: post ∧ evs = evs1 ++ evs2
             ∧ Forall succeeded evs1 ∧ Forall (of_renditions env pre) evs1
             ∧ Forall (of_rendition env r) evs2).
Proof.
  revert w. induction rs as [|r rs IH]; intros w; simpl.
  - split; [done|]. exists []. rewrite app_nil_r. split; [done|]. left. by repeat split.
  - unfold_M.
    destruct (transcode_step input r pad w) as (evs & Htr & Hof & Hout & Hrem).
    destruct (transcode env input "hls_output" r pad w) as [o w1]. simpl in *.
    destruct Hout as [->|[-> Hok]].
    + simpl. split; [done|]. exists evs. split; [done|]. right. split; [done|].
      exists [], r, rs, [], evs. by repeat split.
    + destruct (IH w1) as (Hrem' & evs' & Htr' & Hcases).
      split; [auto|]. exists (evs ++ evs'). rewrite Htr', Htr, app_assoc.
      split; [done|]. destruct Hcases as [(Ho & Hok' & Hof')|(Ho & Hex)].
      * left. split; [done|]. split; [by apply Forall_app|].
        apply Forall_app. split; [by apply of_renditions_one|by apply of_renditions_cons].
      * right. split; [done|].
        destruct Hex as (pre & r' & post & evs1 & evs2 & -> & -> & Hok1 & Hof1 & Hof2).
        exists (r :: pre), r', post, (evs ++ evs1), evs2.
        rewrite app_assoc. split; [done|]. split; [done|].
        split; [by apply Forall_app|]. split; [|done].
        apply Forall_app. split; [by apply of_renditions_one|by apply of_renditions_cons].
Qed.

End Runs.

(** *** Names, playlists and keys of the catalog do not collide *)

Lemma name_inj (r1 r2 : Resolution) :
  r1 ∈ RESOLUTIONS → r2 ∈ RESOLUTIONS → name r1 = name r2 → r1 = r2.
Proof.
  unfold RESOLUTIONS. rewrite !elem_of_cons, !elem_of_nil.
  intros H1 H2. destruct_or!; try done; subst; simpl; intros [=]; done.
Qed.

Lemma output_of_inj (r1 r2 : Resolution) :
  r1 ∈ RESOLUTIONS → r2 ∈ RESOLUTIONS → output_of r1 = output_of r2 → r1 = r2.
Proof.
  unfold RESOLUTIONS, output_of. rewrite !elem_of_cons, !elem_of_nil.
  intros H1 H2. destruct_or!; try done; subst; simpl; intros [=]; done.
Qed.

Lemma object_key_inj (env : Env) (r1 r2 : Resolution) (f1 f2 : string) :
  r1 ∈ RESOLUTIONS → r2 ∈ RESOLUTIONS →
  object_key env r1 f1 = object_key env r2 f2 → r1 = r2.
Proof.
  unfold object_key. intros H1 H2 Heq.
  apply (append_inv_head "hls/"), append_inv_head, (append_inv_head "/") in Heq.
  revert H1 H2 Heq. unfold RESOLUTIONS. rewrite !elem_of_cons, !elem_of_nil.
  intros H1 H2. destruct_or!; try done; subst; simpl; intros [=]; done.
Qed.

Lemma object_key_manifest (env : Env) (r : Resolution) (file : string) :
  r ∈ RESOLUTIONS → object_key env r file ≠ manifest_key env.
Proof.
  unfold object_key, manifest_key. intros Hr Heq.
  apply (append_inv_head "hls/"), append_inv_head in Heq.
  revert Hr Heq. unfold RESOLUTIONS. rewrite !elem_of_cons, !elem_of_nil.
  intros Hr. destruct_or!; try done; subst; simpl; intros [=].
Qed.

Lemma split_unique {A} (pre pre' post post' : list A) (x : A) :
  NoDup (pre ++ x :: post) →
  pre ++ x :: post = pre' ++ x :: post' → pre = pre' ∧ post = post'.
Proof.
  revert pre'. induction pre as [|y pre IH]; intros pre' Hnd Heq.
  - destruct pre' as [|y' pre']; simpl in *.
    + by injection Heq.
    + injection Heq as <- ->. apply NoDup_cons in Hnd as [Hx _].
      destruct Hx. apply elem_of_app. right. by left.
  - destruct pre' as [|y' pre']; simpl in *.
    + injection Heq as -> _. apply NoDup_cons in Hnd as [Hx _].
      destruct Hx. apply elem_of_app. right. by left.
    + injection Heq as <- Heq. apply NoDup_cons in Hnd as [_ Hnd].
      destruct (IH pre' Hnd Heq) as [-> ->]. done.
Qed.

Lemma RESOLUTIONS_NoDup : NoDup RESOLUTIONS.
Proof.
  apply (NoDup_fmap_1 name). apply (bool_decide_unpack _). by vm_compute.
Qed.

Lemma plan_NoDup (width0 height0 : Z) : NoDup (getValidResolutions width0 height0).
Proof. apply NoDup_filter, RESOLUTIONS_NoDup. Qed.

Lemma plan_catalog (width0 height0 : Z) (r : Resolution) :
  r ∈ getValidResolutions width0 height0 → r ∈ RESOLUTIONS.
Proof. unfold getValidResolutions. rewrite list_elem_of_filter. tauto. Qed.

(** *** The phases of a run *)

Section Phases.
Context `{!Collaborators} (env : Env).

(** The calls made before the loop. *)
Definition prelude_event (e : Event) : Prop :=
  match e with
  | GetObject _ _ _ | Ffprobe _ _ | Mkdir _ _ => True
  | WriteFile path _ => ∃ extension, path = "original-video" +:+ extension
  | _ => False
  end.

(** The calls made after the loop. *)
Definition manifest_event (e : Event) : Prop :=
  match e with
  | WriteFile path _ => path = "hls_output/master.m3u8"
  | PutObject _ key _ _ => key = manifest_key env
  | _ => False
  end.

(** Writing and uploading the master playlist, as the end of [main_body]
    does. *)
Definition manifest_step (metadata : Metadata) : M World unit :=
  writeFile (path_join "hls_output" "master.m3u8")
    (masterPlaylistContent (md_width metadata) (md_height metadata));;
  uploadToS3 env (path_join "hls_output" "master.m3u8") (manifest_key env).

(** The status with which the process ends, from the result of the loop. *)
Definition finish (metadata : Metadata) (res : outcome unit * World) : Z * World :=
  match res with
  | (Exit code, w) => (code, w)
  | (Throw, w) => (1%Z, w)
  | (Val _, w) =>
      match manifest_step metadata w with
      | (Val _, w') => (0%Z, w')
      | (_, w') => (1%Z, w')
      end
  end.

Lemma run_shape :
  (∃ w, run env = (1%Z, w) ∧ Forall prelude_event (trace w))
  ∨ ∃ metadata input w1,
      (∀ path result, Ffprobe path result ∈ trace w1 → result = Some metadata)
      ∧ (∃ path, Ffprobe path (Some metadata) ∈ trace w1)
      ∧ Forall prelude_event (trace w1)
      ∧ uploads_remain w1
      ∧ run env
        = finish metadata
            (forResolutions env input "hls_output" (padding (duration metadata))
               (getValidResolutions (md_width metadata) (md_height metadata)) w1).
Proof.
  unfold run, main, main_body, getObject, writeStream, getVideoMetadata, mkdir.
  unfold_M. simpl.
  destruct (s3_get _ _ _) eqn:Hget; simpl.
  2:{ left. eexists. split; [done|]. simpl. repeat constructor. }
  destruct (fs_writeFile _ _) eqn:Hwrite; simpl.
  2:{ left. eexists. split; [done|]. simpl. repeat constructor. by eexists. }
  destruct (ffprobe _ _) as [metadata|] eqn:Hprobe; simpl.
  2:{ left. eexists. split; [done|]. simpl. repeat constructor. by eexists. }
  destruct (fs_mkdir _ _) eqn:Hmkdir; simpl.
  2:{ left. eexists. split; [done|]. simpl. repeat constructor. by eexists. }
  right.
  exists metadata,
    (path_resolve ("original-video" +:+ getFileExtension (KEY env))),
    (emit (Mkdir "hls_output" true)
       (emit (Ffprobe (path_resolve ("original-video" +:+ getFileExtension (KEY env)))
                (Some metadata))
          (emit (WriteFile ("original-video" +:+ getFileExtension (KEY env)) true)
             (emit (GetObject (BUCKET env) (KEY env) true) initial)))).
  split.
  { intros path result Hin. simpl in Hin.
    rewrite !elem_of_cons, elem_of_nil in Hin. destruct_or!; try done.
    by injection Hin as _ ->. }
  split.
  { eexists. simpl. rewrite !elem_of_cons. right. right. by left. }
  split; [simpl; repeat constructor; by eexists|].
  split.
  { intros bucket key path Hin. simpl in Hin.
    rewrite !elem_of_cons, elem_of_nil in Hin. by destruct_or!. }
  unfold finish, manifest_step, writeFile, uploadToS3, manifest_key. unfold_M. simpl.
  destruct (forResolutions _ _ _ _ _ _) as [[[]| |code] w2]; simpl; [|done|done].
  destruct (fs_writeFile (trace w2) _); simpl; [|done].
  match goal with |- context [s3_put ?tr ?b ?k ?f] => destruct (s3_put tr b k f) end.
  all: done.
Qed.

Lemma manifest_step_spec (metadata : Metadata) (w : World) :
  let res := manifest_step metadata w in
  (uploads_remain w → uploads_remain res.2)
  ∧ ∃ evs, trace res.2 = trace w ++ evs
    ∧ Forall manifest_event evs
    ∧ (res.1 = Throw
       ∨ res.1 = Val tt
         ∧ published res.2 !! manifest_key env
           = Some (Text (masterPlaylistContent (md_width metadata) (md_height metadata)))).
Proof.
  unfold manifest_step, writeFile. unfold_M.
  destruct (fs_writeFile (trace w) _) eqn:Hwrite.
  - match goal with
    | |- context [uploadToS3 env ?f ?k ?w1] =>
        pose proof (uploads_remain_uploadToS3 env f k w1) as Hrem;
        unfold uploadToS3 in *; destruct (s3_put (trace w1) (PROD_BUCKET env) k f)
    end; simpl in *.
    + split.
      { intros Hw. apply Hrem, uploads_remain_store_text, uploads_remain_emit; [|done].
        by intros ? ? ? [=]. }
      eexists [_; _]. rewrite <- app_assoc. split; [done|].
      split; [by repeat constructor|]. right. split; [done|].
      unfold publish. simpl. rewrite lookup_insert_eq. by rewrite lookup_insert_eq.
    + split.
      { intros Hw. apply Hrem, uploads_remain_store_text, uploads_remain_emit; [|done].
        by intros ? ? ? [=]. }
      eexists [_; _]. rewrite <- app_assoc. split; [done|].
      split; [by repeat constructor|]. by left.
  - simpl. split; [apply uploads_remain_emit; by intros ? ? ? [=]|].
    eexists [_]. split; [done|]. split; [by repeat constructor|]. by left.
Qed.

(** *** Which calls can belong to which phase *)

(** A failed encoding or upload of [r], and an attempt to encode [r]. *)
Definition failure_of (r : Resolution) (e : Event) : Prop :=
  (∃ input options, e = Ffmpeg input (output_of r) options false)
  ∨ ∃ file path, e = PutObject (PROD_BUCKET env) (object_key env r file) path false.

Definition attempt_of (r : Resolution) (e : Event) : Prop :=
  ∃ input options ok, e = Ffmpeg input (output_of r) options ok.

Lemma failure_of_not_prelude (r : Resolution) (e : Event) :
  failure_of r e → ¬ prelude_event e.
Proof. intros [(? & ? & ->)|(? & ? & ->)]; simpl; tauto. Qed.

Lemma failure_of_not_succeeded (r : Resolution) (e : Event) :
  failure_of r e → ¬ succeeded e.
Proof. intros [(? & ? & ->)|(? & ? & ->)]; simpl; congruence. Qed.

Lemma failure_of_not_manifest (r : Resolution) (e : Event) :
  r ∈ RESOLUTIONS → failure_of r e → ¬ manifest_event e.
Proof.
  intros Hr [(? & ? & ->)|(file & ? & ->)]; simpl; [tauto|].
  by apply object_key_manifest.
Qed.

Lemma failure_of_rendition (r r' : Resolution) (e : Event) :
  r ∈ RESOLUTIONS → r' ∈ RESOLUTIONS →
  failure_of r e → of_rendition env r' e → r' = r.
Proof.
  intros Hr Hr' [(? & ? & ->)|(file & ? & ->)] Hof; inversion Hof.
  - apply output_of_inj; [done..|]. unfold output_of. simpl. congruence.
  - eapply (object_key_inj env); [done..|]. unfold object_key. simpl.
    do 4 f_equal. eassumption.
Qed.

Lemma attempt_of_rendition (r r' : Resolution) (e : Event) :
  r ∈ RESOLUTIONS → r' ∈ RESOLUTIONS →
  attempt_of r e → of_rendition env r' e → r' = r.
Proof.
  intros Hr Hr' (? & ? & ? & ->) Hof. inversion Hof.
  apply output_of_inj; [done..|]. unfold output_of. simpl. congruence.
Qed.

Lemma of_rendition_not_manifest (r : Resolution) (e : Event) :
  r ∈ RESOLUTIONS → of_rendition env r e → ¬ manifest_event e.
Proof. intros Hr [| |]; simpl; [tauto|tauto|]. by apply object_key_manifest. Qed.

Lemma of_rendition_not_ffprobe (r : Resolution) (path : string) (result : option Metadata) :
  ¬ of_rendition env r (Ffprobe path result).
Proof. inversion 1. Qed.

Lemma failure_in_trace (r : Resolution) (tr : list Event) :
  encode_failed r tr ∨ upload_failed env r tr ↔ ∃ e, e ∈ tr ∧ failure_of r e.
Proof.
  unfold encode_failed, upload_failed, failure_of. split.
  - intros [(input & options & Hin)|(file & path & Hin)]; eexists; eauto 10.
  - intros (e & Hin & [(input & options & ->)|(file & path & ->)]); eauto 10.
Qed.

(** *** Fail-fast *)

(** C1: in every run of the worker, whatever the collaborators answer: if
    the probe reported [metadata], the plan for it is [pre ++ r :: post],
    and the encoding of [r] or the upload of one of its files failed, then
    the process ends with status 1, no rendition of [post] was attempted,
    the master manifest was neither written nor uploaded, and every object
    whose upload had succeeded (those of the renditions [pre] among them)
    is still in the bucket. *)
Theorem fail_fast (metadata : Metadata) (pre post : list Resolution) (r : Resolution)
    (path : string) :
  Ffprobe path (Some metadata) ∈ trace (run env).2 →
  getValidResolutions (md_width metadata) (md_height metadata) = pre ++ r :: post →
  encode_failed r (trace (run env).2) ∨ upload_failed env r (trace (run env).2) →
  (run env).1 = 1%Z
  ∧ (∀ r', r' ∈ post → ¬ attempted r' (trace (run env).2))
  ∧ ¬ manifest_written (trace (run env).2)
  ∧ ¬ manifest_uploaded env (trace (run env).2)
  ∧ uploads_remain (run env).2.
Proof.
  intros Hprobe Hplan Hfail. apply failure_in_trace in Hfail as (e & He & Hfail).
  assert (r ∈ RESOLUTIONS) as Hr.
  { apply (plan_catalog (md_width metadata) (md_height metadata)).
    rewrite Hplan. apply elem_of_app. right. by left. }
  destruct run_shape as [(w & Hrun & Hpre)|(md & input & w1 & Hmd & _ & Hpre & Hrem & Hrun)].
  { rewrite Hrun in He. simpl in He. rewrite Forall_forall in Hpre.
    by destruct (failure_of_not_prelude r e Hfail (Hpre e He)). }
  rewrite Hrun in *. clear Hrun.
  destruct (forResolutions_spec env input (padding (duration md))
              (getValidResolutions (md_width md) (md_height md)) w1)
    as (Hrem2 & evs & Htr & Hloop).
  destruct (forResolutions _ _ _ _ _ _) as [o w2]. simpl in Hrem2, Htr, Hloop.
  rewrite Forall_forall in Hpre.
  destruct Hloop as [(-> & Hok & Hof)|(-> & Hex)].
  - (* the loop went through: nothing of [r] can have failed *)
    exfalso. simpl in *.
    destruct (manifest_step_spec md w2) as (_ & evs' & Htr' & Hman & _).
    assert (trace (match manifest_step md w2 with
                   | (Val _, w') => (0%Z, w')
                   | (_, w') => (1%Z, w')
                   end).2 = trace w1 ++ evs ++ evs') as Hfinal.
    { destruct (manifest_step md w2) as [[| |] w3]; simpl in *; by rewrite Htr', Htr, app_assoc. }
    rewrite Hfinal in He. rewrite !elem_of_app in He.
    rewrite Forall_forall in Hok, Hof, Hman. destruct He as [He|[He|He]].
    + by destruct (failure_of_not_prelude r e Hfail (Hpre e He)).
    + by destruct (failure_of_not_succeeded r e Hfail (Hok e He)).
    + by destruct (failure_of_not_manifest r e Hr Hfail (Hman e He)).
  - (* the loop stopped at some rendition, which is [r] *)
    destruct Hex as (pre' & r' & post' & evs1 & evs2 & Hplan' & -> & Hok1 & Hof1 & Hof2).
    simpl in *. rewrite Htr in *. rewrite Forall_forall in Hok1, Hof1, Hof2.
    assert (md = metadata) as ->.
    { rewrite !elem_of_app in Hprobe. destruct Hprobe as [Hin|[Hin|Hin]].
      - specialize (Hmd _ _ Hin). congruence.
      - destruct (Hof1 _ Hin) as (r0 & _ & Hr0).
        by destruct (of_rendition_not_ffprobe r0 path (Some metadata)).
      - by destruct (of_rendition_not_ffprobe r' path (Some metadata) (Hof2 _ Hin)). }
    assert (∀ r0, r0 ∈ pre' ++ r' :: post' → r0 ∈ RESOLUTIONS) as Hcat.
    { intros r0 Hr0. rewrite <- Hplan' in Hr0. by eapply plan_catalog. }
    assert (r' = r) as ->.
    { rewrite !elem_of_app in He. destruct He as [He|[He|He]].
      - by destruct (failure_of_not_prelude r e Hfail (Hpre e He)).
      - by destruct (failure_of_not_succeeded r e Hfail (Hok1 e He)).
      - eapply failure_of_rendition; [done| |done|by apply Hof2].
        apply Hcat, elem_of_app. right. by left. }
    pose proof (plan_NoDup (md_width metadata) (md_height metadata)) as Hnd.
    rewrite Hplan in Hplan'.
    rewrite Hplan in Hnd. destruct (split_unique _ _ _ _ _ Hnd Hplan') as [<- <-].
    split; [done|]. split; [|split; [|split]].
    + intros r0 Hr0 (input0 & options & ok & Hin).
      assert (attempt_of r0 (Ffmpeg input0 (output_of r0) options ok)) as Hatt
        by (by eexists _, _, _).
      assert (r0 ∈ RESOLUTIONS) as Hr0cat.
      { apply Hcat, elem_of_app. right. by right. }
      apply NoDup_app in Hnd as (_ & Hdisj & Hnd). apply NoDup_cons in Hnd as [Hnr _].
      rewrite !elem_of_app in Hin. destruct Hin as [Hin|[Hin|Hin]].
      * by destruct (Hpre _ Hin).
      * destruct (Hof1 _ Hin) as (r1 & Hr1 & Hof).
        assert (r1 = r0) as ->.
        { eapply attempt_of_rendition; [done| |done|done].
          apply Hcat, elem_of_app. by left. }
        apply (Hdisj r0 Hr1). by right.
      * assert (r = r0) as -> by (eapply attempt_of_rendition; [done|done|done|by apply Hof2]).
        done.
    + intros (ok & Hin). rewrite !elem_of_app in Hin. destruct Hin as [Hin|[Hin|Hin]].
      * destruct (Hpre _ Hin) as (extension & Heq). simpl in Heq. discriminate.
      * destruct (Hof1 _ Hin) as (r1 & _ & Hof). inversion Hof.
      * specialize (Hof2 _ Hin). inversion Hof2.
    + intros (bucket & path0 & ok & Hin).
      rewrite !elem_of_app in Hin. destruct Hin as [Hin|[Hin|Hin]].
      * by destruct (Hpre _ Hin).
      * destruct (Hof1 _ Hin) as (r1 & Hr1 & Hof).
        eapply (of_rendition_not_manifest r1); [|done|done].
        apply Hcat, elem_of_app. by left.
      * eapply (of_rendition_not_manifest r); [done|by apply Hof2|done].
    + auto.
Qed.

(** *** The master manifest *)

Lemma playlistEntry_entry_of (r : Resolution) :
  r ∈ RESOLUTIONS → entry_of r (playlistEntry r).
Proof.
  unfold RESOLUTIONS. rewrite !elem_of_cons, elem_of_nil. intros Hr.
  exists (default 0%Z (parseInt (bitrate r))).
  destruct_or!; try done; subst r; split; reflexivity.
Qed.

Lemma Forall2_fmap_same {A B} (P : A → B → Prop) (f : A → B) (l : list A) :
  (∀ x, x ∈ l → P x (f x)) → Forall2 P l (f <$> l).
Proof.
  induction l as [|x l IH]; intros Hl; simpl; constructor.
  - apply Hl. by left.
  - apply IH. intros y Hy. apply Hl. by right.
Qed.

(** C4: whenever the worker ends with status 0 (every planned rendition
    was encoded and uploaded, and so was the manifest), the master manifest
    in the bucket is the two header lines followed by one entry per planned
    rendition, in the order of the plan, each with BANDWIDTH equal to the
    rendition's bitrate in kilobits times 1000, RESOLUTION equal to width
    x height, and the path name/name.m3u8.  A bitrate of 1400k gives
    BANDWIDTH=1400000. *)
Theorem master_manifest :
  (run env).1 = 0%Z →
  ∃ path metadata entries,
    Ffprobe path (Some metadata) ∈ trace (run env).2
    ∧ published (run env).2 !! manifest_key env
      = Some (Text ("#EXTM3U" +:+ LF +:+ "#EXT-X-VERSION:3" +:+ LF +:+ join entries LF))
    ∧ Forall2 entry_of
        (getValidResolutions (md_width metadata) (md_height metadata)) entries
    ∧ ∀ r, bitrate r = "1400k" →
           ∃ rest, playlistEntry r = "#EXT-X-STREAM-INF:BANDWIDTH=1400000," +:+ rest.
Proof.
  intros Hcode.
  destruct run_shape
    as [(w & Hrun & _)|(md & input & w1 & _ & (path & Hprobe) & _ & _ & Hrun)].
  { by rewrite Hrun in Hcode. }
  rewrite Hrun in *. clear Hrun.
  destruct (forResolutions_spec env input (padding (duration md))
              (getValidResolutions (md_width md) (md_height md)) w1)
    as (_ & evs & Htr & Hloop).
  destruct (forResolutions _ _ _ _ _ _) as [o w2]. simpl in Htr, Hloop.
  destruct Hloop as [(-> & _ & _)|(-> & _)]; [|done]. simpl in *.
  destruct (manifest_step_spec md w2) as (_ & evs' & Htr' & _ & Hout).
  destruct (manifest_step md w2) as [o3 w3]. simpl in *.
  destruct Hout as [->|[-> Hpub]]; [done|]. simpl in *.
  exists path, md, (playlistEntry <$> getValidResolutions (md_width md) (md_height md)).
  split; [rewrite Htr', Htr, !elem_of_app; auto|].
  split; [by rewrite Hpub|]. split.
  - apply Forall2_fmap_same. intros r Hr. by eapply playlistEntry_entry_of, plan_catalog.
  - intros r Hr. unfold playlistEntry. rewrite Hr. by eexists.
Qed.

(** *** The empty plan *)

Lemma filter_none {A} (P : A → Prop) `{!∀ x, Decision (P x)} (l : list A) :
  (∀ x, x ∈ l → ¬ P x) → filter P l = [].
Proof.
  induction l as [|x l IH]; intros Hl; [done|].
  rewrite filter_cons_False by (apply Hl; by left).
  apply IH. intros y Hy. apply Hl. by right.
Qed.

(** C9: when the probed dimensions fit no entry of the catalog, and the
    calls to the object store, the file system and ffprobe succeed, the
    plan is empty, ffmpeg is never run, the worker ends with status 0, and
    the master manifest in the bucket is the two header lines and nothing
    else. *)
Theorem empty_plan (metadata : Metadata) :
  (∀ tr bucket key, s3_get tr bucket key = true) →
  (∀ tr path, fs_writeFile tr path = true) →
  (∀ tr path, ffprobe tr path = Some metadata) →
  (∀ tr path, fs_mkdir tr path = true) →
  (∀ tr bucket key path, s3_put tr bucket key path = true) →
  (∀ r, r ∈ RESOLUTIONS →
        ¬ ((width r ≤ md_width metadata)%Z ∧ (height r ≤ md_height metadata)%Z)) →
  getValidResolutions (md_width metadata) (md_height metadata) = []
  ∧ (run env).1 = 0%Z
  ∧ (∀ input output options ok, Ffmpeg input output options ok ∉ trace (run env).2)
  ∧ published (run env).2 !! manifest_key env
    = Some (Text ("#EXTM3U" +:+ LF +:+ "#EXT-X-VERSION:3" +:+ LF)).
Proof.
  intros Hget Hwrite Hprobe Hmkdir Hput Hsmall.
  assert (getValidResolutions (md_width metadata) (md_height metadata) = []) as Hplan
    by by apply filter_none.
  split; [done|].
  unfold run, main, main_body, getObject, writeStream, getVideoMetadata, mkdir,
    writeFile, uploadToS3, masterPlaylistContent.
  fold (getValidResolutions (md_width metadata) (md_height metadata)).
  unfold_M. simpl. rewrite Hget, Hwrite, Hprobe, Hmkdir. simpl.
  fold (getValidResolutions (md_width metadata) (md_height metadata)).
  rewrite Hplan. simpl. unfold_M. rewrite Hwrite. simpl. rewrite Hput. simpl.
  split; [done|]. split.
  - intros input output options ok Hin.
    rewrite !elem_of_cons, elem_of_nil in Hin. by destruct_or!.
  - unfold publish, manifest_key. simpl. by rewrite !lookup_insert_eq.
Qed.

End Phases.

(** *** The theorems on a scenario *)

Import Scenario.

Lemma fail_fast_witness :
  (run (H := collaborators sd ["hls_output/240p.m3u8"]) env).1 = 1%Z
  ∧ (∀ r', r' ∈ [r360p] →
           ¬ attempted r'
               (trace (run (H := collaborators sd ["hls_output/240p.m3u8"]) env).2))
  ∧ ¬ manifest_written (trace (run (H := collaborators sd ["hls_output/240p.m3u8"]) env).2)
  ∧ ¬ manifest_uploaded env
        (trace (run (H := collaborators sd ["hls_output/240p.m3u8"]) env).2)
  ∧ uploads_remain (run (H := collaborators sd ["hls_output/240p.m3u8"]) env).2.
Proof.
  apply (fail_fast (H := collaborators sd ["hls_output/240p.m3u8"]) env
           sd [r144p] [r360p] r240p "/app/original-video.mp4").
  - vm_compute. repeat constructor.
  - reflexivity.
  - left. eexists _, _. vm_compute. repeat constructor.
Defined.

Lemma master_manifest_witness :
  ∃ path metadata entries,
    Ffprobe path (Some metadata) ∈ trace (run (H := collaborators sd []) env).2
    ∧ published (run (H := collaborators sd []) env).2 !! manifest_key env
      = Some (Text ("#EXTM3U" +:+ LF +:+ "#EXT-X-VERSION:3" +:+ LF +:+ join entries LF))
    ∧ Forall2 entry_of
        (getValidResolutions (md_width metadata) (md_height metadata)) entries
    ∧ ∀ r, bitrate r = "1400k" →
           ∃ rest, playlistEntry r = "#EXT-X-STREAM-INF:BANDWIDTH=1400000," +:+ rest.
Proof.
  apply (master_manifest (H := collaborators sd []) env). reflexivity.
Defined.

Lemma empty_plan_witness :
  getValidResolutions (md_width tiny) (md_height tiny) = []
  ∧ (run (H := collaborators tiny []) env).1 = 0%Z
  ∧ (∀ input output options ok,
       Ffmpeg input output options ok ∉ trace (run (H := collaborators tiny []) env).2)
  ∧ published (run (H := collaborators tiny []) env).2 !! manifest_key env
    = Some (Text ("#EXTM3U" +:+ LF +:+ "#EXT-X-VERSION:3" +:+ LF)).
Proof.
  apply (empty_plan (H := collaborators tiny []) env tiny); try reflexivity.
  unfold RESOLUTIONS. intros r Hr. rewrite !elem_of_cons, elem_of_nil in Hr.
  destruct_or!; try done; subst r; simpl; lia.
Defined.

End WorkerRuns.

(** ** Runs of the consumer *)

Module ConsumerFacts.
Import JS Consumer Spec.

Section Dispatch.
Context `{!Collaborators} (env : Env).

(** *** The loop never stops *)

(** Code that returns or throws, but never ends the process, and that
    makes no receive call. *)
Definition quiet (m : M (list Event) unit) : Prop :=
  ∀ tr, ((m tr).1 = Val tt ∨ (m tr).1 = Throw)
        ∧ ∃ evs, (m tr).2 = tr ++ evs ∧ Forall (λ e, is_receive e = false) evs.

Lemma quiet_ret : quiet (mret tt).
Proof. intros tr. split; [by left|]. exists []. by rewrite app_nil_r. Qed.

Lemma quiet_throw : quiet throw.
Proof. intros tr. split; [by right|]. exists []. by rewrite app_nil_r. Qed.

Lemma quiet_seq (m1 m2 : M (list Event) unit) : quiet m1 → quiet m2 → quiet (m1;; m2).
Proof.
  intros H1 H2 tr. unfold_M.
  destruct (H1 tr) as (Ho1 & evs1 & Htr1 & Hev1).
  destruct (m1 tr) as [o1 tr1]. simpl in *. subst tr1.
  destruct Ho1 as [-> | ->].
  - destruct (H2 (tr ++ evs1)) as (Ho2 & evs2 & Htr2 & Hev2).
    split; [done|]. exists (evs1 ++ evs2). rewrite Htr2, app_assoc.
    split; [done|]. by apply Forall_app.
  - split; [by right|]. by exists evs1.
Qed.

Lemma quiet_try (m : M (list Event) unit) : quiet m → quiet (try_catch m (mret tt)).
Proof.
  intros Hm tr. unfold_M. destruct (Hm tr) as (Ho & evs & Htr & Hev).
  destruct (m tr) as [o tr1]. simpl in *. subst tr1.
  destruct Ho as [-> | ->]; (split; [by left|by exists evs]).
Qed.

Lemma quiet_delete (receiptHandle : option string) :
  quiet (deleteMessageFromQueue receiptHandle).
Proof. intros tr. split; [by left|]. eexists [_]. split; [done|]. by repeat constructor. Qed.

Lemma quiet_send (command : RunTaskCommand) : quiet (ecsClient_send command).
Proof.
  intros tr. unfold ecsClient_send. split; [by destruct (ecs_send tr command); auto|].
  eexists [_]. split; [done|]. by repeat constructor.
Qed.

Lemma quiet_lift {A} (o : option A) (k : A → M (list Event) unit) :
  (∀ a, quiet (k a)) → quiet (lift o ≫= k).
Proof.
  intros Hk tr. destruct o as [a|]; [apply Hk|]. unfold lift. unfold_M. simpl.
  split; [by right|]. exists []. by rewrite app_nil_r.
Qed.

Lemma quiet_forRecord (message : Message) (record : JSValue) :
  quiet (forRecord env message record).
Proof.
  unfold forRecord. do 4 (apply quiet_lift; intros ?).
  repeat case_match; try apply quiet_ret; try apply quiet_throw.
  all: apply quiet_try, quiet_seq; [apply quiet_send|apply quiet_delete].
Qed.

Lemma quiet_forRecords (message : Message) (records : list JSValue) :
  quiet (forRecords env message records).
Proof.
  induction records as [|record records IH]; simpl; [apply quiet_ret|].
  apply quiet_seq; [apply quiet_forRecord|done].
Qed.

Lemma quiet_processMessage (message : Message) : quiet (processMessage env message).
Proof.
  unfold processMessage. repeat case_match; try apply quiet_ret.
  apply quiet_lift. intros test. destruct test; [apply quiet_delete|].
  do 2 (apply quiet_lift; intros ?). apply quiet_forRecords.
Qed.

Lemma quiet_forMessages (messages : list Message) : quiet (forMessages env messages).
Proof.
  induction messages as [|message messages IH]; simpl; [apply quiet_ret|].
  apply quiet_seq; [apply quiet_processMessage|done].
Qed.

Lemma receives_app (tr evs : list Event) :
  receives (tr ++ evs) = (receives tr + receives evs)%nat.
Proof. unfold receives. by rewrite List.filter_app, length_app. Qed.

Lemma receives_quiet (evs : list Event) :
  Forall (λ e, is_receive e = false) evs → receives evs = 0%nat.
Proof.
  unfold receives. induction 1 as [|e evs He _ IH]; simpl; [done|]. by rewrite He.
Qed.

(** Every turn of the loop ends normally, after exactly one receive call. *)
Lemma iteration_spec (tr : list Event) :
  (iteration env tr).1 = Val tt
  ∧ receives (iteration env tr).2 = S (receives tr).
Proof.
  unfold iteration. unfold_M.
  destruct (sqs_receive tr) as [| |messages]; simpl.
  - split; [done|]. rewrite receives_app. unfold receives. simpl. lia.
  - split; [done|]. rewrite receives_app. unfold receives. simpl. lia.
  - destruct (quiet_forMessages messages (tr ++ [Receive (Messages messages)]))
      as (Ho & evs & Htr & Hev).
    destruct (forMessages env messages _) as [o tr1]. simpl in *. subst tr1.
    destruct Ho as [-> | ->]; simpl; rewrite !receives_app, (receives_quiet evs Hev);
      (split; [done|]); unfold receives; simpl; lia.
Qed.

(** The loop does not stop: its first [n] turns all take place. *)
Lemma main_spec (n : nat) (tr : list Event) :
  (main env n tr).1 = Val tt
  ∧ receives (main env n tr).2 = (receives tr + n)%nat.
Proof.
  revert tr. induction n as [|n IH]; intros tr; simpl.
  - split; [done|]. unfold_M. simpl. lia.
  - unfold_M. destruct (iteration_spec tr) as [Ho Hr].
    destruct (iteration env tr) as [o tr1]. simpl in *. subst o.
    destruct (IH tr1) as [Ho' Hr']. split; [done|]. rewrite Hr'. lia.
Qed.

Lemma receive_one (message : Message) (tr : list Event) (n : nat) :
  sqs_receive tr = Messages [message] →
  (∀ tr', processMessage env message tr' = (Val tt, tr')) →
  main env (S n) tr = main env n (tr ++ [Receive (Messages [message])]).
Proof.
  intros Hrecv Hproc. simpl. unfold iteration. unfold_M. rewrite Hrecv. simpl.
  unfold_M. by rewrite Hproc.
Qed.

(** *** Messages that are left on the queue *)

(** C10: a message whose body is missing or empty is processed without
    any call: no delete and no launch.  The turn of the loop that received
    it ends there, and the loop goes on: whatever the number [n] of
    further turns, they all take place. *)
Theorem no_body (message : Message) (tr : list Event) :
  Body message = None ∨ Body message = Some EmptyString →
  sqs_receive tr = Messages [message] →
  (∀ tr', processMessage env message tr' = (Val tt, tr'))
  ∧ ∀ n, main env (S n) tr = main env n (tr ++ [Receive (Messages [message])])
         ∧ (main env (S n) tr).1 = Val tt
         ∧ receives (main env (S n) tr).2 = (receives tr + S n)%nat.
Proof.
  intros Hbody Hrecv.
  assert (∀ tr', processMessage env message tr' = (Val tt, tr')) as Hproc.
  { intros tr'. unfold processMessage. by destruct Hbody as [-> | ->]. }
  split; [done|]. intros n. split; [by apply receive_one|apply main_spec].
Qed.

(** C6: a message whose body is not valid JSON is processed without any
    call: no delete and no launch.  The turn of the loop that received it
    ends there, and the loop goes on to its next receive calls. *)
Theorem malformed_body (message : Message) (body : string) (tr : list Event) :
  Body message = Some body →
  body ≠ EmptyString →
  JSON_parse body = None →
  sqs_receive tr = Messages [message] →
  (∀ tr', processMessage env message tr' = (Val tt, tr'))
  ∧ ∀ n, main env (S n) tr = main env n (tr ++ [Receive (Messages [message])])
         ∧ (main env (S n) tr).1 = Val tt
         ∧ receives (main env (S n) tr).2 = (receives tr + S n)%nat.
Proof.
  intros Hbody Hne Hparse Hrecv.
  assert (∀ tr', processMessage env message tr' = (Val tt, tr')) as Hproc.
  { intros tr'. unfold processMessage. rewrite Hbody, Hparse.
    by destruct (String.eqb_spec body ""). }
  split; [done|]. intros n. split; [by apply receive_one|apply main_spec].
Qed.

(** *** Test events *)

Lemma isTestEvent_true (event : JSValue) :
  TestEvent event → isTestEvent event = Some true.
Proof.
  intros (fields & -> & [v Hservice] & Hevent). unfold isTestEvent. simpl.
  by rewrite Hservice, Hevent.
Qed.

Lemma isTestEvent_false (fields : gmap string JSValue) :
  ¬ TestEvent (JObject fields) → isTestEvent (JObject fields) = Some false.
Proof.
  intros Hno. unfold isTestEvent. simpl.
  destruct (fields !! "Service") as [v|] eqn:Hservice; simpl; [|done].
  destruct (fields !! "Event") as [w|] eqn:Hevent; simpl; [|done].
  destruct w as [| | | |s| |]; try done.
  destruct (String.eqb_spec s "s3:TestEvent") as [->|]; [|done].
  destruct Hno. exists fields. by eauto.
Qed.

Lemma deletes_app (tr evs : list Event) :
  deletes (tr ++ evs) = (deletes tr + deletes evs)%nat.
Proof. unfold deletes. by rewrite List.filter_app, length_app. Qed.

Lemma launches_app (tr evs : list Event) :
  launches (tr ++ evs) = (launches tr + launches evs)%nat.
Proof. unfold launches. by rewrite List.filter_app, length_app. Qed.

(** C5: a message whose body parses to a test event is processed with
    exactly one call, a delete of that message: one delete call more, no
    launch call more. *)
Theorem test_event (message : Message) (body : string) (event : JSValue)
    (tr : list Event) :
  Body message = Some body →
  body ≠ EmptyString →
  JSON_parse body = Some event →
  TestEvent event →
  processMessage env message tr
    = (Val tt,
       tr ++ [DeleteMessage (ReceiptHandle message)
                (sqs_delete tr (ReceiptHandle message))])
  ∧ deletes (processMessage env message tr).2 = S (deletes tr)
  ∧ launches (processMessage env message tr).2 = launches tr.
Proof.
  intros Hbody Hne Hparse Htest.
  assert (processMessage env message tr
          = (Val tt,
             tr ++ [DeleteMessage (ReceiptHandle message)
                      (sqs_delete tr (ReceiptHandle message))])) as Hproc.
  { unfold processMessage. rewrite Hbody, Hparse.
    destruct (String.eqb_spec body ""); [done|].
    by rewrite (isTestEvent_true event Htest). }
  split; [done|]. rewrite Hproc. simpl.
  rewrite deletes_app, launches_app. unfold deletes, launches. simpl. lia.
Qed.

(** *** Upload notifications *)

Lemma launched_app (tr evs : list Event) :
  launched (tr ++ evs) = (launched tr + launched evs)%nat.
Proof. unfold launched. by rewrite List.filter_app, length_app. Qed.

(** An accepted record is launched; the message is deleted right after a
    launch that succeeded, and not after one that failed.  Either way the
    loop over the records goes on. *)
Lemma forRecord_accepted (message : Message) (record : JSValue) (key : string)
    (bucketName : JSValue) (tr : list Event) :
  accepted record key bucketName →
  forRecord env message record tr
  = (Val tt,
     if ecs_send tr (runTaskCommand env key bucketName)
     then tr ++ [RunTask (runTaskCommand env key bucketName) true;
                 DeleteMessage (ReceiptHandle message)
                   (sqs_delete (tr ++ [RunTask (runTaskCommand env key bucketName) true])
                      (ReceiptHandle message))]
     else tr ++ [RunTask (runTaskCommand env key bucketName) false]).
Proof.
  intros (fields & s3 & bucket & object & -> & Hs3 & Hbucket & Hname & Htruthy
          & Hobject & Hkey & Hne & Hformat).
  unfold forRecord, lift, ecsClient_send, deleteMessageFromQueue. unfold_M. simpl.
  rewrite Hs3. simpl. rewrite Hbucket, Hobject. simpl. rewrite Hkey, Hname. simpl.
  rewrite Htruthy. simpl. destruct (String.eqb_spec key ""); [done|]. simpl.
  rewrite bool_decide_eq_true_2 by done. simpl.
  destruct (ecs_send tr _); simpl; [|done]. by rewrite <- app_assoc.
Qed.

Lemma forRecord_skipped (message : Message) (record : JSValue) (tr : list Event) :
  skipped record → forRecord env message record tr = (Val tt, tr).
Proof.
  intros (fields & s3 & bucket & object & -> & Hs3 & Hbucket & Hobject & Hwhy).
  unfold forRecord, lift. unfold_M. simpl.
  rewrite Hs3. simpl. rewrite Hbucket, Hobject. simpl.
  destruct (truthy (default JUndefined (bucket !! "name"))) eqn:Hname; simpl; [|done].
  destruct (truthy (default JUndefined (object !! "key"))) eqn:Hkey; simpl; [|done].
  destruct Hwhy as [Hwhy|[Hwhy|(key & Hk & Hformat)]]; [done|done|].
  rewrite Hk. simpl. by rewrite bool_decide_eq_false_2 by done.
Qed.

Lemma forRecords_dispatched (message : Message) (records : list JSValue) (tr : list Event) :
  Forall (λ record, (∃ key bucketName, accepted record key bucketName) ∨ skipped record)
         records →
  ∃ n evs, forRecords env message records tr = (Val tt, tr ++ evs)
           ∧ dispatched env (ReceiptHandle message) records n evs
           ∧ ((∀ tr' command, ecs_send tr' command = true) → launched evs = n).
Proof.
  intros Hall. revert tr.
  induction Hall as [|record records [(key & name & Hacc)|Hskip] _ IH]; intros tr; simpl.
  - exists 0%nat, []. rewrite app_nil_r. split; [done|]. split; [constructor|done].
  - unfold_M. rewrite (forRecord_accepted message record key name tr Hacc).
    destruct (ecs_send tr _) eqn:Hsend.
    + destruct (IH (tr ++ [RunTask (runTaskCommand env key name) true;
                           DeleteMessage (ReceiptHandle message)
                             (sqs_delete (tr ++ [RunTask (runTaskCommand env key name) true])
                                (ReceiptHandle message))]))
        as (n & evs & -> & Hdis & Hok).
      eexists (S n), (_ :: _ :: evs). rewrite <- app_assoc. split; [done|].
      split; [by constructor|]. intros Hsends. unfold launched in *. simpl.
      by rewrite (Hok Hsends).
    + destruct (IH (tr ++ [RunTask (runTaskCommand env key name) false]))
        as (n & evs & -> & Hdis & Hok).
      eexists (S n), (_ :: evs). rewrite <- app_assoc. split; [done|].
      split; [by constructor|]. intros Hsends. by rewrite Hsends in Hsend.
  - unfold_M. rewrite (forRecord_skipped message record tr Hskip).
    destruct (IH tr) as (n & evs & -> & Hdis & Hok).
    exists n, evs. split; [done|]. split; [by constructor|done].
Qed.

Lemma dispatched_counts (receiptHandle : option string) (records : list JSValue)
    (n : nat) (evs : list Event) :
  dispatched env receiptHandle records n evs →
  launches evs = n ∧ deletes evs = launched evs.
Proof.
  unfold launches, deletes, launched.
  induction 1 as [|? ? ? ? ? ? ? _ _ [IH1 IH2]|? ? ? ? ? ? _ _ [IH1 IH2]|? ? ? ? _ _ IH];
    simpl; lia.
Qed.

(** C7: for a message whose body parses to an upload notification, not a
    test event, whose records are accepted, [n] of them, or skipped: the
    calls made are, for each accepted record in turn, one launch, followed
    at once by one delete of the message when the launch succeeded and by
    nothing when it failed, after which the next record is taken.  So
    there are [n] launch calls and as many delete calls as launches that
    succeeded: [n] when they all do. *)
Theorem per_record_delete (message : Message) (body : string)
    (fields : gmap string JSValue) (records : list JSValue) (tr : list Event) :
  Body message = Some body →
  body ≠ EmptyString →
  JSON_parse body = Some (JObject fields) →
  ¬ TestEvent (JObject fields) →
  fields !! "Records" = Some (JArray records) →
  Forall (λ record, (∃ key bucketName, accepted record key bucketName) ∨ skipped record)
         records →
  ∃ n evs, processMessage env message tr = (Val tt, tr ++ evs)
           ∧ dispatched env (ReceiptHandle message) records n evs
           ∧ launches evs = n
           ∧ deletes evs = launched evs
           ∧ ((∀ tr' command, ecs_send tr' command = true) → deletes evs = n).
Proof.
  intros Hbody Hne Hparse Htest Hrecords Hall.
  destruct (forRecords_dispatched message records tr Hall)
    as (n & evs & Hrun & Hdis & Hok).
  exists n, evs. destruct (dispatched_counts _ _ _ _ Hdis) as [Hlaunches Hdeletes].
  split; [|split; [done|split; [done|split; [done|]]]].
  - unfold processMessage. rewrite Hbody, Hparse.
    destruct (String.eqb_spec body ""); [done|].
    unfold lift. unfold_M. rewrite (isTestEvent_false fields Htest). simpl.
    by rewrite Hrecords.
  - intros Hsends. rewrite Hdeletes. by apply Hok.
Qed.

End Dispatch.

(** *** The theorems on a scenario *)

Import QueueScenario.

Lemma no_body_witness :
  (∀ tr', processMessage (H := collaborators [message None] []) env (message None) tr'
          = (Val tt, tr'))
  ∧ ∀ n, main (H := collaborators [message None] []) env (S n) []
         = main (H := collaborators [message None] []) env n
             ([] ++ [Receive (Messages [message None])])
         ∧ (main (H := collaborators [message None] []) env (S n) []).1 = Val tt
         ∧ receives (main (H := collaborators [message None] []) env (S n) []).2
           = (receives [] + S n)%nat.
Proof.
  apply (no_body (H := collaborators [message None] []) env (message None) []).
  - left. reflexivity.
  - reflexivity.
Defined.

Lemma malformed_body_witness :
  (∀ tr', processMessage (H := collaborators [message (Some "not json")] []) env
            (message (Some "not json")) tr'
          = (Val tt, tr'))
  ∧ ∀ n, main (H := collaborators [message (Some "not json")] []) env (S n) []
         = main (H := collaborators [message (Some "not json")] []) env n
             ([] ++ [Receive (Messages [message (Some "not json")])])
         ∧ (main (H := collaborators [message (Some "not json")] []) env (S n) []).1
           = Val tt
         ∧ receives (main (H := collaborators [message (Some "not json")] []) env (S n) []).2
           = (receives [] + S n)%nat.
Proof.
  apply (malformed_body (H := collaborators [message (Some "not json")] []) env
           (message (Some "not json")) "not json" []).
  - reflexivity.
  - discriminate.
  - reflexivity.
  - reflexivity.
Defined.

Lemma test_event_witness :
  processMessage (H := collaborators [] []) env (message (Some test_body)) []
    = (Val tt,
       [] ++ [DeleteMessage (ReceiptHandle (message (Some test_body)))
                (sqs_delete (Collaborators := collaborators [] []) []
                   (ReceiptHandle (message (Some test_body))))])
  ∧ deletes (processMessage (H := collaborators [] []) env (message (Some test_body)) []).2
    = S (deletes [])
  ∧ launches (processMessage (H := collaborators [] []) env (message (Some test_body)) []).2
    = launches [].
Proof.
  apply (test_event (H := collaborators [] []) env (message (Some test_body)) test_body
           (JObject (fields_of test_body)) []).
  - reflexivity.
  - by vm_compute.
  - by vm_compute.
  - exists (fields_of test_body). split; [reflexivity|]. split; [|by vm_compute].
    vm_compute. by eexists.
Defined.

Lemma per_record_delete_witness :
  ∃ n evs,
    processMessage (H := collaborators [] ["videos/bad.mov"]) env (message (Some uploads)) []
      = (Val tt, [] ++ evs)
    ∧ dispatched (H := collaborators [] ["videos/bad.mov"]) env
        (ReceiptHandle (message (Some uploads))) (records_of uploads) n evs
    ∧ launches evs = n
    ∧ deletes evs = launched evs
    ∧ ((∀ tr' command,
          ecs_send (Collaborators := collaborators [] ["videos/bad.mov"]) tr' command = true) →
       deletes evs = n).
Proof.
  apply (per_record_delete (H := collaborators [] ["videos/bad.mov"]) env
           (message (Some uploads)) uploads (fields_of uploads) (records_of uploads) []).
  - reflexivity.
  - by vm_compute.
  - by vm_compute.
  - intros (fields & Heq & Hservice & _). injection Heq as <-.
    vm_compute in Hservice. by destruct Hservice.
  - by vm_compute.
  - repeat apply Forall_cons_2; [left|left|right|left|apply Forall_nil_2].
    1, 2, 4: eexists _, _, _, _, _, _.
    4: eexists _, _, _, _.
    all: repeat split; try (vm_compute; reflexivity); try (by vm_compute).
    1, 2, 3: vm_compute; repeat constructor.
    right. right. eexists. split; [vm_compute; reflexivity|].
    apply (bool_decide_unpack _). by vm_compute.
Defined.

End ConsumerFacts.

(** ** More on the runs of the worker *)

Module WorkerMore.
Import JS JSFacts Transcoder Spec Behaviour WorkerRuns.

#[local] Arguments String.append !_ _ / : simpl nomatch.

(** *** Invariants of code built from the primitives *)

Section Keeps.
Context {W : Type} (I : W → Prop).

(** The code [m] keeps the invariant [I], however it ends. *)
Definition keeps {A} (m : M W A) : Prop := ∀ w, I w → I (m w).2.

Lemma keeps_ret {A} (a : A) : keeps (mret a).
Proof. by intros w. Qed.

Lemma keeps_throw {A} : keeps (@throw W A).
Proof. by intros w. Qed.

Lemma keeps_exit {A} (code : Z) : keeps (@exit W A code).
Proof. by intros w. Qed.

Lemma keeps_bind {A B} (m : M W A) (k : A → M W B) :
  keeps m → (∀ a, keeps (k a)) → keeps (m ≫= k).
Proof.
  intros Hm Hk w Hw. unfold_M. specialize (Hm w Hw).
  destruct (m w) as [[a| |code] w1]; simpl in *; [by apply Hk|done|done].
Qed.

Lemma keeps_try_catch {A} (m handler : M W A) :
  keeps m → keeps handler → keeps (try_catch m handler).
Proof.
  intros Hm Hh w Hw. unfold_M. specialize (Hm w Hw).
  destruct (m w) as [[a| |code] w1]; simpl in *; [done|by apply Hh|done].
Qed.

Lemma keeps_Promise_all (ms : list (M W unit)) :
  Forall keeps ms → keeps (Promise_all ms).
Proof.
  induction 1 as [|m ms Hm _ IH]; intros w Hw; simpl; [done|].
  specialize (Hm w Hw). destruct (m w) as [o w1]. simpl in Hm.
  specialize (IH w1 Hm). by destruct (Promise_all ms w1) as [o' w2].
Qed.

End Keeps.

Section Sound.
Context `{!Collaborators} (env : Env).

(** What holds of the world at every point of a run. *)
Definition sound (w : World) : Prop :=
  Forall (allowed env) (trace w) ∧ bucket_exact w.

Lemma sound_initial : sound initial.
Proof.
  split; [constructor|]. intros key. simpl. rewrite lookup_empty. split.
  - by intros [? ?].
  - intros (? & ? & Hin). by apply elem_of_nil in Hin.
Qed.

Lemma sound_emit (e : Event) (w : World) :
  allowed env e → (∀ bucket key path, e ≠ PutObject bucket key path true) →
  sound w → sound (emit e w).
Proof.
  intros He Hput [Hall Hexact]. split; simpl.
  - apply Forall_app. split; [done|by constructor].
  - intros key. simpl. rewrite (Hexact key). split.
    + intros (bucket & path & Hin). exists bucket, path. apply elem_of_app. by left.
    + intros (bucket & path & Hin). exists bucket, path.
      apply elem_of_app in Hin as [Hin|Hin]; [done|].
      apply list_elem_of_singleton in Hin. by destruct (Hput bucket key path).
Qed.

Lemma sound_store_text (path content : string) (w : World) :
  sound w → sound (store_text path content w).
Proof. done. Qed.

Lemma sound_uploadToS3 (filePath rest : string) :
  keeps sound
    (uploadToS3 env filePath ("hls/" +:+ getFormattedKey (KEY env) +:+ "/" +:+ rest)).
Proof.
  intros w Hw. unfold uploadToS3. destruct (s3_put _ _ _ _) eqn:Hput; simpl.
  - destruct Hw as [Hall Hexact]. split; simpl.
    + apply Forall_app. split; [done|]. constructor; [|done]. simpl. eauto.
    + intros key. unfold publish. simpl.
      destruct (decide (key = "hls/" +:+ getFormattedKey (KEY env) +:+ "/" +:+ rest))
        as [->|Hne].
      * rewrite lookup_insert_eq. split; [|by eauto]. intros _.
        eexists _, _. apply elem_of_app. right. by left.
      * rewrite lookup_insert_ne by done. rewrite (Hexact key). split.
        -- intros (bucket & path & Hin). exists bucket, path. apply elem_of_app. by left.
        -- intros (bucket & path & Hin). exists bucket, path.
           apply elem_of_app in Hin as [Hin|Hin]; [done|].
           apply list_elem_of_singleton in Hin. injection Hin as _ Hk _.
           destruct Hne. exact Hk.
  - apply sound_emit; [simpl; eauto|by intros ? ? ? [=]|done].
Qed.

Lemma sound_getObject : keeps sound (getObject (BUCKET env) (KEY env)).
Proof. intros w Hw. unfold getObject. simpl. by apply sound_emit. Qed.

Lemma sound_writeStream (path : string) : keeps sound (writeStream path).
Proof. intros w Hw. unfold writeStream. simpl. by apply sound_emit. Qed.

Lemma sound_writeFile (path content : string) : keeps sound (writeFile path content).
Proof.
  intros w Hw. unfold writeFile. destruct (fs_writeFile _ _); simpl.
  - by apply sound_store_text, sound_emit.
  - by apply sound_emit.
Qed.

Lemma sound_getVideoMetadata (path : string) : keeps sound (getVideoMetadata path).
Proof. intros w Hw. unfold getVideoMetadata. simpl. by apply sound_emit. Qed.

Lemma sound_mkdir (path : string) : keeps sound (mkdir path).
Proof. intros w Hw. unfold mkdir. simpl. by apply sound_emit. Qed.

Lemma sound_readdir (dir : string) : keeps sound (readdir dir).
Proof. intros w Hw. unfold readdir. simpl. by apply sound_emit. Qed.

Lemma sound_uploadHLSFiles (outputDir : string) (r : Resolution) :
  keeps sound (uploadHLSFiles env outputDir r).
Proof.
  unfold uploadHLSFiles. apply keeps_bind; [apply sound_readdir|]. intros files.
  apply keeps_Promise_all. apply Forall_fmap, Forall_forall. intros file _.
  apply (sound_uploadToS3 _ (name r +:+ "/" +:+ file)).
Qed.

Lemma sound_transcode (input outputDir : string) (r : Resolution) (pad : nat) :
  keeps sound (transcode env input outputDir r pad).
Proof.
  intros w Hw. unfold transcode. destruct (ffmpeg_run _ _ _ _); simpl.
  - by apply sound_uploadHLSFiles, sound_emit.
  - by apply sound_emit.
Qed.

Lemma sound_forResolutions (input outputDir : string) (pad : nat) (rs : list Resolution) :
  keeps sound (forResolutions env input outputDir pad rs).
Proof.
  induction rs as [|r rs IH]; simpl; [apply keeps_ret|].
  apply keeps_bind; [|done]. apply keeps_try_catch; [apply sound_transcode|apply keeps_exit].
Qed.

Lemma sound_main : keeps sound (main env).
Proof.
  unfold main, main_body. apply keeps_try_catch; [|apply keeps_exit].
  apply keeps_bind; [apply sound_getObject|intros _].
  apply keeps_bind; [apply sound_writeStream|intros _].
  apply keeps_bind; [apply sound_getVideoMetadata|intros metadata].
  apply keeps_bind; [apply sound_mkdir|intros _].
  apply keeps_bind; [apply sound_forResolutions|intros _].
  apply keeps_bind; [apply sound_writeFile|intros _].
  apply (sound_uploadToS3 _ "master.m3u8").
Qed.

Lemma run_sound : sound (run env).2.
Proof.
  pose proof (sound_main initial sound_initial) as Hs. unfold run.
  by destruct (main env initial) as [[[]| |code] w].
Qed.

End Sound.
(** *** The files of a rendition *)

Lemma drop_suffix (n : nat) (s : string) : ∃ a, s = a +:+ drop n s.
Proof.
  revert s. induction n as [|n IH]; intros s; [by exists ""|].
  destruct s as [|c s]; [by exists ""|].
  destruct (IH s) as [a Ha]. exists (String c a). simpl. by f_equal.
Qed.

Lemma endsWith_spec (s p : string) : endsWith s p = true ↔ ∃ a, s = a +:+ p.
Proof.
  unfold endsWith. rewrite andb_true_iff, String.eqb_eq, Nat.leb_le. split.
  - intros [Hdrop _].
    destruct (drop_suffix (String.length s - String.length p) s) as [a Ha].
    exists a. by rewrite Hdrop in Ha.
  - intros [a ->]. rewrite length_append.
    replace (String.length a + String.length p - String.length p)%nat
      with (String.length a) by lia.
    split; [apply drop_append|lia].
Qed.

(** The test [uploadHLSFiles] applies to a file name says that the file
    is one of the rendition. *)
Lemma hls_file_test (r : Resolution) (file : string) :
  startsWith file (name r) && (endsWith file ".m3u8" || endsWith file ".ts") = true
  ↔ hls_file r file.
Proof.
  unfold hls_file.
  by rewrite andb_true_iff, orb_true_iff, startsWith_spec, !endsWith_spec.
Qed.

Lemma Promise_all_cons {W} (m : M W unit) (ms : list (M W unit)) (w : W) :
  Promise_all (m :: ms) w
  = (match (m w).1 with Val _ => (Promise_all ms (m w).2).1 | o => o end,
     (Promise_all ms (m w).2).2).
Proof.
  simpl. destruct (m w) as [o w1]. simpl.
  destruct (Promise_all ms w1) as [o' w2]. by destruct o.
Qed.

Section Uploads.
Context `{!Collaborators} (env : Env).

Lemma succeeded_dec (e : Event) : succeeded e ∨ ¬ succeeded e.
Proof.
  destruct e as [? ? []|? []|? []|? []|? ? ? []|? []|? ? ? []]; simpl;
    first [by left; eauto|by right; intros [? ?]|by right].
Qed.

(** All the uploads of a rendition are started, in the order of the
    files; the whole fails when one of them does. *)
Lemma uploads_trace (r : Resolution) (files : list string) (w : World) :
  let res :=
    Promise_all
      ((λ file, uploadToS3 env (path_join "hls_output" file) (object_key env r file))
         <$> files) w in
  ∃ evs, trace res.2 = trace w ++ evs
         ∧ Forall2 (upload_of env r) files evs
         ∧ (res.1 = Val tt ∧ Forall succeeded evs
            ∨ res.1 = Throw ∧ Exists (λ e, ¬ succeeded e) evs).
Proof.
  revert w. induction files as [|file files IH]; intros w.
  - exists []. simpl. rewrite app_nil_r. split; [done|]. split; [constructor|]. by left.
  - rewrite fmap_cons, Promise_all_cons.
    destruct (IH (uploadToS3 env (path_join "hls_output" file) (object_key env r file) w).2)
      as (evs & Htr & Hall & Hout).
    destruct (Promise_all _ _) as [o' w2]. simpl in Htr, Hout. simpl.
    exists (PutObject (PROD_BUCKET env) (object_key env r file)
              (path_join "hls_output" file)
              (s3_put (trace w) (PROD_BUCKET env) (object_key env r file)
                 (path_join "hls_output" file)) :: evs).
    unfold uploadToS3 in *.
    destruct (s3_put (trace w) _ _ _) eqn:Hput; simpl in *.
    + rewrite Htr, <- app_assoc. split; [done|].
      split; [constructor; [by eexists|done]|].
      destruct Hout as [[-> Hok]|[-> Hex]]; [left|right]; (split; [done|]).
      * by constructor.
      * by apply Exists_cons_tl.
    + rewrite Htr, <- app_assoc. split; [done|].
      split; [constructor; [by eexists|done]|].
      right. split; [done|]. apply Exists_cons_hd. simpl. congruence.
Qed.

Lemma uploadHLSFiles_trace (r : Resolution) (w : World) (files : list string) :
  fs_readdir (trace w) "hls_output" = Some files →
  let res := uploadHLSFiles env "hls_output" r w in
  ∃ evs,
    trace res.2 = trace w ++ Readdir "hls_output" (Some files) :: evs
    ∧ Forall2 (upload_of env r)
        (List.filter
           (λ file, startsWith file (name r)
                    && (endsWith file ".m3u8" || endsWith file ".ts")) files) evs
    ∧ (res.1 = Val tt ∧ Forall succeeded evs
       ∨ res.1 = Throw ∧ Exists (λ e, ¬ succeeded e) evs).
Proof.
  intros Hdir. unfold uploadHLSFiles, readdir. unfold_M. rewrite Hdir.
  match goal with
  | |- context [List.filter ?test files] =>
      destruct (uploads_trace r (List.filter test files)
                  (emit (Readdir "hls_output" (Some files)) w))
        as (evs & Htr & Hall & Hout)
  end.
  exists evs. unfold object_key in *. simpl in *. rewrite Htr, <- app_assoc. by eauto.
Qed.

(** X1: [uploadHLSFiles] lists the output directory; when that fails it
    throws without any upload.  Otherwise it starts one upload for each
    listed file of the rendition (name starting with the rendition's name,
    ending in .m3u8 or .ts), in the order of the listing and for no other
    file, to the key hls/prefix/name/file, every one of them even when an
    earlier one has failed; it returns when all have succeeded and throws
    when one has failed. *)
Theorem uploadHLSFiles_uploads (r : Resolution) (w : World) :
  let res := uploadHLSFiles env "hls_output" r w in
  match fs_readdir (trace w) "hls_output" with
  | None => res = (Throw, emit (Readdir "hls_output" None) w)
  | Some files =>
      ∃ selected evs,
        trace res.2 = trace w ++ Readdir "hls_output" (Some files) :: evs
        ∧ selected `sublist_of` files
        ∧ (∀ file, file ∈ selected ↔ file ∈ files ∧ hls_file r file)
        ∧ Forall2 (upload_of env r) selected evs
        ∧ (res.1 = Val tt ∧ Forall succeeded evs
           ∨ res.1 = Throw ∧ Exists (λ e, ¬ succeeded e) evs)
  end.
Proof.
  destruct (fs_readdir (trace w) "hls_output") as [files|] eqn:Hdir.
  - destruct (uploadHLSFiles_trace r w files Hdir) as (evs & Htr & Hall & Hout).
    set (test := λ file, startsWith file (name r)
                         && (endsWith file ".m3u8" || endsWith file ".ts")) in *.
    exists (List.filter test files), evs.
    split; [done|]. split; [|split; [|done]].
    + clear. induction files as [|file files IH]; simpl; [constructor|].
      destruct (test file); by constructor.
    + intros file. rewrite !list_elem_of_In, List.filter_In, <- hls_file_test. tauto.
  - unfold uploadHLSFiles, readdir. unfold_M. by rewrite Hdir.
Qed.

(** *** The calls of ffmpeg *)

Lemma ffmpeg_calls_app (tr evs : list Event) :
  ffmpeg_calls (tr ++ evs) = ffmpeg_calls tr ++ ffmpeg_calls evs.
Proof. apply omap_app. Qed.

Lemma uploads_no_ffmpeg (r : Resolution) (files : list string) (evs : list Event) :
  Forall2 (upload_of env r) files evs →
  ffmpeg_calls evs = [] ∧ Forall (of_rendition env r) evs.
Proof.
  induction 1 as [|file e files evs [ok ->] _ [IH1 IH2]]; [by split|].
  split; [done|]. constructor; [constructor|done].
Qed.

(** One turn of the loop: ffmpeg is called once, with the input, the
    output and the options of the rendition; the turn throws exactly when
    a call has failed. *)
Lemma transcode_trace (input : string) (r : Resolution) (pad : nat) (w : World) :
  let res := transcode env input "hls_output" r pad w in
  ∃ evs, trace res.2 = trace w ++ evs
         ∧ ffmpeg_calls evs = [ffmpeg_call input pad r]
         ∧ Forall (of_rendition env r) evs
         ∧ (res.1 = Val tt ∧ Forall succeeded evs
            ∨ res.1 = Throw ∧ Exists (λ e, ¬ succeeded e) evs).
Proof.
  unfold transcode.
  change ("hls_output" +:+ "/" +:+ name r +:+ ".m3u8") with (output_of r).
  destruct (ffmpeg_run _ _ _ _) eqn:Hrun.
  - set (w1 := emit (Ffmpeg input (output_of r) (ffmpegOptions "hls_output" r pad) true) w).
    destruct (fs_readdir (trace w1) "hls_output") as [files|] eqn:Hdir.
    + destruct (uploadHLSFiles_trace r w1 files Hdir) as (evs & Htr & Hall & Hout).
      destruct (uploads_no_ffmpeg _ _ _ Hall) as [Hcalls Hof].
      eexists (_ :: _ :: evs). rewrite Htr. subst w1. simpl. rewrite <- app_assoc.
      split; [done|]. split; [simpl; by rewrite Hcalls|].
      split; [by repeat constructor|].
      destruct Hout as [[-> Hok]|[-> Hex]]; [left|right]; (split; [done|]).
      * constructor; [done|]. constructor; [by eexists|done].
      * by do 2 apply Exists_cons_tl.
    + unfold uploadHLSFiles, readdir. unfold_M. rewrite Hdir. subst w1. simpl.
      eexists [_; _]. rewrite <- app_assoc. split; [done|]. split; [done|].
      split; [by repeat constructor|]. right. split; [done|].
      apply Exists_cons_tl, Exists_cons_hd. simpl. by intros [? ?].
  - simpl. eexists [_]. split; [done|]. split; [done|].
    split; [by repeat constructor|]. right. split; [done|].
    apply Exists_cons_hd. simpl. congruence.
Qed.

Lemma of_renditions_mono (rs rs' : list Resolution) (evs : list Event) :
  rs ⊆ rs' → Forall (of_renditions env rs) evs → Forall (of_renditions env rs') evs.
Proof.
  intros Hsub Hevs. eapply Forall_impl; [exact Hevs|].
  intros e (r & Hr & He). exists r. split; [by apply Hsub|done].
Qed.

(** The loop: ffmpeg is called for the renditions in order, once each,
    up to and including the first one for which a call fails. *)
Lemma forResolutions_trace (input : string) (pad : nat) (rs : list Resolution) (w : World) :
  let res := forResolutions env input "hls_output" pad rs w in
  ∃ evs, trace res.2 = trace w ++ evs
    ∧ (res.1 = Val tt ∧ Forall succeeded evs ∧ Forall (of_renditions env rs) evs
       ∧ ffmpeg_calls evs = ffmpeg_call input pad <$> rs
       ∨ res.1 = Exit 1
         ∧ ∃ pre r post,
             rs = pre ++ r :: post
             ∧ Forall (of_renditions env (pre ++ [r])) evs
             ∧ ffmpeg_calls evs = ffmpeg_call input pad <$> (pre ++ [r])
             ∧ Exists (λ e, ¬ succeeded e) evs).
Proof.
  revert w. induction rs as [|r rs IH]; intros w; simpl.
  - exists []. rewrite app_nil_r. split; [done|]. left. by repeat split.
  - unfold_M.
    destruct (transcode_trace input r pad w) as (evs & Htr & Hcalls & Hof & Hout).
    destruct (transcode env input "hls_output" r pad w) as [o w1]. simpl in *.
    destruct Hout as [[-> Hok]|[-> Hex]].
    + destruct (IH w1) as (evs' & Htr' & Hcases).
      exists (evs ++ evs'). rewrite Htr', Htr, app_assoc. split; [done|].
      rewrite ffmpeg_calls_app, Hcalls.
      destruct Hcases as [(Ho & Hok' & Hof' & Hcalls')|(Ho & Hex)].
      * left. split; [done|]. split; [by apply Forall_app|]. split.
        -- apply Forall_app. split; [by apply of_renditions_one|by apply of_renditions_cons].
        -- by rewrite Hcalls'.
      * right. split; [done|].
        destruct Hex as (pre & r' & post & -> & Hof' & Hcalls' & Hex).
        exists (r :: pre), r', post. split; [done|]. split.
        -- apply Forall_app. split; [by apply of_renditions_one|by apply of_renditions_cons].
        -- split; [by rewrite Hcalls'|]. apply Exists_app. by right.
    + simpl. exists evs. split; [done|]. right. split; [done|].
      exists [], r, rs. split; [done|]. split; [by apply of_renditions_one|]. done.
Qed.

(** *** The shape of a run *)

(** The calls before the loop, when they all succeed. *)
Definition setup_trace (metadata : Metadata) : list Event :=
  [GetObject (BUCKET env) (KEY env) true;
   WriteFile ("original-video" +:+ getFileExtension (KEY env)) true;
   Ffprobe (path_resolve ("original-video" +:+ getFileExtension (KEY env)))
     (Some metadata);
   Mkdir "hls_output" true].

(** The calls for the manifest: the write, then the upload. *)
Definition manifest_trace (written uploaded : bool) : list Event :=
  WriteFile "hls_output/master.m3u8" written
    :: (if written
        then [PutObject (PROD_BUCKET env) (manifest_key env) "hls_output/master.m3u8"
                uploaded]
        else []).

Lemma manifest_step_cases (metadata : Metadata) (w : World) :
  let res := manifest_step env metadata w in
  ∃ written uploaded,
    trace res.2 = trace w ++ manifest_trace written uploaded
    ∧ res.1 = (if written && uploaded then Val tt else Throw).
Proof.
  unfold manifest_step, writeFile, uploadToS3, manifest_trace. unfold_M.
  destruct (fs_writeFile (trace w) _) eqn:Hwrite; simpl.
  - match goal with |- context [s3_put ?tr ?b ?k ?f] => destruct (s3_put tr b k f) end;
      simpl; [exists true, true|exists true, false]; simpl; by rewrite <- app_assoc.
  - by exists false, false.
Qed.

Lemma run_setup :
  (∃ w, run env = (1%Z, w) ∧ Forall prelude_event (trace w)
        ∧ Exists (λ e, ¬ succeeded e) (trace w))
  ∨ ∃ metadata w1,
      trace w1 = setup_trace metadata
      ∧ run env
        = finish env metadata
            (forResolutions env
               (path_resolve ("original-video" +:+ getFileExtension (KEY env)))
               "hls_output" (padding (duration metadata))
               (getValidResolutions (md_width metadata) (md_height metadata)) w1).
Proof.
  unfold run, main, main_body, getObject, writeStream, getVideoMetadata, mkdir.
  unfold_M. simpl.
  destruct (s3_get _ _ _) eqn:Hget; simpl.
  2:{ left. eexists. split; [done|]. simpl. split; [by repeat constructor|].
      apply Exists_cons_hd. simpl. congruence. }
  destruct (fs_writeFile _ _) eqn:Hwrite; simpl.
  2:{ left. eexists. split; [done|]. simpl. split; [repeat constructor; by eexists|].
      apply Exists_cons_tl, Exists_cons_hd. simpl. congruence. }
  destruct (ffprobe _ _) as [metadata|] eqn:Hprobe; simpl.
  2:{ left. eexists. split; [done|]. simpl. split; [repeat constructor; by eexists|].
      do 2 apply Exists_cons_tl. apply Exists_cons_hd. simpl. by intros [? ?]. }
  destruct (fs_mkdir _ _) eqn:Hmkdir; simpl.
  2:{ left. eexists. split; [done|]. simpl. split; [repeat constructor; by eexists|].
      do 3 apply Exists_cons_tl. apply Exists_cons_hd. simpl. congruence. }
  right. exists metadata.
  eexists (emit (Mkdir "hls_output" true)
       (emit (Ffprobe (path_resolve ("original-video" +:+ getFileExtension (KEY env)))
                (Some metadata))
          (emit (WriteFile ("original-video" +:+ getFileExtension (KEY env)) true)
             (emit (GetObject (BUCKET env) (KEY env) true) initial)))).
  split; [done|].
  unfold finish, manifest_step, writeFile, uploadToS3, manifest_key. unfold_M. simpl.
  destruct (forResolutions _ _ _ _ _ _) as [[[]| |code] w2]; simpl; [|done|done].
  destruct (fs_writeFile (trace w2) _); simpl; [|done].
  match goal with |- context [s3_put ?tr ?b ?k ?f] => destruct (s3_put tr b k f) end.
  all: done.
Qed.

(** Every run is of one of these kinds: a step before the loop fails; or
    the loop stops at a rendition; or the loop goes through and the
    manifest is written and uploaded, each of which may fail. *)
Lemma run_cases :
  (∃ w, run env = (1%Z, w) ∧ Forall prelude_event (trace w)
        ∧ Exists (λ e, ¬ succeeded e) (trace w))
  ∨ ∃ metadata evs rest,
      let plan := getValidResolutions (md_width metadata) (md_height metadata) in
      let call :=
        ffmpeg_call (path_resolve ("original-video" +:+ getFileExtension (KEY env)))
          (padding (duration metadata)) in
      trace (run env).2 = setup_trace metadata ++ evs ++ rest
      ∧ ((run env).1 = 1%Z ∧ rest = []
         ∧ (∃ pre r post, plan = pre ++ r :: post
                          ∧ Forall (of_renditions env (pre ++ [r])) evs
                          ∧ ffmpeg_calls evs = call <$> (pre ++ [r]))
         ∧ Exists (λ e, ¬ succeeded e) evs
         ∨ Forall succeeded evs ∧ Forall (of_renditions env plan) evs
           ∧ ffmpeg_calls evs = call <$> plan
           ∧ ∃ written uploaded,
               rest = manifest_trace written uploaded
               ∧ (run env).1 = (if written && uploaded then 0%Z else 1%Z)).
Proof.
  destruct run_setup as [Hfail|(metadata & w1 & Hw1 & Hrun)]; [by left|right].
  exists metadata. rewrite Hrun. clear Hrun.
  destruct (forResolutions_trace
              (path_resolve ("original-video" +:+ getFileExtension (KEY env)))
              (padding (duration metadata))
              (getValidResolutions (md_width metadata) (md_height metadata)) w1)
    as (evs & Htr & Hloop).
  destruct (forResolutions _ _ _ _ _ _) as [o w2]. simpl in Htr, Hloop.
  rewrite Hw1 in Htr.
  destruct Hloop as [(-> & Hok & Hof & Hcalls)|(-> & pre & r & post & Hplan & Hof & Hcalls & Hex)].
  - destruct (manifest_step_cases metadata w2) as (written & uploaded & Htr' & Hout).
    exists evs, (manifest_trace written uploaded). simpl.
    destruct (manifest_step env metadata w2) as [o3 w3]. simpl in Htr', Hout. subst o3.
    assert (trace w3 = setup_trace metadata ++ evs ++ manifest_trace written uploaded)
      as Hfinal by by rewrite Htr', Htr, <- app_assoc.
    destruct (written && uploaded) eqn:Hboth; simpl; (split; [done|]); right;
      (split; [done|]); (split; [done|]); (split; [done|]);
      exists written, uploaded; by rewrite Hboth.
  - exists evs, []. simpl. rewrite app_nil_r. split; [done|]. left. eauto 10.
Qed.

(** *** What the calls of each phase can be *)

Lemma setup_prelude (metadata : Metadata) : Forall prelude_event (setup_trace metadata).
Proof. unfold setup_trace. repeat constructor. by eexists. Qed.

Lemma setup_succeeded (metadata : Metadata) : Forall succeeded (setup_trace metadata).
Proof. unfold setup_trace. repeat constructor. by eexists. Qed.

Lemma ffmpeg_calls_prelude (tr : list Event) :
  Forall prelude_event tr → ffmpeg_calls tr = [].
Proof. induction 1 as [|[] tr He _ IH]; simpl in *; done. Qed.

Lemma ffmpeg_calls_manifest (written uploaded : bool) :
  ffmpeg_calls (manifest_trace written uploaded) = [].
Proof. by destruct written. Qed.

Lemma of_renditions_not_prelude (rs : list Resolution) (e : Event) :
  of_renditions env rs e → ¬ prelude_event e.
Proof. intros (r & _ & [| |]); simpl; tauto. Qed.

Lemma of_renditions_put (rs : list Resolution) (bucket key path : string) (ok : bool) :
  of_renditions env rs (PutObject bucket key path ok) →
  ∃ r file, r ∈ rs ∧ key = object_key env r file.
Proof.
  intros (r & Hr & Hof). inversion Hof; subst. by eexists _, _.
Qed.

Lemma manifest_not_prelude (written uploaded : bool) (e : Event) :
  e ∈ manifest_trace written uploaded → ¬ prelude_event e.
Proof.
  unfold manifest_trace. destruct written; rewrite ?elem_of_cons, elem_of_nil;
    intros He; destruct_or!; try done; subst e; simpl; try tauto; by intros [? [=]].
Qed.

(** A successful upload of the manifest is in the trace of a run of the
    second kind exactly when both the write and the upload worked. *)
Lemma manifest_put_cases (metadata : Metadata) (evs : list Event)
    (written uploaded : bool) :
  Forall (of_renditions env RESOLUTIONS) evs →
  manifest_put env (setup_trace metadata ++ evs ++ manifest_trace written uploaded)
  ↔ written && uploaded = true.
Proof.
  intros Hof. rewrite Forall_forall in Hof. unfold manifest_put. split.
  - intros (bucket & path & Hin). rewrite !elem_of_app in Hin.
    destruct Hin as [Hin|[Hin|Hin]].
    + unfold setup_trace in Hin. rewrite !elem_of_cons, elem_of_nil in Hin.
      by destruct_or! Hin.
    + destruct (of_renditions_put _ _ _ _ _ (Hof _ Hin)) as (r & file & Hr & Hkey).
      symmetry in Hkey. by destruct (object_key_manifest env r file Hr).
    + unfold manifest_trace in Hin. destruct written;
        rewrite ?elem_of_cons, elem_of_nil in Hin; destruct_or! Hin; try done.
      by injection Hin as _ _ <-.
  - intros [-> ->]%andb_true_iff. eexists _, _. rewrite !elem_of_app. right. right.
    unfold manifest_trace. right. by left.
Qed.

Lemma plan_of_renditions (width0 height0 : Z) (rs : list Resolution) (evs : list Event) :
  rs ⊆ getValidResolutions width0 height0 →
  Forall (of_renditions env rs) evs → Forall (of_renditions env RESOLUTIONS) evs.
Proof.
  intros Hsub. apply of_renditions_mono. intros r Hr.
  by eapply plan_catalog, Hsub.
Qed.

Lemma setup_failed_event (tr : list Event) :
  setup_failed tr → ∃ e, e ∈ tr ∧ prelude_event e ∧ ¬ succeeded e.
Proof.
  intros [(? & ? & Hin)|[(? & Hin)|[(? & Hin)|(? & Hin)]]];
    eexists; (split; [exact Hin|]); simpl; (split; [by eauto|]);
    first [congruence|by intros [? ?]].
Qed.

Lemma run_trace_of_renditions (metadata : Metadata) (evs : list Event) :
  (∃ pre r post,
     getValidResolutions (md_width metadata) (md_height metadata) = pre ++ r :: post
     ∧ Forall (of_renditions env (pre ++ [r])) evs)
  ∨ Forall (of_renditions env (getValidResolutions (md_width metadata) (md_height metadata)))
      evs →
  Forall (of_renditions env RESOLUTIONS) evs.
Proof.
  intros [(pre & r & post & Hplan & Hof)|Hof].
  - apply (plan_of_renditions (md_width metadata) (md_height metadata) (pre ++ [r]));
      [|done].
    rewrite Hplan. unfold subseteq, list_subseteq. intros r'.
    rewrite !elem_of_app, !elem_of_cons, elem_of_nil. tauto.
  - by apply (plan_of_renditions (md_width metadata) (md_height metadata)
                (getValidResolutions (md_width metadata) (md_height metadata))).
Qed.

(** *** Properties of whole runs *)

(** X2: when a step before the loop fails (the download, the write of the
    download, the probe or the creation of the output directory), the
    process ends with status 1, ffmpeg is never run, nothing is uploaded,
    and the bucket stays empty. *)
Theorem setup_failure :
  setup_failed (trace (run env).2) →
  (run env).1 = 1%Z
  ∧ ffmpeg_calls (trace (run env).2) = []
  ∧ (∀ bucket key path ok, PutObject bucket key path ok ∉ trace (run env).2)
  ∧ published (run env).2 = ∅.
Proof.
  intros (e & Hin & Hpre & Hfail)%setup_failed_event.
  pose proof (run_sound env) as [_ Hexact].
  destruct run_cases as [(w & Hrun & Hevents & _)|(metadata & evs & rest & Htr & Hcases)].
  - rewrite Hrun in *. simpl in *. split; [done|].
    split; [by apply ffmpeg_calls_prelude|].
    rewrite Forall_forall in Hevents.
    assert (∀ bucket key path ok, PutObject bucket key path ok ∉ trace w) as Hno.
    { intros bucket key path ok Hput. by destruct (Hevents _ Hput). }
    split; [done|]. apply map_empty. intros key.
    destruct (published w !! key) as [body|] eqn:Hkey; [|done].
    destruct (proj1 (Hexact key)) as (bucket & path & Hput); [by eexists|].
    by destruct (Hno bucket key path true).
  - exfalso. cbv zeta in Htr. rewrite Htr in Hin. rewrite !elem_of_app in Hin.
    destruct Hin as [Hin|[Hin|Hin]].
    + pose proof (setup_succeeded metadata) as Hok. rewrite Forall_forall in Hok. auto.
    + assert (Forall (of_renditions env RESOLUTIONS) evs) as Hof.
      { apply (run_trace_of_renditions metadata).
        destruct Hcases as [(_ & _ & (pre & r & post & ? & ? & _) & _)|(_ & ? & _)];
          [left; by eauto|by right]. }
      rewrite Forall_forall in Hof. by destruct (of_renditions_not_prelude _ _ (Hof _ Hin)).
    + destruct Hcases as [(_ & -> & _)|(_ & _ & _ & written & uploaded & -> & _)].
      * by apply elem_of_nil in Hin.
      * by destruct (manifest_not_prelude _ _ _ Hin).
Qed.


Lemma manifest_put_status : manifest_put env (trace (run env).2) ↔ (run env).1 = 0%Z.
Proof.
  destruct run_cases as [(w & Hrun & Hevents & _)|(metadata & evs & rest & Htr & Hcases)].
  - rewrite Hrun. simpl. split; [|done]. intros (bucket & path & Hin).
    rewrite Forall_forall in Hevents. by destruct (Hevents _ Hin).
  - cbv zeta in Htr. rewrite Htr.
    assert (Forall (of_renditions env RESOLUTIONS) evs) as Hof.
    { apply (run_trace_of_renditions metadata).
      destruct Hcases as [(_ & _ & (pre & r & post & ? & ? & _) & _)|(_ & ? & _)];
        [left; by eauto|by right]. }
    destruct Hcases as [(-> & -> & _)|(_ & _ & _ & written & uploaded & -> & ->)].
    + split; [|done]. intros (bucket & path & Hin). exfalso.
      rewrite app_nil_r, elem_of_app in Hin. destruct Hin as [Hin|Hin].
      * unfold setup_trace in Hin. rewrite !elem_of_cons, elem_of_nil in Hin.
        by destruct_or! Hin.
      * rewrite Forall_forall in Hof.
        destruct (of_renditions_put _ _ _ _ _ (Hof _ Hin)) as (r & file & Hr & Hkey).
        symmetry in Hkey. by destruct (object_key_manifest env r file Hr).
    + rewrite (manifest_put_cases metadata evs written uploaded Hof).
      by destruct (written && uploaded).
Qed.



(** X5: ffmpeg is run for the planned renditions in the order of the
    plan, once each, always on the downloaded file and with the options of
    the rendition: the calls made are an initial part of those of the
    plan, and all of them when the process ends with status 0. *)
Theorem ffmpeg_in_order (metadata : Metadata) (path : string) :
  Ffprobe path (Some metadata) ∈ trace (run env).2 →
  let calls :=
    ffmpeg_call (path_resolve ("original-video" +:+ getFileExtension (KEY env)))
      (padding (duration metadata))
      <$> getValidResolutions (md_width metadata) (md_height metadata) in
  ffmpeg_calls (trace (run env).2) `prefix_of` calls
  ∧ ((run env).1 = 0%Z → ffmpeg_calls (trace (run env).2) = calls).
Proof.
  intros Hprobe.
  destruct run_cases as [(w & Hrun & Hevents & _)|(md & evs & rest & Htr & Hcases)].
  - rewrite Hrun. simpl. rewrite (ffmpeg_calls_prelude _ Hevents).
    split; [apply prefix_nil|done].
  - cbv zeta in Htr. rewrite Htr in *.
    assert (Forall (of_renditions env RESOLUTIONS) evs) as Hof.
    { apply (run_trace_of_renditions md).
      destruct Hcases as [(_ & _ & (pre & r & post & ? & ? & _) & _)|(_ & ? & _)];
        [left; by eauto|by right]. }
    assert (md = metadata) as ->.
    { rewrite !elem_of_app in Hprobe. destruct Hprobe as [Hin|[Hin|Hin]].
      - unfold setup_trace in Hin. rewrite !elem_of_cons, elem_of_nil in Hin.
        destruct_or! Hin; try done. by injection Hin as _ ->.
      - rewrite Forall_forall in Hof. destruct (Hof _ Hin) as (r & _ & Hr). inversion Hr.
      - destruct Hcases as [(_ & -> & _)|(_ & _ & _ & written & uploaded & -> & _)].
        + by apply elem_of_nil in Hin.
        + unfold manifest_trace in Hin. destruct written;
            rewrite ?elem_of_cons, elem_of_nil in Hin; by destruct_or! Hin. }
    rewrite !ffmpeg_calls_app, (ffmpeg_calls_prelude _ (setup_prelude metadata)). simpl.
    destruct Hcases as [(Hcode & -> & (pre & r & post & Hplan & _ & Hcalls) & _)
                       |(_ & _ & Hcalls & written & uploaded & -> & _)].
    + rewrite app_nil_r, Hcalls, Hplan, Hcode. split; [|done].
      eexists (_ <$> post). by rewrite <- fmap_app, <- app_assoc.
    + by rewrite ffmpeg_calls_manifest, app_nil_r, Hcalls.
Qed.

(** X6: when the write or the upload of the master manifest fails, the
    process ends with status 1 and the bucket holds no manifest; but
    ffmpeg has run for every rendition of the plan, and the manifest
    steps are the only calls that failed: the renditions are all in the
    bucket. *)
Theorem manifest_failure :
  WriteFile "hls_output/master.m3u8" false ∈ trace (run env).2
  ∨ (∃ bucket path, PutObject bucket (manifest_key env) path false ∈ trace (run env).2) →
  (run env).1 = 1%Z
  ∧ published (run env).2 !! manifest_key env = None
  ∧ (∀ e, e ∈ trace (run env).2 → ¬ succeeded e → manifest_event env e)
  ∧ ∃ metadata,
      ffmpeg_calls (trace (run env).2)
      = ffmpeg_call (path_resolve ("original-video" +:+ getFileExtension (KEY env)))
          (padding (duration metadata))
          <$> getValidResolutions (md_width metadata) (md_height metadata).
Proof.
  intros Hfail.
  assert (∃ e, e ∈ trace (run env).2 ∧ manifest_event env e ∧ ¬ succeeded e)
    as (e & Hin & Hman & Hbad).
  { destruct Hfail as [Hin|(bucket & path & Hin)];
      eexists; (split; [exact Hin|]); simpl; (split; [done|congruence]). }
  clear Hfail. pose proof (run_sound env) as [_ Hexact].
  destruct run_cases as [(w & Hrun & Hevents & _)|(metadata & evs & rest & Htr & Hcases)].
  { rewrite Hrun in Hin. simpl in Hin. rewrite Forall_forall in Hevents.
    specialize (Hevents _ Hin). destruct e; simpl in *; try done.
    destruct Hevents as [extension Heq]. by rewrite Hman in Heq. }
  cbv zeta in Htr.
  assert (Forall (of_renditions env RESOLUTIONS) evs) as Hof.
  { apply (run_trace_of_renditions metadata).
    destruct Hcases as [(_ & _ & (pre & r & post & ? & ? & _) & _)|(_ & ? & _)];
      [left; by eauto|by right]. }
  rewrite Forall_forall in Hof.
  assert (∀ e', e' ∈ setup_trace metadata ++ evs → ¬ manifest_event env e') as Hnot.
  { intros e' Hin'. apply elem_of_app in Hin' as [Hin'|Hin'].
    - unfold setup_trace in Hin'. rewrite !elem_of_cons, elem_of_nil in Hin'.
      destruct_or! Hin'; try done; subst e'; simpl; try tauto. discriminate.
    - destruct (Hof _ Hin') as (r & Hr & He). by apply (of_rendition_not_manifest env r). }
  destruct Hcases as [(_ & -> & _)|(Hok & _ & Hcalls & written & uploaded & -> & Hcode)].
  { rewrite Htr, app_nil_r in Hin. by destruct (Hnot _ Hin). }
  assert (written && uploaded = false) as Hboth.
  { destruct (written && uploaded) eqn:Hboth; [|done].
    apply andb_true_iff in Hboth as [-> ->]. rewrite Htr, app_assoc in Hin.
    apply elem_of_app in Hin as [Hin|Hin]; [by destruct (Hnot _ Hin)|].
    unfold manifest_trace in Hin. rewrite !elem_of_cons, elem_of_nil in Hin.
    destruct_or! Hin; try done; subst e; by destruct Hbad. }
  rewrite Hboth in Hcode. split; [done|]. split; [|split].
  - destruct (published (run env).2 !! manifest_key env) eqn:Hpub; [|done].
    assert ((run env).1 = 0%Z) as H0; [|congruence].
    apply manifest_put_status, (Hexact (manifest_key env)). by eexists.
  - intros e' Hin' Hbad'. rewrite Htr, app_assoc in Hin'.
    apply elem_of_app in Hin' as [Hin'|Hin'].
    + destruct Hbad'. apply elem_of_app in Hin' as [Hin'|Hin'].
      * pose proof (setup_succeeded metadata) as Hs. rewrite Forall_forall in Hs. auto.
      * rewrite Forall_forall in Hok. auto.
    + unfold manifest_trace in Hin'. destruct written;
        rewrite ?elem_of_cons, elem_of_nil in Hin'; destruct_or! Hin'; try done; by subst e'.
  - exists metadata. rewrite Htr, !ffmpeg_calls_app.
    by rewrite (ffmpeg_calls_prelude _ (setup_prelude metadata)), ffmpeg_calls_manifest,
      app_nil_r, Hcalls.
Qed.

End Uploads.

(** X7: no file name starts with the names of two renditions of the
    catalog: of the files in the shared output directory, each is taken
    for at most one rendition. *)
Theorem hls_file_one_rendition (r1 r2 : Resolution) (file : string) :
  r1 ∈ RESOLUTIONS → r2 ∈ RESOLUTIONS →
  hls_file r1 file → hls_file r2 file → r1 = r2.
Proof.
  unfold RESOLUTIONS. rewrite !elem_of_cons, !elem_of_nil.
  intros H1 H2 [[rest1 Hf1] _] [[rest2 Hf2] _]. rewrite Hf1 in Hf2. clear Hf1.
  revert Hf2. destruct_or!; try done; subst; simpl; intros [=]; done.
Qed.

Lemma hls_file_one_rendition_witness :
  hls_file Scenario.r144p "144p_00.ts" ∧ Scenario.r144p = Scenario.r144p.
Proof.
  assert (hls_file Scenario.r144p "144p_00.ts") as Hfile
    by (split; [by exists "_00.ts"|right; by exists "144p_00"]).
  split; [exact Hfile|].
  apply (hls_file_one_rendition Scenario.r144p Scenario.r144p "144p_00.ts");
    [by left|by left|exact Hfile|exact Hfile].
Defined.

(** *** The whole-run properties on scenarios *)

Import Scenario Failures.

Lemma setup_failure_witness :
  (run (H := unreadable) env).1 = 1%Z
  ∧ ffmpeg_calls (trace (run (H := unreadable) env).2) = []
  ∧ (∀ bucket key path ok,
       PutObject bucket key path ok ∉ trace (run (H := unreadable) env).2)
  ∧ published (run (H := unreadable) env).2 = ∅.
Proof.
  apply (setup_failure (H := unreadable) env).
  right. right. left. eexists. vm_compute. repeat constructor.
Defined.

Lemma ffmpeg_in_order_witness :
  ffmpeg_calls (trace (run (H := collaborators sd ["hls_output/240p.m3u8"]) env).2)
    `prefix_of`
    (ffmpeg_call
       (path_resolve (Collaborators := collaborators sd ["hls_output/240p.m3u8"])
          ("original-video"
             +:+ getFileExtension (H := collaborators sd ["hls_output/240p.m3u8"]) (KEY env)))
       (padding (duration sd))
       <$> getValidResolutions (md_width sd) (md_height sd))
  ∧ ((run (H := collaborators sd ["hls_output/240p.m3u8"]) env).1 = 0%Z →
     ffmpeg_calls (trace (run (H := collaborators sd ["hls_output/240p.m3u8"]) env).2)
     = ffmpeg_call
         (path_resolve (Collaborators := collaborators sd ["hls_output/240p.m3u8"])
            ("original-video"
               +:+ getFileExtension (H := collaborators sd ["hls_output/240p.m3u8"])
                     (KEY env)))
         (padding (duration sd))
         <$> getValidResolutions (md_width sd) (md_height sd)).
Proof.
  apply (ffmpeg_in_order (H := collaborators sd ["hls_output/240p.m3u8"]) env sd
           "/app/original-video.mp4").
  vm_compute. repeat constructor.
Defined.

Lemma manifest_failure_witness :
  (run (H := manifest_refused) env).1 = 1%Z
  ∧ published (run (H := manifest_refused) env).2 !! manifest_key env = None
  ∧ (∀ e, e ∈ trace (run (H := manifest_refused) env).2 →
          ¬ succeeded e → manifest_event env e)
  ∧ ∃ metadata,
      ffmpeg_calls (trace (run (H := manifest_refused) env).2)
      = ffmpeg_call
          (path_resolve (Collaborators := manifest_refused)
             ("original-video" +:+ getFileExtension (H := manifest_refused) (KEY env)))
          (padding (duration metadata))
          <$> getValidResolutions (md_width metadata) (md_height metadata).
Proof.
  apply (manifest_failure (H := manifest_refused) env).
  right. eexists _, _. vm_compute. repeat constructor.
Defined.


(** *** Keys and plans *)

Lemma split_first_sep (stem rest : string) (sep : Ascii.ascii) :
  includes stem (String sep "") = false →
  first (split (stem +:+ String sep rest) sep) = Some stem.
Proof.
  induction stem as [|c stem IH]; simpl.
  - intros _. by rewrite Ascii.eqb_refl.
  - destruct (Ascii.eqb_spec sep c) as [->|Hne]; [done|]. simpl. intros Hstem.
    destruct (Ascii.eqb_spec c sep) as [->|_]; [done|].
    specialize (IH Hstem). destruct (split _ sep) as [|w ws]; [done|].
    by injection IH as ->.
Qed.

(** X8: only what precedes the first dot of the source key counts:
    whatever follows it, an extension or further directories, the
    formatted key is that of the stem.  Two sources that differ after
    their first dot are written to the same keys. *)
Theorem getFormattedKey_stem (stem rest : string) :
  ¬ occurs "." stem →
  getFormattedKey (stem +:+ "." +:+ rest) = getFormattedKey stem
  ∧ ∀ rest', getFormattedKey (stem +:+ "." +:+ rest) = getFormattedKey (stem +:+ "." +:+ rest').
Proof.
  intros Hstem%WorkerFacts.not_occurs_includes.
  assert (∀ rest0, getFormattedKey (stem +:+ "." +:+ rest0) = getFormattedKey stem) as Heq.
  { intros rest0. unfold getFormattedKey.
    change (stem +:+ "." +:+ rest0) with (stem +:+ String "." rest0).
    by rewrite (split_first_sep stem rest0 "." Hstem), (split_no_sep stem "." Hstem). }
  split; [apply Heq|]. intros rest'. by rewrite !Heq.
Qed.

Lemma getFormattedKey_stem_witness :
  getFormattedKey ("videos/v1" +:+ "." +:+ "2/clip.mp4") = getFormattedKey "videos/v1"
  ∧ ∀ rest', getFormattedKey ("videos/v1" +:+ "." +:+ "2/clip.mp4")
             = getFormattedKey ("videos/v1" +:+ "." +:+ rest').
Proof.
  apply (getFormattedKey_stem "videos/v1" "2/clip.mp4").
  apply WorkerFacts.not_occurs_includes. reflexivity.
Defined.

Lemma filter_sorted_prefix {A} (R : relation A) (P : A → Prop) `{!∀ x, Decision (P x)}
    (l : list A) :
  StronglySorted R l → (∀ a b, R a b → P b → P a) → filter P l `prefix_of` l.
Proof.
  intros Hsorted Hdown. induction Hsorted as [|x l _ IH Hx]; [done|].
  rewrite filter_cons. destruct (decide (P x)) as [HP|HP].
  - by apply prefix_cons.
  - rewrite WorkerRuns.filter_none; [apply prefix_nil|].
    intros y Hy HPy. rewrite Forall_forall in Hx. by apply HP, (Hdown x y), HPy; auto.
Qed.

(** X9: the plan is an initial part of the catalog: a rendition is
    planned only together with all the smaller ones.  And a source at
    least as wide and as high gets at least the same renditions, the plan
    of the smaller source being an initial part of its plan. *)
Theorem plan_prefix (width0 height0 width1 height1 : Z) :
  (width0 ≤ width1)%Z → (height0 ≤ height1)%Z →
  getValidResolutions width0 height0 `prefix_of` RESOLUTIONS
  ∧ getValidResolutions width0 height0 `prefix_of` getValidResolutions width1 height1.
Proof.
  intros Hw Hh.
  assert (∀ w h a b, ascending a b →
            (width b ≤ w)%Z ∧ (height b ≤ h)%Z → (width a ≤ w)%Z ∧ (height a ≤ h)%Z)
    as Hdown by (unfold ascending; intros; lia).
  split.
  - apply (filter_sorted_prefix ascending); [apply WorkerFacts.RESOLUTIONS_ascending|].
    apply Hdown.
  - assert (getValidResolutions width0 height0
            = filter (λ r, (width r ≤ width0)%Z ∧ (height r ≤ height0)%Z)
                (getValidResolutions width1 height1)) as ->.
    { unfold getValidResolutions. rewrite list_filter_filter.
      apply list_filter_iff. intros r. lia. }
    apply (filter_sorted_prefix ascending); [|apply Hdown].
    eapply WorkerFacts.StronglySorted_sublist;
      [apply sublist_filter|apply WorkerFacts.RESOLUTIONS_ascending].
Qed.

Lemma plan_prefix_witness :
  getValidResolutions 640 360 `prefix_of` RESOLUTIONS
  ∧ getValidResolutions 640 360 `prefix_of` getValidResolutions 1920 1080.
Proof. apply (plan_prefix 640 360 1920 1080); lia. Defined.

End WorkerMore.

(** ** More on the dispatcher *)

Module ConsumerMore.
Import JS Consumer Spec Dispatching ConsumerFacts.

Section Dispatch.
Context `{!Collaborators} (env : Env).

(** *** Launches and deletes *)

(** Code that returns or throws after orderly calls for the message of
    handle [receiptHandle]. *)
Definition orderly (receiptHandle : option string) (m : M (list Event) unit) : Prop :=
  ∀ tr, ((m tr).1 = Val tt ∨ (m tr).1 = Throw)
        ∧ ∃ evs, (m tr).2 = tr ++ evs ∧ launch_delete env receiptHandle evs.

Lemma launch_delete_app (receiptHandle : option string) (evs1 evs2 : list Event) :
  launch_delete env receiptHandle evs1 → launch_delete env receiptHandle evs2 →
  launch_delete env receiptHandle (evs1 ++ evs2).
Proof. induction 1; intros; simpl; [done|constructor; auto..]. Qed.

Lemma orderly_ret (receiptHandle : option string) : orderly receiptHandle (mret tt).
Proof. intros tr. split; [by left|]. exists []. rewrite app_nil_r. split; [done|constructor]. Qed.

Lemma orderly_throw (receiptHandle : option string) : orderly receiptHandle throw.
Proof. intros tr. split; [by right|]. exists []. rewrite app_nil_r. split; [done|constructor]. Qed.

Lemma orderly_seq (receiptHandle : option string) (m1 m2 : M (list Event) unit) :
  orderly receiptHandle m1 → orderly receiptHandle m2 → orderly receiptHandle (m1;; m2).
Proof.
  intros H1 H2 tr. unfold_M.
  destruct (H1 tr) as (Ho1 & evs1 & Htr1 & Hev1).
  destruct (m1 tr) as [o1 tr1]. simpl in *. subst tr1.
  destruct Ho1 as [-> | ->].
  - destruct (H2 (tr ++ evs1)) as (Ho2 & evs2 & Htr2 & Hev2).
    split; [done|]. exists (evs1 ++ evs2). rewrite Htr2, app_assoc.
    split; [done|]. by apply launch_delete_app.
  - split; [by right|]. by exists evs1.
Qed.

Lemma orderly_lift {A} (receiptHandle : option string) (o : option A)
    (k : A → M (list Event) unit) :
  (∀ a, orderly receiptHandle (k a)) → orderly receiptHandle (lift o ≫= k).
Proof.
  intros Hk tr. destruct o as [a|]; [apply Hk|]. unfold lift. unfold_M. simpl.
  split; [by right|]. exists []. rewrite app_nil_r. split; [done|constructor].
Qed.

Lemma orderly_launch (receiptHandle : option string) (key : string) (bucketName : JSValue) :
  launchable key bucketName →
  orderly receiptHandle
    (try_catch
       (ecsClient_send (runTaskCommand env key bucketName);;
        deleteMessageFromQueue receiptHandle)
       (mret tt)).
Proof.
  intros Hok tr. unfold ecsClient_send, deleteMessageFromQueue. unfold_M. simpl.
  destruct (ecs_send tr _); simpl; (split; [by left|]).
  - eexists [_; _]. rewrite <- app_assoc. split; [done|].
    apply launch_delete_launched; [done|apply launch_delete_nil].
  - eexists [_]. split; [done|].
    apply launch_delete_failed; [done|apply launch_delete_nil].
Qed.

Lemma orderly_forRecord (message : Message) (record : JSValue) :
  orderly (ReceiptHandle message) (forRecord env message record).
Proof.
  unfold forRecord. do 4 (apply orderly_lift; intros ?). cbv zeta.
  match goal with |- context [truthy ?b] => set (bucketName := b) end.
  destruct (truthy bucketName) eqn:Hbucket; simpl; [|apply orderly_ret].
  destruct (truthy a2) eqn:Hkey; simpl; [|apply orderly_ret].
  destruct a2 as [| | | |key| |]; try apply orderly_throw.
  destruct (decide (toUpperCase (path_extname key) ∈ ACCEPTABLE_FORMATS)) as [Hformat|Hformat].
  - rewrite bool_decide_eq_true_2 by done. simpl.
    apply orderly_launch. split; [|done]. intros ->. discriminate.
  - rewrite bool_decide_eq_false_2 by done. simpl. apply orderly_ret.
Qed.

Lemma orderly_forRecords (message : Message) (records : list JSValue) :
  orderly (ReceiptHandle message) (forRecords env message records).
Proof.
  induction records as [|record records IH]; simpl; [apply orderly_ret|].
  apply orderly_seq; [apply orderly_forRecord|done].
Qed.

(** What the processing of one message calls. *)
Lemma processMessage_shape (message : Message) (tr : list Event) :
  ((processMessage env message tr).1 = Val tt ∨ (processMessage env message tr).1 = Throw)
  ∧ ∃ evs, (processMessage env message tr).2 = tr ++ evs
           ∧ ((∃ ok, evs = [DeleteMessage (ReceiptHandle message) ok])
              ∨ launch_delete env (ReceiptHandle message) evs).
Proof.
  assert (∀ m, orderly (ReceiptHandle message) m →
            ((m tr).1 = Val tt ∨ (m tr).1 = Throw)
            ∧ ∃ evs, (m tr).2 = tr ++ evs
                     ∧ ((∃ ok, evs = [DeleteMessage (ReceiptHandle message) ok])
                        ∨ launch_delete env (ReceiptHandle message) evs)) as Horderly.
  { intros m Hm. destruct (Hm tr) as (Ho & evs & Htr & Hevs). split; [done|].
    exists evs. by auto. }
  unfold processMessage. repeat case_match; try apply Horderly, orderly_ret.
  destruct (isTestEvent _) as [[|]|].
  - unfold lift. unfold_M. simpl.
    split; [by left|]. eexists [_]. split; [done|]. left. by eexists.
  - apply (Horderly (lift (prop _ "Records")
                       ≫= λ Records, lift (iterate Records) ≫= forRecords env message)).
    do 2 (apply orderly_lift; intros ?). apply orderly_forRecords.
  - apply (Horderly throw), orderly_throw.
Qed.

Lemma launch_delete_counts (receiptHandle : option string) (evs : list Event) :
  launch_delete env receiptHandle evs → deletes evs = launched evs.
Proof. unfold deletes, launched. induction 1; simpl; lia. Qed.

(** X10: whatever the message, its body and the answers of the services,
    processing it returns or throws, and calls either one delete of the
    message and nothing else, or launches of launchable keys, each
    successful one followed at once by a delete of the message, each
    failed one by none.  So a message is deleted only after a launch for
    it succeeded or as a test event, and then under its own handle. *)
Theorem deletes_follow_launches (message : Message) (tr : list Event) :
  ((processMessage env message tr).1 = Val tt ∨ (processMessage env message tr).1 = Throw)
  ∧ ∃ evs, (processMessage env message tr).2 = tr ++ evs
           ∧ (((∃ ok, evs = [DeleteMessage (ReceiptHandle message) ok])
               ∧ launches evs = 0%nat)
              ∨ (launch_delete env (ReceiptHandle message) evs
                 ∧ deletes evs = launched evs)).
Proof.
  destruct (processMessage_shape message tr) as (Ho & evs & Htr & [[ok ->]|Hevs]).
  - split; [done|]. eexists. split; [done|]. left. split; [by eexists|done].
  - split; [done|]. exists evs. split; [done|]. right. split; [done|].
    by eapply launch_delete_counts.
Qed.

(** *** The whole loop *)

Lemma delivered_app (tr evs : list Event) (receiptHandle : option string) :
  delivered tr receiptHandle → delivered (tr ++ evs) receiptHandle.
Proof.
  intros (messages & message & Hin & Hm & Hrh). exists messages, message.
  rewrite elem_of_app. by auto.
Qed.

Lemma all_justified_app (before evs1 evs2 : list Event) :
  all_justified env before evs1 → all_justified env (before ++ evs1) evs2 →
  all_justified env before (evs1 ++ evs2).
Proof.
  revert before. induction evs1 as [|e evs1 IH]; intros before; simpl.
  - by rewrite app_nil_r.
  - intros [He H1] H2. split; [done|]. apply IH; [done|].
    by rewrite <- app_assoc.
Qed.

Lemma launch_delete_justified (before evs : list Event) (receiptHandle : option string) :
  delivered before receiptHandle → launch_delete env receiptHandle evs →
  all_justified env before evs.
Proof.
  intros Hdel Hevs. revert before Hdel.
  induction Hevs as [|key bucketName ok evs Hok _ IH|key bucketName evs Hok _ IH];
    intros before Hdel; simpl; [done|..].
  - split; [by eexists _, _|]. split; [by apply delivered_app|].
    by apply IH, delivered_app, delivered_app.
  - split; [by eexists _, _|]. by apply IH, delivered_app.
Qed.

Lemma forMessages_justified (messages batch : list Message) (tr : list Event) :
  Receive (Messages batch) ∈ tr → messages ⊆ batch →
  ((forMessages env messages tr).1 = Val tt ∨ (forMessages env messages tr).1 = Throw)
  ∧ ∃ evs, (forMessages env messages tr).2 = tr ++ evs ∧ all_justified env tr evs.
Proof.
  revert tr. induction messages as [|message messages IH]; intros tr Hin Hsub; simpl.
  - split; [by left|]. exists []. by rewrite app_nil_r.
  - unfold_M. destruct (processMessage_shape message tr) as (Ho & evs & Htr & Hevs).
    assert (delivered tr (ReceiptHandle message)) as Hdel.
    { exists batch, message. split; [done|]. split; [|done]. apply Hsub. by left. }
    assert (all_justified env tr evs) as Hjust.
    { destruct Hevs as [[ok ->]|Hevs]; [done|]. by eapply launch_delete_justified. }
    destruct (processMessage env message tr) as [o tr1]. simpl in *. subst tr1.
    destruct Ho as [-> | ->].
    + destruct (IH (tr ++ evs)) as (Ho2 & evs2 & Htr2 & Hevs2).
      { rewrite elem_of_app. by left. }
      { intros m Hm. apply Hsub. by right. }
      split; [done|]. exists (evs ++ evs2). rewrite Htr2, app_assoc. split; [done|].
      by apply all_justified_app.
    + split; [by right|]. by exists evs.
Qed.

Lemma iteration_justified (tr : list Event) :
  ∃ evs, (iteration env tr).2 = tr ++ evs ∧ all_justified env tr evs.
Proof.
  unfold iteration. unfold_M.
  destruct (sqs_receive tr) as [| |messages] eqn:Hrecv; simpl.
  - by eexists [_].
  - by eexists [_].
  - destruct (forMessages_justified messages messages (tr ++ [Receive (Messages messages)]))
      as (Ho & evs & Htr & Hevs).
    { rewrite elem_of_app, list_elem_of_singleton. by right. }
    { done. }
    exists (Receive (Messages messages) :: evs).
    destruct (forMessages env messages _) as [o tr1]. simpl in *. subst tr1.
    rewrite <- app_assoc. by destruct o.
Qed.

(** X11: over any number of turns of the loop, from any earlier trace and
    whatever the services answer, every launch is of a launchable key,
    with the command built for that key and bucket, and every delete is
    of a message that an earlier receive call gave. *)
Theorem calls_justified (n : nat) (tr : list Event) :
  ∃ evs, (main env n tr).2 = tr ++ evs ∧ all_justified env tr evs.
Proof.
  revert tr. induction n as [|n IH]; intros tr; simpl.
  - exists []. by rewrite app_nil_r.
  - unfold_M. destruct (iteration_justified tr) as (evs1 & Htr1 & Hevs1).
    destruct (iteration_spec env tr) as [Ho _].
    destruct (iteration env tr) as [o tr1]. simpl in *. subst o tr1.
    destruct (IH (tr ++ evs1)) as (evs2 & Htr2 & Hevs2).
    exists (evs1 ++ evs2). rewrite Htr2, app_assoc. split; [done|].
    by apply all_justified_app.
Qed.

(** X12: the loop never stops: whatever the queue, the parser and the
    services answer, be it a failed receive or an exception while a
    message is processed, each of the first [n] turns ends normally after
    exactly one receive call, for every [n]. *)
Theorem loop_goes_on (n : nat) (tr : list Event) :
  (main env n tr).1 = Val tt
  ∧ receives (main env n tr).2 = (receives tr + n)%nat
  ∧ (sqs_receive tr = ReceiveFailed →
     main env (S n) tr = main env n (tr ++ [Receive ReceiveFailed])).
Proof.
  destruct (main_spec env n tr) as [Ho Hr]. split; [done|]. split; [done|].
  intros Hrecv. simpl. unfold iteration. unfold_M. by rewrite Hrecv.
Qed.

(** *** Messages that are not notifications *)

Lemma not_an_event_throws (message : Message) (body : string) (event : JSValue)
    (tr : list Event) :
  Body message = Some body → body ≠ EmptyString → JSON_parse body = Some event →
  not_an_event event →
  processMessage env message tr = (Throw, tr).
Proof.
  intros Hbody Hne Hparse Hnot. unfold processMessage. rewrite Hbody, Hparse.
  destruct (String.eqb_spec body ""); [done|].
  destruct event as [| | | | | |fields]; try done.
  destruct Hnot as [Htest Hrecords]. unfold lift. unfold_M.
  rewrite (isTestEvent_false fields Htest). simpl. by rewrite Hrecords.
Qed.

(** X13: a message whose body is valid JSON but neither a test event
    nor a notification with a list of records (a primitive value, an
    array, an object without [Records]) makes [processMessage] throw
    without any call.  The exception ends the turn of the loop: the
    message is left on the queue, and the messages received with it, after
    it, are not processed. *)
Theorem not_an_event_aborts (message : Message) (body : string) (event : JSValue)
    (rest : list Message) (tr : list Event) :
  Body message = Some body →
  body ≠ EmptyString →
  JSON_parse body = Some event →
  not_an_event event →
  sqs_receive tr = Messages (message :: rest) →
  (∀ tr', processMessage env message tr' = (Throw, tr'))
  ∧ iteration env tr = (Val tt, tr ++ [Receive (Messages (message :: rest))]).
Proof.
  intros Hbody Hne Hparse Hnot Hrecv.
  assert (∀ tr', processMessage env message tr' = (Throw, tr')) as Hproc
    by (intros tr'; by eapply not_an_event_throws).
  split; [done|]. unfold iteration. unfold_M. rewrite Hrecv. simpl. unfold_M.
  by rewrite Hproc.
Qed.

(** *** Records *)

Lemma forRecord_malformed (message : Message) (record : JSValue) (tr : list Event) :
  malformed record → forRecord env message record tr = (Throw, tr).
Proof.
  unfold forRecord, lift, malformed, missing. unfold_M.
  intros [[-> | ->]|(s3 & -> & [[-> | ->]|(object & Hobject & [-> | ->])])]; simpl;
    try done.
  all: destruct (prop s3 "bucket"); simpl; [|done]; by rewrite Hobject.
Qed.

Lemma forRecords_app (message : Message) (records1 records2 : list JSValue)
    (tr tr1 : list Event) :
  forRecords env message records1 tr = (Val tt, tr1) →
  forRecords env message (records1 ++ records2) tr = forRecords env message records2 tr1.
Proof.
  revert tr. induction records1 as [|record records1 IH]; intros tr; simpl.
  - unfold_M. by intros [= ->].
  - unfold_M. destruct (forRecord env message record tr) as [[[]| |code] tr2]; simpl;
      [apply IH|done|done].
Qed.

(** X14: when a record of a notification has no [s3] part, or no
    [object] part in it, the records before it are dispatched as usual
    (launches, and deletes of the message after successful ones), then
    [processMessage] throws: the records after it are not looked at, and
    no launch is made for them. *)
Theorem malformed_record (message : Message) (body : string)
    (fields : gmap string JSValue) (before : list JSValue) (record : JSValue)
    (after : list JSValue) (tr : list Event) :
  Body message = Some body →
  body ≠ EmptyString →
  JSON_parse body = Some (JObject fields) →
  ¬ TestEvent (JObject fields) →
  fields !! "Records" = Some (JArray (before ++ record :: after)) →
  Forall (λ record, (∃ key bucketName, accepted record key bucketName) ∨ skipped record)
         before →
  malformed record →
  ∃ n evs, processMessage env message tr = (Throw, tr ++ evs)
           ∧ dispatched env (ReceiptHandle message) before n evs
           ∧ launches evs = n
           ∧ deletes evs = launched evs.
Proof.
  intros Hbody Hne Hparse Htest Hrecords Hall Hbad.
  destruct (forRecords_dispatched env message before tr Hall)
    as (n & evs & Hrun & Hdis & _).
  exists n, evs. destruct (dispatched_counts env _ _ _ _ Hdis) as [Hlaunches Hdeletes].
  split; [|done].
  unfold processMessage. rewrite Hbody, Hparse.
  destruct (String.eqb_spec body ""); [done|].
  unfold lift. unfold_M. rewrite (isTestEvent_false fields Htest). simpl.
  rewrite Hrecords. simpl. rewrite (forRecords_app _ _ _ _ _ Hrun). simpl. unfold_M.
  by rewrite (forRecord_malformed message record (tr ++ evs) Hbad).
Qed.

Lemma forRecords_skipped (message : Message) (records : list JSValue) (tr : list Event) :
  Forall skipped records → forRecords env message records tr = (Val tt, tr).
Proof.
  induction 1 as [|record records Hskip _ IH]; simpl; [done|].
  unfold_M. by rewrite (forRecord_skipped env message record tr Hskip).
Qed.

(** X15: a notification none of whose records is accepted (no bucket
    name, no key, or a key that is not of an accepted format) is processed
    without any call: nothing is launched and the message is not deleted,
    so that the queue will deliver it again.  The loop goes on to its next
    receive call. *)
Theorem nothing_accepted (message : Message) (body : string)
    (fields : gmap string JSValue) (records : list JSValue) (tr : list Event) :
  Body message = Some body →
  body ≠ EmptyString →
  JSON_parse body = Some (JObject fields) →
  ¬ TestEvent (JObject fields) →
  fields !! "Records" = Some (JArray records) →
  Forall skipped records →
  (∀ tr', processMessage env message tr' = (Val tt, tr'))
  ∧ (sqs_receive tr = Messages [message] →
     ∀ n, main env (S n) tr = main env n (tr ++ [Receive (Messages [message])])).
Proof.
  intros Hbody Hne Hparse Htest Hrecords Hall.
  assert (∀ tr', processMessage env message tr' = (Val tt, tr')) as Hproc.
  { intros tr'. unfold processMessage. rewrite Hbody, Hparse.
    destruct (String.eqb_spec body ""); [done|].
    unfold lift. unfold_M. rewrite (isTestEvent_false fields Htest). simpl.
    rewrite Hrecords. simpl. by apply forRecords_skipped. }
  split; [done|]. intros Hrecv n. by apply receive_one.
Qed.

(** *** The launch command *)

Lemma split_nonempty (s : string) (sep : Ascii.ascii) : split s sep ≠ [].
Proof.
  destruct s as [|c s]; simpl; [done|].
  destruct (Ascii.eqb c sep); [done|]. by destruct (split s sep).
Qed.

Lemma join_split (s : string) (sep : Ascii.ascii) :
  join (split s sep) (String sep EmptyString) = s.
Proof.
  induction s as [|c s IH]; simpl; [done|].
  pose proof (split_nonempty s sep) as Hne.
  destruct (Ascii.eqb_spec c sep) as [->|_].
  - destruct (split s sep) as [|w ws]; [done|]. simpl in *. by rewrite IH.
  - destruct (split s sep) as [|w [|w' ws]]; [done|..]; simpl in *; by rewrite <- IH.
Qed.

Lemma split_no_separator (s : string) (sep : Ascii.ascii) :
  Forall (λ part, includes part (String sep EmptyString) = false) (split s sep).
Proof.
  induction s as [|c s IH]; simpl; [by repeat constructor|].
  destruct (Ascii.eqb_spec c sep) as [->|Hne]; [by constructor|].
  destruct (split s sep) as [|w ws]; inversion IH; subst; constructor; try done.
  - simpl. by destruct (Ascii.eqb_spec sep c) as [->|_].
  - simpl. destruct (Ascii.eqb_spec sep c) as [->|_]; [done|]. simpl. done.
Qed.

(** X16: when [SUBNETS] is set and not empty, the subnets of the launch
    command are its parts between commas: there is at least one, none
    holds a comma, and joined by commas they give [SUBNETS] back.  When
    it is unset or empty the command has no subnet. *)
Theorem subnets_of_command (key : string) (bucketName : JSValue) :
  match SUBNETS env with
  | Some (String c s) =>
      subnets (runTaskCommand env key bucketName) ≠ []
      ∧ Forall (λ subnet, includes subnet "," = false)
               (subnets (runTaskCommand env key bucketName))
      ∧ join (subnets (runTaskCommand env key bucketName)) "," = String c s
  | _ => subnets (runTaskCommand env key bucketName) = []
  end.
Proof.
  unfold runTaskCommand. simpl. destruct (SUBNETS env) as [[|c s]|]; [done| |done].
  change (String c s =? "") with false. cbv iota.
  split; [apply split_nonempty|]. split; [apply split_no_separator|apply join_split].
Qed.

End Dispatch.

(** *** The theorems on scenarios *)

Import QueueScenario QueueFailures.

Lemma not_an_event_aborts_witness :
  (∀ tr', processMessage (H := collaborators [message (Some "{}")] []) env
            (message (Some "{}")) tr' = (Throw, tr'))
  ∧ iteration (H := collaborators [message (Some "{}")] []) env []
    = (Val tt, [] ++ [Receive (Messages (message (Some "{}") :: []))]).
Proof.
  apply (not_an_event_aborts (H := collaborators [message (Some "{}")] []) env
           (message (Some "{}")) "{}" (JObject ∅) [] []).
  - reflexivity.
  - discriminate.
  - by vm_compute.
  - split; [|reflexivity]. intros (fields & Heq & Hservice & _). injection Heq as <-.
    rewrite lookup_empty in Hservice. by destruct Hservice.
  - reflexivity.
Defined.

Lemma malformed_record_witness :
  ∃ n evs,
    processMessage (H := collaborators [] []) env (message (Some truncated)) []
      = (Throw, [] ++ evs)
    ∧ dispatched (H := collaborators [] []) env (ReceiptHandle (message (Some truncated)))
        (firstn 1 (records_of truncated)) n evs
    ∧ launches evs = n
    ∧ deletes evs = launched evs.
Proof.
  apply (malformed_record (H := collaborators [] []) env (message (Some truncated))
           truncated (fields_of truncated) (firstn 1 (records_of truncated)) (JObject ∅)
           (skipn 2 (records_of truncated)) []).
  - reflexivity.
  - by vm_compute.
  - by vm_compute.
  - intros (fields & Heq & Hservice & _). injection Heq as <-.
    vm_compute in Hservice. by destruct Hservice.
  - by vm_compute.
  - repeat apply Forall_cons_2; [left|apply Forall_nil_2].
    eexists _, _, _, _, _, _.
    repeat split; try (vm_compute; reflexivity); try (by vm_compute).
    vm_compute; repeat constructor.
  - right. exists JUndefined. split; [reflexivity|]. left. by left.
Defined.

Lemma loop_goes_on_witness :
  (main (H := unreachable) env 3 []).1 = Val tt
  ∧ receives (main (H := unreachable) env 3 []).2 = (receives [] + 3)%nat
  ∧ main (H := unreachable) env 4 []
    = main (H := unreachable) env 3 ([] ++ [Receive ReceiveFailed]).
Proof.
  destruct (loop_goes_on (H := unreachable) env 3 []) as (Hstatus & Hreceives & Hfailed).
  split; [exact Hstatus|]. split; [exact Hreceives|]. apply Hfailed. reflexivity.
Defined.

Lemma nothing_accepted_witness :
  (∀ tr', processMessage (H := collaborators [message (Some documents)] []) env
            (message (Some documents)) tr' = (Val tt, tr'))
  ∧ (sqs_receive (Collaborators := collaborators [message (Some documents)] []) []
     = Messages [message (Some documents)] →
     ∀ n, main (H := collaborators [message (Some documents)] []) env (S n) []
          = main (H := collaborators [message (Some documents)] []) env n
              ([] ++ [Receive (Messages [message (Some documents)])])).
Proof.
  apply (nothing_accepted (H := collaborators [message (Some documents)] []) env
           (message (Some documents)) documents (fields_of documents)
           (records_of documents) []).
  - reflexivity.
  - by vm_compute.
  - by vm_compute.
  - intros (fields & Heq & Hservice & _). injection Heq as <-.
    vm_compute in Hservice. by destruct Hservice.
  - by vm_compute.
  - repeat apply Forall_cons_2; [| |apply Forall_nil_2].
    all: eexists _, _, _, _.
    all: repeat split; try (vm_compute; reflexivity).
    all: right; right; eexists; split; [vm_compute; reflexivity|].
    all: apply (bool_decide_unpack _); by vm_compute.
Defined.

End ConsumerMore.

(** ** The player's clock *)

Module PlayerFacts.
Import JSFacts Player Display.
#[local] Arguments String.append !_ _ / : simpl nomatch.













End PlayerFacts.

(** ** The earlier consumer *)

Module LegacyFacts.
Import JS Consumer Spec Dispatching ConsumerFacts.

Section Dispatch.
Context `{!Collaborators} (env : Legacy.Env).

Lemma quiet_client_delete (receiptHandle : option string) :
  quiet (Legacy.client_send_delete receiptHandle).
Proof.
  intros tr. unfold Legacy.client_send_delete.
  split; [by destruct (sqs_delete tr receiptHandle); auto|].
  eexists [_]. split; [done|]. by repeat constructor.
Qed.

Lemma quiet_legacy_forRecords (message : Message) (records : list JSValue) :
  quiet (Legacy.forRecords env message records).
Proof.
  induction records as [|record records IH]; simpl; [apply quiet_ret|].
  apply quiet_seq; [|done]. unfold Legacy.forRecord.
  do 5 (apply quiet_lift; intros ?).
  apply quiet_seq; [apply quiet_send|apply quiet_client_delete].
Qed.

Lemma quiet_legacy_forMessages (messages : list Message) :
  quiet (Legacy.forMessages env messages).
Proof.
  induction messages as [|message messages IH]; simpl; [apply quiet_ret|].
  apply quiet_seq; [|done]. unfold Legacy.forMessage.
  repeat case_match; try apply quiet_ret.
  apply quiet_lift. intros event. apply quiet_lift. intros test.
  destruct test; [apply quiet_client_delete|].
  do 2 (apply quiet_lift; intros ?). apply quiet_legacy_forRecords.
Qed.

Lemma quiet_not_failed (evs : list Event) :
  Forall (λ e, is_receive e = false) evs → Receive ReceiveFailed ∉ evs.
Proof. rewrite Forall_forall. intros Hall Hin. by specialize (Hall _ Hin). Qed.

(** One turn: a receive call, then calls that are no receive calls; it
    throws exactly when the receive call failed. *)
Lemma legacy_iteration_spec (tr : list Event) :
  (sqs_receive tr = ReceiveFailed
   ∧ Legacy.iteration env tr = (Throw, tr ++ [Receive ReceiveFailed]))
  ∨ (sqs_receive tr ≠ ReceiveFailed
     ∧ ∃ evs, Legacy.iteration env tr = (Val tt, tr ++ Receive (sqs_receive tr) :: evs)
              ∧ Forall (λ e, is_receive e = false) evs).
Proof.
  unfold Legacy.iteration.
  destruct (sqs_receive tr) as [| |messages] eqn:Hrecv; cbv zeta.
  - by left.
  - right. split; [done|]. exists []. by split.
  - right. split; [done|]. unfold_M.
    destruct (quiet_legacy_forMessages messages (tr ++ [Receive (Messages messages)]))
      as (Ho & evs & Htr & Hevs).
    exists evs. destruct (Legacy.forMessages env messages _) as [o tr1]. simpl in *.
    subst tr1. rewrite <- app_assoc. by destruct Ho as [-> | ->].
Qed.

(** X19: in the earlier consumer the receive call is outside the [try]:
    the loop ends, with the exception, at the first receive call that
    fails, and at nothing else.  After [n] turns either all [n] receive
    calls were made and none failed, or the exception has left the loop
    and the last call made is the first failed receive. *)
Theorem legacy_receive_failure (n : nat) (tr : list Event) :
  (sqs_receive tr = ReceiveFailed →
   Legacy.main env (S n) tr = (Throw, tr ++ [Receive ReceiveFailed]))
  ∧ ∃ evs, (Legacy.main env n tr).2 = tr ++ evs
           ∧ ((Legacy.main env n tr).1 = Val tt
              ∧ receives evs = n
              ∧ Receive ReceiveFailed ∉ evs
              ∨ (Legacy.main env n tr).1 = Throw
                ∧ (receives evs ≤ n)%nat
                ∧ ∃ before, evs = before ++ [Receive ReceiveFailed]
                            ∧ Receive ReceiveFailed ∉ before).
Proof.
  split.
  { intros Hrecv. simpl. unfold_M.
    destruct (legacy_iteration_spec tr) as [[_ ->]|[Hno _]]; [done|by destruct Hno]. }
  revert tr. induction n as [|n IH]; intros tr; simpl.
  - exists []. rewrite app_nil_r. split; [done|]. left. split; [done|]. split; [done|].
    by apply not_elem_of_nil.
  - unfold_M. destruct (legacy_iteration_spec tr) as [[Hrecv ->]|[Hno (evs1 & -> & Hevs1)]].
    + eexists [_]. split; [done|]. right. split; [done|].
      split; [unfold receives; simpl; lia|].
      exists []. split; [done|]. by apply not_elem_of_nil.
    + destruct (IH (tr ++ Receive (sqs_receive tr) :: evs1)) as (evs2 & Htr2 & Hcases).
      exists ((Receive (sqs_receive tr) :: evs1) ++ evs2).
      rewrite Htr2, app_assoc. split; [done|].
      assert (receives (Receive (sqs_receive tr) :: evs1) = 1%nat) as Hone.
      { change (Receive (sqs_receive tr) :: evs1) with ([Receive (sqs_receive tr)] ++ evs1).
        by rewrite receives_app, (receives_quiet evs1 Hevs1). }
      assert (Receive ReceiveFailed ∉ Receive (sqs_receive tr) :: evs1) as Hnone.
      { rewrite not_elem_of_cons. split; [congruence|by apply quiet_not_failed]. }
      destruct Hcases as [(Ho & Hn & Hnot)|(Ho & Hn & before & -> & Hnot)].
      * left. split; [done|]. rewrite receives_app, Hone, Hn. split; [done|].
        rewrite not_elem_of_app. by split.
      * right. split; [done|]. rewrite receives_app, Hone. split; [lia|].
        exists ((Receive (sqs_receive tr) :: evs1) ++ before).
        rewrite <- app_assoc. split; [done|]. rewrite not_elem_of_app. by split.
Qed.

Lemma legacy_forRecord_failed (message : Message) (record key bucketName : JSValue)
    (tr : list Event) :
  notified record key bucketName →
  ecs_send tr (Legacy.runTaskCommand env key bucketName) = false →
  Legacy.forRecord env message record tr
  = (Throw, tr ++ [RunTask (Legacy.runTaskCommand env key bucketName) false]).
Proof.
  intros (fields & s3 & bucket & object & -> & Hs3 & Hbucket & Hobject & -> & ->) Hsend.
  unfold Legacy.forRecord, lift, ecsClient_send. unfold_M. simpl.
  rewrite Hs3. simpl. rewrite Hbucket, Hobject. simpl. by rewrite Hsend.
Qed.

(** X20: the earlier consumer does not check the records: whatever key
    and bucket name a record gives, a worker is launched for it.  And
    when that launch fails, the exception ends the turn of the loop: the
    message is not deleted, and the other records of the message and the
    other messages received with it are dropped. *)
Theorem legacy_launch_failure (message : Message) (body : string)
    (fields : gmap string JSValue) (record : JSValue) (records : list JSValue)
    (key bucketName : JSValue) (rest : list Message) (tr : list Event) :
  Body message = Some body →
  body ≠ EmptyString →
  JSON_parse body = Some (JObject fields) →
  ¬ TestEvent (JObject fields) →
  fields !! "Records" = Some (JArray (record :: records)) →
  notified record key bucketName →
  sqs_receive tr = Messages (message :: rest) →
  ecs_send (tr ++ [Receive (Messages (message :: rest))])
    (Legacy.runTaskCommand env key bucketName) = false →
  Legacy.iteration env tr
  = (Val tt,
     tr ++ [Receive (Messages (message :: rest));
            RunTask (Legacy.runTaskCommand env key bucketName) false]).
Proof.
  intros Hbody Hne Hparse Htest Hrecords Hrecord Hrecv Hsend.
  unfold Legacy.iteration. rewrite Hrecv. cbv zeta. simpl. unfold Legacy.forMessage.
  rewrite Hbody, Hparse. destruct (String.eqb_spec body ""); [done|].
  unfold lift. unfold_M. rewrite (isTestEvent_false fields Htest). simpl.
  rewrite Hrecords. simpl. unfold_M.
  rewrite (legacy_forRecord_failed message record key bucketName _ Hrecord Hsend).
  simpl. by rewrite <- app_assoc.
Qed.

End Dispatch.

(** *** The theorems on scenarios *)

Import QueueScenario QueueFailures.

Lemma legacy_receive_failure_witness :
  Legacy.main (H := unreachable) legacy_env 4 [] = (Throw, [] ++ [Receive ReceiveFailed])
  ∧ ∃ evs, (Legacy.main (H := unreachable) legacy_env 3 []).2 = [] ++ evs
           ∧ ((Legacy.main (H := unreachable) legacy_env 3 []).1 = Val tt
              ∧ receives evs = 3%nat
              ∧ Receive ReceiveFailed ∉ evs
              ∨ (Legacy.main (H := unreachable) legacy_env 3 []).1 = Throw
                ∧ (receives evs ≤ 3)%nat
                ∧ ∃ before, evs = before ++ [Receive ReceiveFailed]
                            ∧ Receive ReceiveFailed ∉ before).
Proof.
  destruct (legacy_receive_failure (H := unreachable) legacy_env 3 []) as [Hfailed Hshape].
  split; [apply Hfailed; reflexivity|exact Hshape].
Defined.

Lemma legacy_launch_failure_witness :
  Legacy.iteration (H := collaborators [message (Some mixed)] ["notes.txt"]) legacy_env []
  = (Val tt,
     [] ++ [Receive (Messages (message (Some mixed) :: []));
            RunTask (Legacy.runTaskCommand legacy_env (JString "notes.txt")
                       (JString "uploads")) false]).
Proof.
  apply (legacy_launch_failure (H := collaborators [message (Some mixed)] ["notes.txt"])
           legacy_env (message (Some mixed)) mixed (fields_of mixed)
           (default JNull (head (records_of mixed))) (tail (records_of mixed))
           (JString "notes.txt") (JString "uploads") [] []).
  - reflexivity.
  - by vm_compute.
  - by vm_compute.
  - intros (fields & Heq & Hservice & _). injection Heq as <-.
    vm_compute in Hservice. by destruct Hservice.
  - by vm_compute.
  - eexists _, _, _, _. repeat split; vm_compute; reflexivity.
  - reflexivity.
  - by vm_compute.
Defined.

End LegacyFacts.
